(** * Dungeon board editor (4x4): board model, picking, edit engine, JSON codec

    A shallow embedding of the logic of [dungeon_board_editor_4_x_4_react.tsx]:
    grid addressing, [makeEmptyState], the arithmetic of [pickFromMouse], the
    reducer inside [applyPick], and [exportJson] / [importJson].

    Conventions of the embedding.
    - A JavaScript [number] is a double, given by the rational it denotes
      ([Qc], canonical fractions, so that [=] is structural equality).  A
      literal is the double nearest to it; a sum, difference, product or
      quotient is the double nearest to the exact result, ties to the even
      significand, as in the source.  Comparisons, [Math.floor], [Math.min]
      and [Math.max] are exact.  NaN, the infinities (so overflow) and the
      sign of zero are outside the model; a variable of type [number] ranges
      over all rationals, the doubles among them.
    - A JavaScript array is a list whose slots may be empty: [None] is a hole,
      which reads as [undefined].  Writing past the end extends the array.
    - An optional field ([light?:]) is an [option]; an absent field and a field
      holding [undefined] are the same [None].
    - The React state cells of the component are the fields of two records,
      [ToolConfig] (what an edit reads) and [Session] (what edits write),
      threaded explicitly.  Timers that blank the status line ([setTimeout])
      are not modelled.
    - The updater of [applyPick] is embedded twice: on values, where most
      properties are proved, and on a store of objects with references, where
      returning [prev] itself and leaving the previous objects untouched can
      be stated.  [boardUpdaterH_sim] relates the two. *)

From Stdlib Require Import QArith Qcanon Qround Lqa.
From stdpp Require Import base numbers option list strings pretty gmap relations.

Local Open Scope Qc_scope.

(** ** Numbers *)

Definition number := Qc.

(** The number nearest to [q] among those with [prec] bits of significand
    and exponent at least [emin], that is among the [m * 2 ^ e] with
    [|m| < 2 ^ prec] and [emin <= e]; of two nearest ones, the one with [m]
    even. *)
Definition nearest (prec emin : Z) (q : Q) : Q :=
  let n := Qnum q in
  let d := Z.pos (Qden q) in
  if (n =? 0)%Z then 0%Q
  else
    let a := Z.abs n in
    let k := (Z.log2 a - Z.log2 d)%Z in
    (* [2 ^ E <= a / d < 2 ^ (E + 1)] *)
    let E := if (0 <=? k)%Z
             then (if (d * 2 ^ k <=? a)%Z then k else k - 1)%Z
             else (if (d <=? a * 2 ^ (- k))%Z then k else k - 1)%Z in
    let e := Z.max (E - (prec - 1)) emin in
    (* [a / d = (sn / sd) * 2 ^ e] *)
    let sn := if (e <? 0)%Z then (a * 2 ^ (- e))%Z else a in
    let sd := if (e <? 0)%Z then d else (d * 2 ^ e)%Z in
    let m0 := (sn / sd)%Z in
    let m := match (2 * (sn mod sd) ?= sd)%Z with
             | Lt => m0
             | Gt => (m0 + 1)%Z
             | Eq => if Z.even m0 then m0 else (m0 + 1)%Z
             end in
    let v := if (e <? 0)%Z then Qmake m (Z.to_pos (2 ^ (- e))) else inject_Z (m * 2 ^ e) in
    if (n <? 0)%Z then Qopp v else v.

(** The double nearest to [q]: 53 bits, exponents from -1074. *)
Definition round64 (q : number) : number := Q2Qc (nearest 53 (-1074) q).

(** Rounding is evaluated by [vm_compute] only. *)
Global Opaque nearest.

(** The arithmetic of the source. *)
Definition fadd (a b : number) : number := round64 (a + b).
Definition fsub (a b : number) : number := round64 (a - b).
Definition fmul (a b : number) : number := round64 (a * b).
Definition fdiv (a b : number) : number := round64 (a / b).

Infix "⊕" := fadd (at level 50, left associativity).
Infix "⊖" := fsub (at level 50, left associativity).
Infix "⊗" := fmul (at level 40, left associativity).
Infix "⊘" := fdiv (at level 40, left associativity).

(** Literals: an integer, and a decimal fraction [a / b] as written in the
    source, which denotes the double nearest to it. *)
Definition num (z : Z) : number := Qc_of_Z z.
Definition frac (a : Z) (b : positive) : number := round64 (Q2Qc (a # b)).
Definition num_of_nat (n : nat) : number := num (Z.of_nat n).

Definition Math_floor (q : number) : number := num (Qfloor q).

(** [Math.max(a, b)] and [Math.min(a, b)] on two arguments: the second
    argument replaces the first only when it is strictly larger (smaller). *)
Definition Math_max (a b : number) : number := if decide (a < b) then b else a.
Definition Math_min (a b : number) : number := if decide (b < a) then b else a.

(** [Math.min(a, b, c, d)]: the running minimum, left to right. *)
Definition Math_min4 (a b c d : number) : number :=
  Math_min (Math_min (Math_min a b) c) d.

(** A number used as a grid coordinate, for a number that is a natural
    number. *)
Definition to_nat (q : number) : nat := Z.to_nat (Qfloor q).

(** ** Grid constants and addressing *)

Definition GRID_W : nat := 4.
Definition GRID_H : nat := 4.

Definition clamp (n a b : number) : number := Math_max a (Math_min b n).

Definition idxCell (x y : nat) : nat := y * GRID_W + x.
Definition idxHEdge (x y : nat) : nat := y * GRID_W + x.
Definition idxVEdge (x y : nat) : nat := y * (GRID_W + 1) + x.

(** ** JSON values

    What [JSON.parse] returns.  An object keeps its members in document order. *)

#[local] Set Warnings "-register-all".

Inductive json :=
  | JNull
  | JBool (b : bool)
  | JNum (n : number)
  | JStr (s : string)
  | JArr (items : list json)
  | JObj (members : list (string * json)).

(** ** Data model *)

Inductive CellType := Floor | Pit | Water.
Inductive EdgeType := NoEdge | Wall | Door.
Inductive ObjType := NoObj | Lever | Trapdoor | Torch | Bridge | Light.
Inductive ToolMode := Cells | Edges | Objects.

(** [Exclude<EdgeType, "none">], the type of the edge brush. *)
Inductive EdgeBrush := BrushWall | BrushDoor.

Definition edge_of_brush (b : EdgeBrush) : EdgeType :=
  match b with BrushWall => Wall | BrushDoor => Door end.

Global Instance CellType_eq_dec : EqDecision CellType.
Proof. solve_decision. Defined.
Global Instance EdgeType_eq_dec : EqDecision EdgeType.
Proof. solve_decision. Defined.
Global Instance ObjType_eq_dec : EqDecision ObjType.
Proof. solve_decision. Defined.
Global Instance ToolMode_eq_dec : EqDecision ToolMode.
Proof. solve_decision. Defined.

Record LightProps := {
  color : string;
  intensity : number;
  distance : number;
  decay : number
}.

(** [rotation] is declared [0 | 90 | 180 | 270]; the code computes it with
    integer arithmetic, so it is an integer here and the declared range is the
    predicate [rotation_ok]. *)
Record ObjectPlacement := {
  type : ObjType;
  rotation : Z;
  light : option LightProps
}.

Record CustomPlacement := {
  c_id : number;
  c_name : string;
  c_url : json;   (* declared [string]; [importJson] stores what the document holds *)
  c_x : number;
  c_y : number;
  c_scale : number;
  c_yOffset : number;
  c_rotation : number
}.

(** Arrays with holes. *)
Abbreviation array A := (list (option A)) (only parsing).

(** [a[i]]: [undefined] for a hole and past the end. *)
Definition arr_get {A} (a : array A) (i : nat) : option A := mjoin (a !! i).

(** [a[i] = v]: overwrite in range, otherwise grow the array up to [i],
    leaving holes in between. *)
Definition arr_set {A} (a : array A) (i : nat) (v : A) : array A :=
  if decide (i < length a)%nat then <[i := Some v]> a
  else a ++ replicate (i - length a) None ++ [Some v].

(** [Array(n).fill(v)]. *)
Definition arr_fill {A} (n : nat) (v : A) : array A := replicate n (Some v).

(** [a.map(f)]: holes are skipped and stay holes. *)
Definition arr_map {A B} (f : A -> B) (a : array A) : array B :=
  fmap (M:=list) (fmap (M:=option) f) a.

Record BoardState := {
  cells : array CellType;
  hEdges : array EdgeType;
  vEdges : array EdgeType;
  objects : array ObjectPlacement
}.

Inductive Dir := DirH | DirV.

(** Grid coordinates are natural numbers: [pickFromMouse] only builds a pick
    from the clamped, floored cell coordinates, possibly plus one. *)
Inductive Pick :=
  | PickCell (x y : nat)
  | PickEdge (dir : Dir) (x y : nat).

Definition makeEmptyState : BoardState := {|
  cells := arr_fill (GRID_W * GRID_H) Floor;
  hEdges := arr_fill ((GRID_H + 1) * GRID_W) NoEdge;
  vEdges := arr_fill (GRID_H * (GRID_W + 1)) NoEdge;
  objects := arr_map (fun _ : unit => {| type := NoObj; rotation := 0; light := None |})
               (arr_fill (GRID_W * GRID_H) tt)
|}.

(** ** Picking protocol *)

Definition cellSize : number := num 1.
Definition halfW : number := num_of_nat GRID_W ⊗ cellSize ⊘ num 2.
Definition halfH : number := num_of_nat GRID_H ⊗ cellSize ⊘ num 2.

(** The hit point of the pointer ray on the pick plane ([hits[0].point]);
    only [x] and [z] are read. *)
Record Point := { px : number; pz : number }.

(** [pickFromMouse], from the hit point on: the event filter, the ray cast and
    the final call of [applyPick] belong to the caller. *)
Definition pickFromMouse (mode : ToolMode) (p : Point) : Pick :=
  let lx := px p ⊕ halfW in
  let lz := pz p ⊕ halfH in
  let cx := clamp (Math_floor (lx ⊘ cellSize)) (num 0) (num_of_nat GRID_W ⊖ num 1) in
  let cy := clamp (Math_floor (lz ⊘ cellSize)) (num 0) (num_of_nat GRID_H ⊖ num 1) in
  let localX := lx ⊖ cx ⊗ cellSize in
  let localZ := lz ⊖ cy ⊗ cellSize in
  let edgeSnap := frac 18 100 ⊗ cellSize in
  let dLeft := localX in
  let dRight := cellSize ⊖ localX in
  let dTop := localZ in
  let dBottom := cellSize ⊖ localZ in
  let minD := Math_min4 dLeft dRight dTop dBottom in
  if decide (mode <> Edges) then PickCell (to_nat cx) (to_nat cy)
  else if decide (minD <= edgeSnap) then
    if decide (minD = dTop) then PickEdge DirH (to_nat cx) (to_nat cy)
    else if decide (minD = dBottom) then PickEdge DirH (to_nat cx) (to_nat (cy ⊕ num 1))
    else if decide (minD = dLeft) then PickEdge DirV (to_nat cx) (to_nat cy)
    else PickEdge DirV (to_nat (cx ⊕ num 1)) (to_nat cy)
  else PickCell (to_nat cx) (to_nat cy).

(** [getCellFromMouse], from the hit point on: the cell under the pointer. *)
Definition getCellFromMouse (p : Point) : number * number :=
  let lx := px p ⊕ halfW in
  let lz := pz p ⊕ halfH in
  let cx := clamp (Math_floor (lx ⊘ cellSize)) (num 0) (num_of_nat GRID_W ⊖ num 1) in
  let cy := clamp (Math_floor (lz ⊘ cellSize)) (num 0) (num_of_nat GRID_H ⊖ num 1) in
  (cx, cy).

(** ** Editor state *)

(** What the operator has selected in the tool panels; [applyPick] only reads
    it. *)
Record ToolConfig := {
  mode : ToolMode;
  cellBrush : CellType;
  edgeBrush : EdgeBrush;
  objectBrush : ObjType;
  lightBrush : LightProps;
  customTemplates : gset string;
  customBrush : option string
}.

(** The state cells that edits write. *)
Record Session := {
  board : BoardState;
  selectedLightCell : option nat;
  editingLight : option LightProps;
  status : string;
  customObjects : list CustomPlacement;
  selectedCustomId : option number;
  nextCustomId : Z
}.

Definition setBoard (b : BoardState) (s : Session) : Session :=
  {| board := b; selectedLightCell := selectedLightCell s;
     editingLight := editingLight s; status := status s;
     customObjects := customObjects s; selectedCustomId := selectedCustomId s;
     nextCustomId := nextCustomId s |}.

Definition setSelectedLightCell (c : option nat) (s : Session) : Session :=
  {| board := board s; selectedLightCell := c;
     editingLight := editingLight s; status := status s;
     customObjects := customObjects s; selectedCustomId := selectedCustomId s;
     nextCustomId := nextCustomId s |}.

Definition setEditingLight (l : option LightProps) (s : Session) : Session :=
  {| board := board s; selectedLightCell := selectedLightCell s;
     editingLight := l; status := status s;
     customObjects := customObjects s; selectedCustomId := selectedCustomId s;
     nextCustomId := nextCustomId s |}.

Definition setStatus (m : string) (s : Session) : Session :=
  {| board := board s; selectedLightCell := selectedLightCell s;
     editingLight := editingLight s; status := m;
     customObjects := customObjects s; selectedCustomId := selectedCustomId s;
     nextCustomId := nextCustomId s |}.

Definition setCustomObjects (cs : list CustomPlacement) (s : Session) : Session :=
  {| board := board s; selectedLightCell := selectedLightCell s;
     editingLight := editingLight s; status := status s;
     customObjects := cs; selectedCustomId := selectedCustomId s;
     nextCustomId := nextCustomId s |}.

Definition setSelectedCustomId (i : option number) (s : Session) : Session :=
  {| board := board s; selectedLightCell := selectedLightCell s;
     editingLight := editingLight s; status := status s;
     customObjects := customObjects s; selectedCustomId := i;
     nextCustomId := nextCustomId s |}.

Definition setNextCustomId (n : Z) (s : Session) : Session :=
  {| board := board s; selectedLightCell := selectedLightCell s;
     editingLight := editingLight s; status := status s;
     customObjects := customObjects s; selectedCustomId := selectedCustomId s;
     nextCustomId := n |}.

Definition initialConfig : ToolConfig := {|
  mode := Cells; cellBrush := Floor; edgeBrush := BrushWall;
  objectBrush := Lever;
  lightBrush := {| color := "#ffc878"; intensity := frac 75 10;
                   distance := frac 32 10; decay := num 2 |};
  customTemplates := ∅; customBrush := None
|}.

Definition initialSession : Session := {|
  board := makeEmptyState; selectedLightCell := None; editingLight := None;
  status := ""; customObjects := []; selectedCustomId := None;
  nextCustomId := 1
|}.

(** ** Edit engine *)

(** What the updater handed to [setBoard] did. *)
Inductive BoardUpdate :=
  | NotCalled                          (* [setBoard] was not reached *)
  | ReturnedPrev                       (* [return prev]: the very same state object *)
  | ReturnedNext (next : BoardState)   (* [return next]: the fresh copy *)
  | Threw.                             (* a TypeError escaped the updater *)

Definition set_cells (b : BoardState) (a : array CellType) : BoardState :=
  {| cells := a; hEdges := hEdges b; vEdges := vEdges b; objects := objects b |}.
Definition set_hEdges (b : BoardState) (a : array EdgeType) : BoardState :=
  {| cells := cells b; hEdges := a; vEdges := vEdges b; objects := objects b |}.
Definition set_vEdges (b : BoardState) (a : array EdgeType) : BoardState :=
  {| cells := cells b; hEdges := hEdges b; vEdges := a; objects := objects b |}.
Definition set_objects (b : BoardState) (a : array ObjectPlacement) : BoardState :=
  {| cells := cells b; hEdges := hEdges b; vEdges := vEdges b; objects := a |}.

(** [{ cells: [...prev.cells], hEdges: [...prev.hEdges], vEdges:
    [...prev.vEdges], objects: prev.objects.map((o) => ({ ...o })) }] *)
Definition copyBoard (prev : BoardState) : BoardState := {|
  cells := cells prev;
  hEdges := hEdges prev;
  vEdges := vEdges prev;
  objects := arr_map (fun o => {| type := type o; rotation := rotation o; light := light o |})
               (objects prev)
|}.

Definition cellName (c : CellType) : string :=
  match c with Floor => "Pavimento" | Pit => "Baratro" | Water => "Acqua" end.

Definition noObject : ObjectPlacement := {| type := NoObj; rotation := 0; light := None |}.

(** The function passed to [setBoard] in [applyPick]. *)
Definition boardUpdater (cfg : ToolConfig) (s : Session) (pick : Pick) (prev : BoardState)
  : BoardUpdate * Session :=
  let next := copyBoard prev in
  match pick with
  | PickCell x y =>
    let i := idxCell x y in
    match mode cfg with
    | Cells =>
      let next := set_cells next (arr_set (cells next) i (cellBrush cfg)) in
      let s := setStatus ("Cella (" +:+ pretty (x + 1)%nat +:+ "," +:+ pretty (y + 1)%nat
                          +:+ ") = " +:+ cellName (cellBrush cfg)) s in
      if decide (cellBrush cfg = Floor /\ type <$> arr_get (objects next) i = Some Bridge)
      then (ReturnedNext (set_objects next (arr_set (objects next) i noObject)), s)
      else (ReturnedNext next, s)
    | Objects =>
      let s := setSelectedCustomId None s in
      if decide (objectBrush cfg = Light) then
        let prevLight := arr_get (objects next) i in
        let placed := {| type := Light;
                         rotation := default 0%Z (rotation <$> prevLight);
                         light := Some (lightBrush cfg) |} in
        (ReturnedNext (set_objects next (arr_set (objects next) i placed)),
         setEditingLight (Some (lightBrush cfg)) (setSelectedLightCell (Some i) s))
      else
        let base := arr_get (cells next) i in
        if decide (objectBrush cfg = Bridge /\ base <> Some Water /\ base <> Some Pit) then
          (ReturnedPrev, setStatus "Il ponte si puo piazzare solo su Acqua o Baratro." s)
        else if decide (objectBrush cfg = NoObj) then
          (ReturnedNext (set_objects next (arr_set (objects next) i noObject)),
           if decide (selectedLightCell s = Some i)
           then setEditingLight None (setSelectedLightCell None s) else s)
        else
          match arr_get (objects next) i with
          | None => (Threw, s)
          | Some o =>
            if decide (type o = objectBrush cfg) then
              let o' := {| type := type o;
                           rotation := Z.rem (rotation o + 90) 360;
                           light := light o |} in
              (ReturnedNext (set_objects next (arr_set (objects next) i o')), s)
            else
              let o' := {| type := objectBrush cfg; rotation := 0; light := None |} in
              (ReturnedNext (set_objects next (arr_set (objects next) i o')),
               if decide (selectedLightCell s = Some i)
               then setEditingLight None (setSelectedLightCell None s) else s)
          end
    | Edges =>
      (ReturnedPrev,
       setStatus "Sei in modalita Bordi: per dipingere Acqua/Baratro passa a 'Celle'." s)
    end
  | PickEdge dir x y =>
    if decide (mode cfg <> Edges) then (ReturnedPrev, s)
    else
      let brush := edge_of_brush (edgeBrush cfg) in
      match dir with
      | DirH =>
        let id := idxHEdge x y in
        let v := if decide (arr_get (hEdges next) id = Some brush) then NoEdge else brush in
        (ReturnedNext (set_hEdges next (arr_set (hEdges next) id v)), s)
      | DirV =>
        let id := idxVEdge x y in
        let v := if decide (arr_get (vEdges next) id = Some brush) then NoEdge else brush in
        (ReturnedNext (set_vEdges next (arr_set (vEdges next) id v)), s)
      end
  end.

(** A string used as a condition: the empty string and [null] are falsy. *)
Definition truthy_string (o : option string) : bool :=
  match o with
  | Some s => bool_decide (s <> "")
  | None => false
  end.

Definition is_cell (pick : Pick) : bool :=
  match pick with PickCell _ _ => true | PickEdge _ _ _ => false end.

Definition pick_x (pick : Pick) : nat :=
  match pick with PickCell x _ => x | PickEdge _ x _ => x end.
Definition pick_y (pick : Pick) : nat :=
  match pick with PickCell _ y => y | PickEdge _ _ y => y end.

(** The function passed to [setCustomObjects] in [applyPick]: remove the first
    placement found on the cell, or append a new one with a fresh id. *)
Definition customUpdater (brush : string) (s : Session) (pick : Pick) : Session :=
  let prev := customObjects s in
  match list_find (fun c => c_x c = num_of_nat (pick_x pick) /\ c_y c = num_of_nat (pick_y pick)) prev with
  | Some (existingIdx, removed) =>
    let s' := if decide (Some (c_id removed) = selectedCustomId s)
              then setSelectedCustomId None s else s in
    setCustomObjects (delete existingIdx prev) s'
  | None =>
    let id := num (nextCustomId s) in
    let created := {| c_id := id; c_name := brush; c_url := JStr brush;
                      c_x := num_of_nat (pick_x pick); c_y := num_of_nat (pick_y pick);
                      c_scale := num 1; c_yOffset := num 0; c_rotation := num 0 |} in
    setCustomObjects (prev ++ [created])
      (setSelectedCustomId (Some id) (setNextCustomId (nextCustomId s + 1) s))
  end.

(** [applyPick]: the outcome of the board updater, and the session after all
    the state setters have run. *)
Definition applyPick (cfg : ToolConfig) (s : Session) (pick : Pick) : BoardUpdate * Session :=
  if bool_decide (mode cfg = Objects) && is_cell pick && truthy_string (customBrush cfg)
     && bool_decide (objectBrush cfg = NoObj)
  then
    let brush := default "" (customBrush cfg) in
    if decide (brush ∈ customTemplates cfg)
    then (NotCalled, customUpdater brush s pick)
    else (NotCalled, setStatus "Carica un oggetto prima di piazzarlo." s)
  else
    match boardUpdater cfg s pick (board s) with
    | (ReturnedNext next, s') => (ReturnedNext next, setBoard next s')
    | (u, s') => (u, s')
    end.

(** The board held by the session after an update. *)
Definition board_after (prev : BoardState) (u : BoardUpdate) : BoardState :=
  match u with ReturnedNext next => next | _ => prev end.

(** ** Other operations that write the session *)

Definition resetAll (s : Session) : Session :=
  setStatus "Reset completato." (setBoard makeEmptyState s).

(** [handleCustomDrag] in "move" mode, at hit point [p], for the dragged id. *)
Definition dragMove (id : number) (p : Point) (s : Session) : Session :=
  let cell := getCellFromMouse p in
  setCustomObjects
    (map (fun c => if decide (c_id c = id)
                   then {| c_id := c_id c; c_name := c_name c; c_url := c_url c;
                           c_x := cell.1; c_y := cell.2; c_scale := c_scale c;
                           c_yOffset := c_yOffset c; c_rotation := c_rotation c |}
                   else c) (customObjects s)) s.

(** [handleCustomDrag] in "scale" mode, for the pointer delta [dy]. *)
Definition dragScale (id : number) (dy : number) (s : Session) : Session :=
  setCustomObjects
    (map (fun c => if decide (c_id c = id)
                   then {| c_id := c_id c; c_name := c_name c; c_url := c_url c;
                           c_x := c_x c; c_y := c_y c;
                           c_scale := clamp (c_scale c ⊕ dy) (frac 3 10) (num 3);
                           c_yOffset := c_yOffset c; c_rotation := c_rotation c |}
                   else c) (customObjects s)) s.

(** [Partial<Pick<CustomPlacement, "scale" | "yOffset" | "rotation">>] *)
Record CustomPartial := {
  p_scale : option number;
  p_yOffset : option number;
  p_rotation : option number
}.

Definition updateSelectedCustom (partial : CustomPartial) (s : Session) : Session :=
  match selectedCustomId s with
  | None => s
  | Some sel =>
    setCustomObjects
      (map (fun c => if decide (c_id c = sel)
                     then {| c_id := c_id c; c_name := c_name c; c_url := c_url c;
                             c_x := c_x c; c_y := c_y c;
                             c_scale := default (c_scale c) (p_scale partial);
                             c_yOffset := default (c_yOffset c) (p_yOffset partial);
                             c_rotation := default (c_rotation c) (p_rotation partial) |}
                     else c) (customObjects s)) s
  end.

(** [Partial<LightProps>] *)
Record LightPartial := {
  p_color : option string;
  p_intensity : option number;
  p_distance : option number;
  p_decay : option number
}.

Definition updateSelectedLight (partial : LightPartial) (s : Session) : Session :=
  match selectedLightCell s with
  | None => s
  | Some sel =>
    match arr_get (objects (board s)) sel with
    | Some {| type := Light; light := Some cur |} =>
      let updated := {| color := default (color cur) (p_color partial);
                        intensity := default (intensity cur) (p_intensity partial);
                        distance := default (distance cur) (p_distance partial);
                        decay := default (decay cur) (p_decay partial) |} in
      let objects' :=
        imap (fun idx slot =>
                match slot with
                | Some o => if decide (idx = sel /\ type o = Light)
                            then Some {| type := type o; rotation := rotation o;
                                         light := Some updated |}
                            else Some o
                | None => None
                end) (objects (board s)) in
      setBoard (set_objects (board s) objects') (setEditingLight (Some updated) s)
    | _ => s
    end
  end.

(** ** Persistence codec *)

(** *** Reading a parsed document *)

(** [v.k] for the member names the codec reads.  A later duplicate of a member
    name overrides an earlier one, as in [JSON.parse]; [None] is [undefined].
    Values that are not objects have none of these members. *)
Fixpoint member (k : string) (kvs : list (string * json)) : option json :=
  match kvs with
  | [] => None
  | (k', v) :: rest =>
    match member k rest with
    | Some w => Some w
    | None => if decide (k' = k) then Some v else None
    end
  end.

Definition prop (k : string) (v : json) : option json :=
  match v with
  | JObj kvs => member k kvs
  | _ => None
  end.

(** JavaScript truthiness of a value that may be [undefined]. *)
Definition truthy (v : option json) : bool :=
  match v with
  | None => false
  | Some JNull => false
  | Some (JBool b) => b
  | Some (JNum n) => bool_decide (n <> num 0)
  | Some (JStr s) => bool_decide (s <> "")
  | Some (JArr _) => true
  | Some (JObj _) => true
  end.

(** [typeof v === "object"], for a value already known to be truthy. *)
Definition typeof_object (v : json) : bool :=
  match v with
  | JArr _ | JObj _ | JNull => true
  | _ => false
  end.

(** [Array.isArray(v) && v.length === n ? v : fallback], on the items. *)
Definition array_of_length (n : nat) (v : json) (fallback : list json) : list json :=
  match v with
  | JArr items => if decide (length items = n) then items else fallback
  | _ => fallback
  end.

(** *** The JSON image of the model

    The value a typed datum is at run time, which is also what
    [JSON.stringify] followed by [JSON.parse] gives back. *)

Definition cell_value (c : CellType) : json :=
  JStr match c with Floor => "floor" | Pit => "pit" | Water => "water" end.

Definition edge_value (e : EdgeType) : json :=
  JStr match e with NoEdge => "none" | Wall => "wall" | Door => "door" end.

Definition objtype_value (t : ObjType) : json :=
  JStr match t with
       | NoObj => "none" | Lever => "lever" | Trapdoor => "trapdoor"
       | Torch => "torch" | Bridge => "bridge" | Light => "light"
       end.

Definition light_value (l : LightProps) : json :=
  JObj [("color", JStr (color l)); ("intensity", JNum (intensity l));
        ("distance", JNum (distance l)); ("decay", JNum (decay l))].

(** A [light] member that is [undefined] is not written. *)
Definition object_value (o : ObjectPlacement) : json :=
  JObj ([("type", objtype_value (type o)); ("rotation", JNum (num (rotation o)))]
        ++ match light o with
           | Some l => [("light", light_value l)]
           | None => []
           end).

(** An array slot: a hole is written as [null]. *)
Definition slot_value {A} (f : A -> json) (slot : option A) : json :=
  match slot with
  | Some v => f v
  | None => JNull
  end.

Definition array_value {A} (f : A -> json) (a : array A) : list json :=
  map (slot_value f) a.

(** The board as [importJson] builds it: four arrays whose entries are
    whatever the document holds. *)
Record LoadedBoard := {
  l_cells : list json;
  l_hEdges : list json;
  l_vEdges : list json;
  l_objects : list json
}.

Definition board_value (b : BoardState) : LoadedBoard := {|
  l_cells := array_value cell_value (cells b);
  l_hEdges := array_value edge_value (hEdges b);
  l_vEdges := array_value edge_value (vEdges b);
  l_objects := array_value object_value (objects b)
|}.

Definition custom_value (c : CustomPlacement) : json :=
  JObj [("id", JNum (c_id c)); ("name", JStr (c_name c)); ("url", c_url c);
        ("x", JNum (c_x c)); ("y", JNum (c_y c)); ("scale", JNum (c_scale c));
        ("yOffset", JNum (c_yOffset c)); ("rotation", JNum (c_rotation c))].

(** [exportJson]: the document [{ version: 1, board, customObjects }] as it
    reads back from the downloaded file. *)
Definition exportJson (s : Session) : json :=
  let b := board_value (board s) in
  JObj [("version", JNum (num 1));
        ("board", JObj [("cells", JArr (l_cells b)); ("hEdges", JArr (l_hEdges b));
                        ("vEdges", JArr (l_vEdges b)); ("objects", JArr (l_objects b))]);
        ("customObjects", JArr (map custom_value (customObjects s)))].

(** *** Loading *)

Definition is_string (v : option json) : bool :=
  match v with Some (JStr _) => true | _ => false end.
Definition is_number (v : option json) : bool :=
  match v with Some (JNum _) => true | _ => false end.

(** The filter of [importJson] on one entry of [customObjects]. *)
Definition custom_entry_ok (c : json) : bool :=
  is_string (prop "name" c) && is_number (prop "x" c) && is_number (prop "y" c).

(** The [map] callback of [importJson] on an entry that passed the filter:
    the placement and the id counter after it. *)
Definition custom_of_entry (next : Z) (c : json) : CustomPlacement * Z :=
  let name := match prop "name" c with Some (JStr s) => s | _ => "" end in
  let numOr (k : string) (f : number -> number) (d : number) :=
    match prop k c with Some (JNum n) => f n | _ => d end in
  let '(id, next') :=
    match prop "id" c with Some (JNum n) => (n, next) | _ => (num next, (next + 1)%Z) end in
  ({| c_id := id;
      c_name := name;
      c_url := match prop "url" c with
               | None | Some JNull => JStr name
               | Some u => u
               end;
      c_x := numOr "x" (fun n => clamp n (num 0) (num_of_nat GRID_W ⊖ num 1)) (num 0);
      c_y := numOr "y" (fun n => clamp n (num 0) (num_of_nat GRID_H ⊖ num 1)) (num 0);
      c_scale := numOr "scale" (fun n => clamp n (frac 3 10) (num 3)) (num 1);
      c_yOffset := numOr "yOffset" (fun n => clamp n (num (-1)) (num 3)) (num 0);
      c_rotation := numOr "rotation" (fun n => n) (num 0) |},
   next').

Fixpoint customs_of_entries (next : Z) (cs : list json) : list CustomPlacement * Z :=
  match cs with
  | [] => ([], next)
  | c :: rest =>
    let '(p, next') := custom_of_entry next c in
    let '(ps, next'') := customs_of_entries next' rest in
    (p :: ps, next'')
  end.

Inductive ImportResult :=
  | ImportFailed (error : string) (s' : Session)
      (* an [Error] was thrown; [s'] is the session after the [catch] *)
  | ImportLoaded (nextBoard : LoadedBoard) (s' : Session).
      (* [setBoard(nextBoard)] ran; [s'] holds every other state cell *)

(** [importJson], from the parsed document [data] on.  The board of the
    resulting session is not touched here: the loaded board, whose entries are
    unchecked, is the [nextBoard] of the result. *)
Definition importJson (data : json) (s : Session) : ImportResult :=
  let failed (e : string) := ImportFailed e (setStatus "Errore nel caricare il JSON." s) in
  if negb (truthy (Some data)) || negb (typeof_object data) then failed "Formato invalido"
  else
    let b := prop "board" data in
    let field (k : string) := b ≫= prop k in
    if negb (truthy b) || negb (truthy (field "cells")) || negb (truthy (field "hEdges"))
       || negb (truthy (field "vEdges")) || negb (truthy (field "objects"))
    then failed "Board mancante"
    else
      let empty := board_value makeEmptyState in
      let pickArray (k : string) (n : nat) (fallback : list json) :=
        match field k with
        | Some v => array_of_length n v fallback
        | None => fallback
        end in
      let nextBoard := {|
        l_cells := pickArray "cells" (GRID_W * GRID_H)%nat (l_cells empty);
        l_hEdges := pickArray "hEdges" ((GRID_H + 1) * GRID_W)%nat (l_hEdges empty);
        l_vEdges := pickArray "vEdges" (GRID_H * (GRID_W + 1))%nat (l_vEdges empty);
        l_objects := pickArray "objects" (GRID_W * GRID_H)%nat (l_objects empty)
      |} in
      let s1 :=
        match prop "customObjects" data with
        | Some (JArr entries) =>
          let '(cs, next) := customs_of_entries (nextCustomId s) (filter custom_entry_ok entries) in
          setCustomObjects cs (setNextCustomId next s)
        | _ => s
        end in
      ImportLoaded nextBoard
        (setStatus "Dungeon caricato."
           (setSelectedCustomId None (setEditingLight None (setSelectedLightCell None s1)))).

(** * Vocabulary of the properties and the store model *)

(** ** Edit engine: rejected edits *)

(** The three ways the edit engine turns an edit down: a cell pick in edges
    mode, the bridge brush on terrain that is neither water nor pit, and an
    edge pick outside edges mode. *)
Definition rejects (cfg : ToolConfig) (b : BoardState) (pick : Pick) : Prop :=
  match pick with
  | PickCell x y =>
    mode cfg = Edges \/
    (mode cfg = Objects /\ objectBrush cfg = Bridge /\
     arr_get (cells b) (idxCell x y) <> Some Water /\
     arr_get (cells b) (idxCell x y) <> Some Pit)
  | PickEdge _ _ _ => mode cfg <> Edges
  end.

(** Tool panels used in the scenarios: the defaults with one mode and brush
    chosen. *)
Definition bridgeTool : ToolConfig := {|
  mode := Objects; cellBrush := Floor; edgeBrush := BrushWall; objectBrush := Bridge;
  lightBrush := lightBrush initialConfig; customTemplates := ∅; customBrush := None
|}.

Definition cellTool (brush : CellType) : ToolConfig := {|
  mode := Cells; cellBrush := brush; edgeBrush := BrushWall; objectBrush := Lever;
  lightBrush := lightBrush initialConfig; customTemplates := ∅; customBrush := None
|}.

Definition edgeTool (brush : EdgeBrush) : ToolConfig := {|
  mode := Edges; cellBrush := Floor; edgeBrush := brush; objectBrush := Lever;
  lightBrush := lightBrush initialConfig; customTemplates := ∅; customBrush := None
|}.

(** ** Edit engine: the bridge brush *)

Definition bridgeRejected : string := "Il ponte si puo piazzare solo su Acqua o Baratro.".

Definition placedBridge : ObjectPlacement := {| type := Bridge; rotation := 0; light := None |}.

Definition wateredSession : Session :=
  (applyPick (cellTool Water) initialSession (PickCell 1 1)).2.

(** ** Edit engine: toggling edges *)

(** The edge a pick addresses, as the board holds it. *)
Definition edge_at (b : BoardState) (dir : Dir) (x y : nat) : option EdgeType :=
  match dir with
  | DirH => arr_get (hEdges b) (idxHEdge x y)
  | DirV => arr_get (vEdges b) (idxVEdge x y)
  end.

(** A board on which the vertical edge (2,1) is already a wall. *)
Definition walledSession : Session :=
  (applyPick (edgeTool BrushWall) initialSession (PickEdge DirV 2 1)).2.

(** ** Edit engine: the light payload invariant *)

(** [o.light] is defined if and only if [o.type] is light. *)
Definition light_ok (o : ObjectPlacement) : Prop := is_Some (light o) <-> type o = Light.

Definition board_light_ok (b : BoardState) : Prop :=
  forall i o, arr_get (objects b) i = Some o -> light_ok o.

(** ** Picking *)

(** The four border distances of a point, from its offset in the clamped
    cell. *)
Record Distances := { dLeft : number; dRight : number; dTop : number; dBottom : number }.

Definition borderDistances (p : Point) : Distances :=
  let cell := getCellFromMouse p in
  let localX := px p ⊕ halfW ⊖ cell.1 ⊗ cellSize in
  let localZ := pz p ⊕ halfH ⊖ cell.2 ⊗ cellSize in
  {| dLeft := localX; dRight := cellSize ⊖ localX;
     dTop := localZ; dBottom := cellSize ⊖ localZ |}.

Definition edgeSnap : number := frac 18 100 ⊗ cellSize.

(** ** Codec: loading a document *)

(** A member that is an Array of exactly [n] entries. *)
Definition array_member (n : nat) (v : json) (items : list json) : Prop :=
  v = JArr items /\ length items = n.

(** What the loaded field is, given the member [v] of the document: the
    member's own entries when it is an Array of length [n], and the fallback
    otherwise. *)
Definition loaded_from (n : nat) (v : json) (fallback result : list json) : Prop :=
  (forall items, array_member n v items -> result = items) /\
  ((forall items, ~ array_member n v items) -> result = fallback).

(** A document with the given members of [board]. *)
Definition boardDoc (members : list (string * json)) : json :=
  JObj [("version", JNum (num 1)); ("board", JObj members)].

Definition emptyBoardValue : LoadedBoard := board_value makeEmptyState.

Definition loadError : string := "Errore nel caricare il JSON.".
Definition loadDone : string := "Dungeon caricato.".

(** A document whose [board] has no [cells] member, and one whose [cells] is
    [null]; the other three arrays are those of the empty board. *)
Definition docWithoutCells : json :=
  boardDoc [("hEdges", JArr (l_hEdges emptyBoardValue));
            ("vEdges", JArr (l_vEdges emptyBoardValue));
            ("objects", JArr (l_objects emptyBoardValue))].

Definition docWithNullCells : json :=
  boardDoc [("cells", JNull);
            ("hEdges", JArr (l_hEdges emptyBoardValue));
            ("vEdges", JArr (l_vEdges emptyBoardValue));
            ("objects", JArr (l_objects emptyBoardValue))].

(** The document of the malformed-load scenario: ten cells, and edge and
    object arrays of the right lengths that differ from the defaults. *)
Definition tenCellsDoc : json :=
  boardDoc [("cells", JArr (replicate 10 (cell_value Water)));
            ("hEdges", JArr (replicate 20 (edge_value Wall)));
            ("vEdges", JArr (replicate 20 (edge_value Door)));
            ("objects", JArr (replicate 16 (object_value placedBridge)))].

(** ** Codec: what the loader does not check *)

Definition rotation_ok (r : Z) : Prop := r = 0%Z \/ r = 90%Z \/ r = 180%Z \/ r = 270%Z.

(** A document holding the four arrays of a loaded board. *)
Definition docOfArrays (nb : LoadedBoard) : json :=
  boardDoc [("cells", JArr (l_cells nb)); ("hEdges", JArr (l_hEdges nb));
            ("vEdges", JArr (l_vEdges nb)); ("objects", JArr (l_objects nb))].

Definition right_lengths (nb : LoadedBoard) : Prop :=
  length (l_cells nb) = (GRID_W * GRID_H)%nat /\
  length (l_hEdges nb) = ((GRID_H + 1) * GRID_W)%nat /\
  length (l_vEdges nb) = (GRID_H * (GRID_W + 1))%nat /\
  length (l_objects nb) = (GRID_W * GRID_H)%nat.

(** The empty board with the object of cell 0 replaced. *)
Definition boardWithObject (o : ObjectPlacement) : BoardState :=
  set_objects makeEmptyState (arr_set (objects makeEmptyState) 0 o).

Definition leverWithLight : ObjectPlacement :=
  {| type := Lever; rotation := 0; light := Some (lightBrush initialConfig) |}.
Definition lightWithoutPayload : ObjectPlacement :=
  {| type := Light; rotation := 0; light := None |}.
Definition leverAt45 : ObjectPlacement :=
  {| type := Lever; rotation := 45; light := None |}.

(** The empty board's arrays with every cell ["lava"], and with every
    horizontal edge ["gate"]. *)
Definition lavaBoard : LoadedBoard :=
  {| l_cells := replicate 16 (JStr "lava"); l_hEdges := l_hEdges emptyBoardValue;
     l_vEdges := l_vEdges emptyBoardValue; l_objects := l_objects emptyBoardValue |}.
Definition gateBoard : LoadedBoard :=
  {| l_cells := l_cells emptyBoardValue; l_hEdges := replicate 20 (JStr "gate");
     l_vEdges := l_vEdges emptyBoardValue; l_objects := l_objects emptyBoardValue |}.

(** ** Codec: round trip *)

(** An array of [n] entries without holes. *)
Definition full {A} (n : nat) (a : array A) : Prop := length a = n /\ Forall is_Some a.

Definition board_wf (b : BoardState) : Prop :=
  full (GRID_W * GRID_H) (cells b) /\ full ((GRID_H + 1) * GRID_W) (hEdges b) /\
  full (GRID_H * (GRID_W + 1)) (vEdges b) /\ full (GRID_W * GRID_H) (objects b).

(** A placement whose coordinates, scale and height are within the ranges
    that [importJson] clamps to, and whose [url] is not [null]. *)
Definition custom_wf (c : CustomPlacement) : Prop :=
  (num 0 <= c_x c /\ c_x c <= num 3) /\ (num 0 <= c_y c /\ c_y c <= num 3) /\
  (frac 3 10 <= c_scale c /\ c_scale c <= num 3) /\
  (num (-1) <= c_yOffset c /\ c_yOffset c <= num 3) /\
  c_url c <> JNull.

Definition session_wf (s : Session) : Prop :=
  board_wf (board s) /\ Forall custom_wf (customObjects s).

(** The picks [pickFromMouse] can produce: cells of the grid and the edges
    around them. *)
Definition valid_pick (pick : Pick) : Prop :=
  match pick with
  | PickCell x y => (x < GRID_W)%nat /\ (y < GRID_H)%nat
  | PickEdge DirH x y => (x < GRID_W)%nat /\ (y <= GRID_H)%nat
  | PickEdge DirV x y => (x <= GRID_W)%nat /\ (y < GRID_H)%nat
  end.

(** The values a range input of the asset panel can deliver. *)
Definition slider_ok (partial : CustomPartial) : Prop :=
  (forall v, p_scale partial = Some v -> frac 3 10 <= v /\ v <= num 3) /\
  (forall v, p_yOffset partial = Some v -> num (-1) <= v /\ v <= num 3).

(** One operator action on the session. *)
Inductive step : Session -> Session -> Prop :=
  | step_pick cfg pick s :
      valid_pick pick -> step s (applyPick cfg s pick).2
  | step_dragMove id p s : step s (dragMove id p s)
  | step_dragScale id dy s : step s (dragScale id dy s)
  | step_slider partial s : slider_ok partial -> step s (updateSelectedCustom partial s)
  | step_light partial s : step s (updateSelectedLight partial s)
  | step_reset s : step s (resetAll s)
  | step_selectCustom sel s : step s (setSelectedCustomId sel s)
  | step_selectLight sel l s : step s (setEditingLight l (setSelectedLightCell sel s)).

Definition reachable (s : Session) : Prop := rtc step initialSession s.

(** ** The updater on a store of objects

    The same updater with the JavaScript objects made explicit: the state
    object, its four arrays and the placement objects live in a store and are
    handled through references, so that copying, in-place assignment and
    returning [prev] or [next] are what they are in the source.  A light
    payload is never assigned to in place, here or elsewhere in the component,
    and stays a value inside its placement. *)

Definition ref := nat.

Inductive hobj :=
  | HCells (a : array CellType)
  | HEdges (a : array EdgeType)
  | HObjects (a : array ref)
  | HPlacement (o : ObjectPlacement)
  | HBoard (rc rh rv ro : ref).

Abbreviation heap := (list hobj) (only parsing).

(** Allocation: a new object gets the next free reference. *)
Definition new (h : heap) (o : hobj) : heap * ref := (h ++ [o], length h).

Definition cellsAt (h : heap) (r : ref) : option (array CellType) :=
  match h !! r with Some (HCells a) => Some a | _ => None end.
Definition edgesAt (h : heap) (r : ref) : option (array EdgeType) :=
  match h !! r with Some (HEdges a) => Some a | _ => None end.
Definition objectsAt (h : heap) (r : ref) : option (array ref) :=
  match h !! r with Some (HObjects a) => Some a | _ => None end.
Definition placementAt (h : heap) (r : ref) : option ObjectPlacement :=
  match h !! r with Some (HPlacement o) => Some o | _ => None end.
Definition boardAt (h : heap) (r : ref) : option (ref * ref * ref * ref) :=
  match h !! r with Some (HBoard rc rh rv ro) => Some (rc, rh, rv, ro) | _ => None end.

(** The placement behind an array slot that may be empty: [a[i]] when it is
    an object, [None] inside when it is [undefined]. *)
Definition slotAt (h : heap) (slot : option ref) : option (option ObjectPlacement) :=
  match slot with
  | Some r => Some <$> placementAt h r
  | None => Some None
  end.

(** [a.map((o) => ({ ...o }))]: a new placement object per entry, in order. *)
Fixpoint copyPlacements (h : heap) (a : array ref) : option (heap * array ref) :=
  match a with
  | [] => Some (h, [])
  | None :: rest =>
    '(h', rest') ← copyPlacements h rest; Some (h', None :: rest')
  | Some r :: rest =>
    o ← placementAt h r;
    let '(h1, r') := new h (HPlacement o) in
    '(h', rest') ← copyPlacements h1 rest; Some (h', Some r' :: rest')
  end.

(** The object literal that builds [next]. *)
Definition copyBoardH (h : heap) (prev : ref) : option (heap * ref) :=
  '(rc, rh, rv, ro) ← boardAt h prev;
  ac ← cellsAt h rc;
  ah ← edgesAt h rh;
  av ← edgesAt h rv;
  refs ← objectsAt h ro;
  let '(h, rc') := new h (HCells ac) in
  let '(h, rh') := new h (HEdges ah) in
  let '(h, rv') := new h (HEdges av) in
  '(h, refs') ← copyPlacements h refs;
  let '(h, ro') := new h (HObjects refs') in
  Some (new h (HBoard rc' rh' rv' ro')).

(** Which reference the updater returned. *)
Inductive Returned :=
  | RPrev
  | RNext (next : ref)
  | RThrew.

(** [next.objects[i] = o]: a new placement object, stored in the array. *)
Definition storePlacement (h : heap) (ro : ref) (refs : array ref) (i : nat)
    (o : ObjectPlacement) : heap :=
  let '(h, r) := new h (HPlacement o) in
  <[ro := HObjects (arr_set refs i r)]> h.

(** The function passed to [setBoard], on the store.  [None] only when the
    store does not hold a board at [prev]. *)
Definition boardUpdaterH (cfg : ToolConfig) (pick : Pick) (h : heap) (prev : ref)
  : option (heap * Returned) :=
  '(h, next) ← copyBoardH h prev;
  '(rc, rh, rv, ro) ← boardAt h next;
  match pick with
  | PickCell x y =>
    let i := idxCell x y in
    match mode cfg with
    | Cells =>
      ac ← cellsAt h rc;
      let h := <[rc := HCells (arr_set ac i (cellBrush cfg))]> h in
      refs ← objectsAt h ro;
      o ← slotAt h (arr_get refs i);
      if decide (cellBrush cfg = Floor /\ type <$> o = Some Bridge)
      then Some (storePlacement h ro refs i noObject, RNext next)
      else Some (h, RNext next)
    | Objects =>
      refs ← objectsAt h ro;
      if decide (objectBrush cfg = Light) then
        prevLight ← slotAt h (arr_get refs i);
        let placed := {| type := Light;
                         rotation := default 0%Z (rotation <$> prevLight);
                         light := Some (lightBrush cfg) |} in
        Some (storePlacement h ro refs i placed, RNext next)
      else
        ac ← cellsAt h rc;
        let base := arr_get ac i in
        if decide (objectBrush cfg = Bridge /\ base <> Some Water /\ base <> Some Pit) then
          Some (h, RPrev)
        else if decide (objectBrush cfg = NoObj) then
          Some (storePlacement h ro refs i noObject, RNext next)
        else
          match arr_get refs i with
          | None => Some (h, RThrew)
          | Some r =>
            o ← placementAt h r;
            if decide (type o = objectBrush cfg) then
              let o' := {| type := type o;
                           rotation := Z.rem (rotation o + 90) 360;
                           light := light o |} in
              Some (<[r := HPlacement o']> h, RNext next)
            else
              let o' := {| type := objectBrush cfg; rotation := 0; light := None |} in
              Some (<[r := HPlacement o']> h, RNext next)
          end
    | Edges => Some (h, RPrev)
    end
  | PickEdge dir x y =>
    if decide (mode cfg <> Edges) then Some (h, RPrev)
    else
      let brush := edge_of_brush (edgeBrush cfg) in
      match dir with
      | DirH =>
        let id := idxHEdge x y in
        a ← edgesAt h rh;
        let v := if decide (arr_get a id = Some brush) then NoEdge else brush in
        Some (<[rh := HEdges (arr_set a id v)]> h, RNext next)
      | DirV =>
        let id := idxVEdge x y in
        a ← edgesAt h rv;
        let v := if decide (arr_get a id = Some brush) then NoEdge else brush in
        Some (<[rv := HEdges (arr_set a id v)]> h, RNext next)
      end
  end.

(** The board a reference stands for. *)
Definition readPlacements (h : heap) (a : array ref) : option (array ObjectPlacement) :=
  mapM (slotAt h) a.

Definition readBoard (h : heap) (r : ref) : option BoardState :=
  '(rc, rh, rv, ro) ← boardAt h r;
  ac ← cellsAt h rc;
  ah ← edgesAt h rh;
  av ← edgesAt h rv;
  refs ← objectsAt h ro;
  os ← readPlacements h refs;
  Some {| cells := ac; hEdges := ah; vEdges := av; objects := os |}.

(** A store holding the empty board at reference 20. *)
Definition emptyStore : heap :=
  replicate 16 (HPlacement noObject)
  ++ [HCells (cells makeEmptyState); HEdges (hEdges makeEmptyState);
      HEdges (vEdges makeEmptyState); HObjects (Some <$> seq 0 16);
      HBoard 16 17 18 19].

(** *** Reading through a growing store *)

(** The references of an array lie in a range of the store. *)
Definition refs_within (lo hi : nat) (a : array ref) : Prop :=
  forall i r, a !! i = Some (Some r) -> (lo <= r < hi)%nat.

(** No two slots hold the same reference. *)
Definition refs_distinct (a : array ref) : Prop :=
  forall i j r, a !! i = Some (Some r) -> a !! j = Some (Some r) -> i = j.

(** The store [h] extends [h0] with a board at [next] that stands for [b] and
    whose five objects and placement objects are all new with respect to
    [h0], no two of them the same. *)
Record owns (h0 h : heap) (next : ref) (b : BoardState)
    (rc rh rv ro : ref) (refs : array ref) : Prop := {
  own_prefix : h0 `prefix_of` h;
  own_board : h !! next = Some (HBoard rc rh rv ro);
  own_cells : h !! rc = Some (HCells (cells b));
  own_hEdges : h !! rh = Some (HEdges (hEdges b));
  own_vEdges : h !! rv = Some (HEdges (vEdges b));
  own_objects : h !! ro = Some (HObjects refs);
  own_placements : Forall2 (fun slot o => slotAt h slot = Some o) refs (objects b);
  own_new : Forall (fun r => length h0 <= r)%nat [next; rc; rh; rv; ro];
  own_apart : NoDup [next; rc; rh; rv; ro];
  own_refs_new : forall i r, refs !! i = Some (Some r) ->
                             (length h0 <= r)%nat /\ r ∉ [next; rc; rh; rv; ro];
  own_refs_distinct : refs_distinct refs
}.

(** The store updater and the updater on values agree: the same kind of
    result, and the reference returned as [next] stands for the value
    returned as [next]. *)
Definition agrees (h' : heap) (lo : nat) (u : BoardUpdate) (ret : Returned) : Prop :=
  match u, ret with
  | ReturnedPrev, RPrev => True
  | ReturnedNext n, RNext r => readBoard h' r = Some n /\ (lo <= r)%nat
  | Threw, RThrew => True
  | _, _ => False
  end.

(** * Further parts of the component *)

(** ** Where the scene puts things

    The positions, on the ground plane, at which [sceneData] places the tile
    of a cell, the mesh of a horizontal edge and the mesh of a vertical edge. *)

Definition tilePosition (x y : nat) : Point :=
  {| px := num_of_nat x ⊗ cellSize ⊖ halfW ⊕ cellSize ⊘ num 2;
     pz := num_of_nat y ⊗ cellSize ⊖ halfH ⊕ cellSize ⊘ num 2 |}.

Definition hEdgePosition (x y : nat) : Point :=
  {| px := num_of_nat x ⊗ cellSize ⊖ halfW ⊕ cellSize ⊘ num 2;
     pz := num_of_nat y ⊗ cellSize ⊖ halfH |}.

Definition vEdgePosition (x y : nat) : Point :=
  {| px := num_of_nat x ⊗ cellSize ⊖ halfW;
     pz := num_of_nat y ⊗ cellSize ⊖ halfH ⊕ cellSize ⊘ num 2 |}.

(** ** Rotation *)


(** One more click of a matching brush: the placement turned by 90 degrees. *)
Definition turned (o : ObjectPlacement) : ObjectPlacement :=
  {| type := type o; rotation := Z.rem (rotation o + 90) 360; light := light o |}.

(** ** Imported assets *)

(** The tool panel with an imported template loaded and selected, which
    makes a cell pick in objects mode place or remove an asset. *)
Definition assetPath (cfg : ToolConfig) (brush : string) : Prop :=
  mode cfg = Objects /\ objectBrush cfg = NoObj /\
  customBrush cfg = Some brush /\ brush <> "" /\ brush ∈ customTemplates cfg.

Definition on_cell (x y : nat) (c : CustomPlacement) : Prop :=
  c_x c = num_of_nat x /\ c_y c = num_of_nat y.

(** The placement a pick creates. *)
Definition newPlacement (id : Z) (brush : string) (x y : nat) : CustomPlacement :=
  {| c_id := num id; c_name := brush; c_url := JStr brush;
     c_x := num_of_nat x; c_y := num_of_nat y;
     c_scale := num 1; c_yOffset := num 0; c_rotation := num 0 |}.

(** Ids are pairwise distinct and below the id counter. *)
Definition ids_fresh (s : Session) : Prop :=
  NoDup (c_id <$> customObjects s) /\
  Forall (fun c => c_id c < num (nextCustomId s)) (customObjects s).

Definition assetTool (name : string) : ToolConfig := {|
  mode := Objects; cellBrush := Floor; edgeBrush := BrushWall; objectBrush := NoObj;
  lightBrush := lightBrush initialConfig; customTemplates := {[ name ]};
  customBrush := Some name
|}.

(** A session with one asset ["crate"] on cell (2,1). *)
Definition crateSession : Session :=
  (applyPick (assetTool "crate") initialSession (PickCell 2 1)).2.

(** A second crate, on cell (0,3). *)
Definition twoCrates : Session :=
  (applyPick (assetTool "crate") crateSession (PickCell 0 3)).2.

(** ** Dragging an asset with the right button *)

(** What the handlers read of a mouse event on the viewport.  [hit] is the
    point where the ray through the pointer meets the pick plane; it is [None]
    when there is no such point or no renderer, the cases in which
    [getCellFromMouse] and [pickFromMouse] give up. *)
Record MouseEvent := {
  button : Z;
  altKey : bool;
  clientY : number;
  hit : option Point
}.

Inductive DragMode := MoveDrag | ScaleDrag.

(** [dragStateRef.current] *)
Record DragState := { d_id : option number; d_mode : DragMode; d_lastY : number }.

Definition noDrag : DragState := {| d_id := None; d_mode := MoveDrag; d_lastY := num 0 |}.

Definition startCustomDrag (ev : MouseEvent) (d : DragState) (s : Session)
  : DragState * Session :=
  if decide (button ev <> 2%Z) then (d, s)
  else
    match hit ev with
    | None => (d, s)
    | Some p =>
      let cell := getCellFromMouse p in
      match list_find (fun c => c_x c = cell.1 /\ c_y c = cell.2)
                      (reverse (customObjects s)) with
      | None => (d, s)
      | Some (_, target) =>
        ({| d_id := Some (c_id target);
            d_mode := if altKey ev then ScaleDrag else MoveDrag;
            d_lastY := clientY ev |},
         setSelectedCustomId (Some (c_id target)) s)
      end
    end.

Definition handleCustomDrag (ev : MouseEvent) (d : DragState) (s : Session)
  : DragState * Session :=
  match d_id d with
  | None => (d, s)
  | Some id =>
    match d_mode d with
    | MoveDrag =>
      match hit ev with
      | None => (d, s)
      | Some p => (d, dragMove id p s)
      end
    | ScaleDrag =>
      let dy := (d_lastY d ⊖ clientY ev) ⊗ frac 1 100 in
      ({| d_id := d_id d; d_mode := d_mode d; d_lastY := clientY ev |}, dragScale id dy s)
    end
  end.

Definition endCustomDrag (ev : MouseEvent) (d : DragState) : DragState :=
  if decide (button ev = 2%Z) then noDrag else d.

(** The [onMouseUp] handler of the viewport: [endCustomDrag], then the
    click-to-pick handler, which acts on the left button only. *)
Definition onMouseUp (cfg : ToolConfig) (ev : MouseEvent) (d : DragState) (s : Session)
  : DragState * Session :=
  let d' := endCustomDrag ev d in
  if decide (button ev <> 0%Z) then (d', s)
  else
    match hit ev with
    | None => (d', s)
    | Some p => (d', (applyPick cfg s (pickFromMouse (mode cfg) p)).2)
    end.

(** A run of [mousemove] events. *)
Definition mouseMoves (evs : list MouseEvent) (d : DragState) (s : Session)
  : DragState * Session :=
  foldl (fun st ev => handleCustomDrag ev st.1 st.2) (d, s) evs.

(** What a drag may change of a placement: its cell and its scale. *)
Definition dragged (c c' : CustomPlacement) : Prop :=
  c_id c' = c_id c /\ c_name c' = c_name c /\ c_url c' = c_url c /\
  c_yOffset c' = c_yOffset c /\ c_rotation c' = c_rotation c.

Definition rightPress (p : Point) (alt : bool) (y : number) : MouseEvent :=
  {| button := 2; altKey := alt; clientY := y; hit := Some p |}.

(** ** The light editor *)

(** An entry of the list [lights] the panel shows. *)
Record LightEntry := { e_idx : nat; e_light : LightProps; e_x : nat; e_y : nat }.

(** [lights]: the objects paired with their index, those that are lights
    with a payload, and the entry made of each.  [map] and [filter] pass over
    the holes of an array. *)
Definition lights (b : BoardState) : list LightEntry :=
  let indexed : list (ObjectPlacement * nat) :=
    omap id (imap (fun idx slot => (fun o => (o, idx)) <$> slot) (objects b)) in
  let kept := filter (fun e => type e.1 = Light /\ is_Some (light e.1)) indexed in
  omap (fun e => (fun l => {| e_idx := e.2; e_light := l;
                              e_x := e.2 mod GRID_W; e_y := e.2 / GRID_W |}) <$> light e.1)
       kept.

(** The button of a list entry. *)
Definition selectLight (l : LightEntry) (s : Session) : Session :=
  setEditingLight (Some (e_light l)) (setSelectedLightCell (Some (e_idx l)) s).

(** The effect that runs when the board or the selected cell has changed. *)
Definition syncLightSelection (s : Session) : Session :=
  match selectedLightCell s with
  | None => s
  | Some sel =>
    match arr_get (objects (board s)) sel with
    | Some {| type := Light; light := Some _ |} => s
    | _ => setEditingLight None (setSelectedLightCell None s)
    end
  end.

(** The light editor shows the light it edits: the selected cell holds a
    light, and the payload being edited is that light's. *)
Definition editor_ok (s : Session) : Prop :=
  forall i, selectedLightCell s = Some i ->
    exists o l, arr_get (objects (board s)) i = Some o /\ type o = Light /\
                light o = Some l /\ editingLight s = Some l.

Definition lightTool : ToolConfig := {|
  mode := Objects; cellBrush := Floor; edgeBrush := BrushWall; objectBrush := Light;
  lightBrush := lightBrush initialConfig; customTemplates := ∅; customBrush := None
|}.

(** A session with one light, on cell (1,2), selected in the editor. *)
Definition litSession : Session := (applyPick lightTool initialSession (PickCell 1 2)).2.

Definition dimmer : LightPartial :=
  {| p_color := None; p_intensity := Some (num 2); p_distance := None; p_decay := None |}.

(** [{ ...current.light, ...partial }] *)
Definition withPartial (cur : LightProps) (partial : LightPartial) : LightProps :=
  {| color := default (color cur) (p_color partial);
     intensity := default (intensity cur) (p_intensity partial);
     distance := default (distance cur) (p_distance partial);
     decay := default (decay cur) (p_decay partial) |}.

(** Two partial updates in a row, as one: the fields of the later one win. *)
Definition thenPartial (p1 p2 : LightPartial) : LightPartial :=
  {| p_color := match p_color p2 with Some v => Some v | None => p_color p1 end;
     p_intensity := match p_intensity p2 with Some v => Some v | None => p_intensity p1 end;
     p_distance := match p_distance p2 with Some v => Some v | None => p_distance p1 end;
     p_decay := match p_decay p2 with Some v => Some v | None => p_decay p1 end |}.

(** ** Loading assets *)

(** [typeof c.id === "number"] *)
Definition has_id (c : json) : bool := is_number (prop "id" c).

(** The entries of a list that come without a numeric id. *)
Definition idless (cs : list json) : list json := filter (fun c => has_id c = false) cs.

(** A document is a container when [typeof] says "object" and it is not
    [null]: an object or an array. *)
Definition container (data : json) : Prop :=
  match data with JArr _ | JObj _ => True | _ => False end.

Definition crateDoc : json := exportJson crateSession.

(** ** Pit regions of the scene

    [sceneData] merges the pit cells into regions by a breadth-first search
    and draws one box for each.  Coordinates are the integers the loops count
    with; a step to a neighbour may leave the grid, which is why they are
    signed. *)

Record Region := { minX : Z; maxX : Z; minY : Z; maxY : Z }.

Definition cellIndex (x y : Z) : nat := idxCell (Z.to_nat x) (Z.to_nat y).

Definition isPit (b : BoardState) (x y : Z) : bool :=
  bool_decide (arr_get (cells b) (cellIndex x y) = Some Pit).

Definition neighbors : list (Z * Z) := [(1, 0); (-1, 0); (0, 1); (0, -1)]%Z.

(** [visited[i]] used as a condition. *)
Definition marked (visited : list (option bool)) (i : nat) : bool :=
  bool_decide (arr_get visited i = Some true).

(** The variables of one search: the queue, the marks, and the bounds. *)
Record Flood := { queue : list (Z * Z); visited : list (option bool); box : Region }.

(** The body of the loop over [neighbors], for the cell [(cx, cy)] taken
    from the queue. *)
Definition visitNeighbor (b : BoardState) (cx cy : Z) (f : Flood) (d : Z * Z) : Flood :=
  let nx := (cx + d.1)%Z in
  let ny := (cy + d.2)%Z in
  if decide (nx < 0 \/ nx >= Z.of_nat GRID_W \/ ny < 0 \/ ny >= Z.of_nat GRID_H)%Z then f
  else
    let nIdx := cellIndex nx ny in
    if marked (visited f) nIdx || negb (isPit b nx ny) then f
    else
      {| queue := queue f ++ [(nx, ny)];
         visited := arr_set (visited f) nIdx true;
         box := {| minX := Z.min (minX (box f)) nx; maxX := Z.max (maxX (box f)) nx;
                   minY := Z.min (minY (box f)) ny; maxY := Z.max (maxY (box f)) ny |} |}.

(** [while (queue.length)], for at most [fuel] rounds. *)
Fixpoint flood (fuel : nat) (b : BoardState) (f : Flood) : option Flood :=
  match queue f with
  | [] => Some f
  | (cx, cy) :: rest =>
    match fuel with
    | O => None
    | S fuel' =>
      flood fuel' b
        (foldl (visitNeighbor b cx cy)
               {| queue := rest; visited := visited f; box := box f |} neighbors)
    end
  end.

(** The cells in the order of the two nested loops. *)
Definition gridCells : list (Z * Z) :=
  y ← seqZ 0 (Z.of_nat GRID_H); x ← seqZ 0 (Z.of_nat GRID_W); [(x, y)].

(** The body of the nested loops: the marks and the regions found so far. *)
Definition scanCell (fuel : nat) (b : BoardState)
    (st : list (option bool) * list Region) (c : Z * Z)
  : option (list (option bool) * list Region) :=
  let idx := cellIndex c.1 c.2 in
  if marked st.1 idx || negb (isPit b c.1 c.2) then Some st
  else
    f ← flood fuel b {| queue := [c]; visited := arr_set st.1 idx true;
                        box := {| minX := c.1; maxX := c.1; minY := c.2; maxY := c.2 |} |};
    Some (visited f, st.2 ++ [box f]).

Fixpoint scan (fuel : nat) (b : BoardState) (st : list (option bool) * list Region)
    (cs : list (Z * Z)) : option (list (option bool) * list Region) :=
  match cs with
  | [] => Some st
  | c :: cs' => st' ← scanCell fuel b st c; scan fuel b st' cs'
  end.

(** [pitRegions]; a search never needs more rounds than there are cells. *)
Definition pitRegions (b : BoardState) : option (list Region) :=
  snd <$> scan (GRID_W * GRID_H) b (arr_fill (GRID_W * GRID_H) false, []) gridCells.

(** Vocabulary. *)
Definition in_grid (x y : Z) : Prop :=
  (0 <= x < Z.of_nat GRID_W)%Z /\ (0 <= y < Z.of_nat GRID_H)%Z.

Definition in_box (r : Region) (x y : Z) : Prop :=
  (minX r <= x <= maxX r)%Z /\ (minY r <= y <= maxY r)%Z.

(** A box within the grid each of whose four sides holds a pit. *)
Definition tight (b : BoardState) (r : Region) : Prop :=
  (0 <= minX r)%Z /\ (maxX r < Z.of_nat GRID_W)%Z /\
  (0 <= minY r)%Z /\ (maxY r < Z.of_nat GRID_H)%Z /\
  (exists y, in_box r (minX r) y /\ isPit b (minX r) y = true) /\
  (exists y, in_box r (maxX r) y /\ isPit b (maxX r) y = true) /\
  (exists x, in_box r x (minY r) /\ isPit b x (minY r) = true) /\
  (exists x, in_box r x (maxY r) /\ isPit b x (maxY r) = true).

(** A board with pits on (1,1), (2,1) and (3,3). *)
Definition pitBoard : BoardState :=
  board (applyPick (cellTool Pit)
           (applyPick (cellTool Pit)
              (applyPick (cellTool Pit) initialSession (PickCell 1 1)).2 (PickCell 2 1)).2
           (PickCell 3 3)).2.

(** The cells of the grid not marked yet, by index. *)
Definition unseen (v : list (option bool)) : nat :=
  length (filter (fun i => marked v i = false) (seq 0 (GRID_W * GRID_H))).

(** What a search keeps true: a marked cell lies in the box under
    construction or in one of the regions found before, and the box is
    tight. *)
Definition flood_inv (b : BoardState) (rs : list Region) (f : Flood) : Prop :=
  (forall x y, in_grid x y -> marked (visited f) (cellIndex x y) = true ->
     in_box (box f) x y \/ exists r, r ∈ rs /\ in_box r x y) /\
  tight b (box f).

(** What the scan keeps true, with [seen] the cells it has passed. *)
Definition scan_inv (b : BoardState) (seen : list (Z * Z))
    (st : list (option bool) * list Region) : Prop :=
  (forall x y, in_grid x y -> marked st.1 (cellIndex x y) = true ->
     exists r, r ∈ st.2 /\ in_box r x y) /\
  (forall r, r ∈ st.2 -> tight b r) /\
  (forall c, c ∈ seen -> isPit b c.1 c.2 = true -> marked st.1 (cellIndex c.1 c.2) = true).

(** ** The orbit camera

    [orbitRef.current] and the four listeners that write it.  [iso] stands
    for the test [cameraMode === "iso"] the listeners start with. *)

Record Orbit := {
  isDown : bool;
  lastX : number;
  lastY : number;
  yaw : number;
  pitch : number;
  dist : number
}.

Definition onDown (iso : bool) (clientX clientY : number) (o : Orbit) : Orbit :=
  if negb iso then o
  else {| isDown := true; lastX := clientX; lastY := clientY;
          yaw := yaw o; pitch := pitch o; dist := dist o |}.

Definition onMove (iso : bool) (clientX clientY : number) (o : Orbit) : Orbit :=
  if negb iso then o
  else if negb (isDown o) then o
  else
    let dx := clientX ⊖ lastX o in
    let dy := clientY ⊖ lastY o in
    {| isDown := isDown o; lastX := clientX; lastY := clientY;
       yaw := yaw o ⊕ dx ⊗ frac 6 1000;
       pitch := clamp (pitch o ⊖ dy ⊗ frac 6 1000) (frac (-115) 100) (frac 115 100);
       dist := dist o |}.

Definition onUp (o : Orbit) : Orbit :=
  {| isDown := false; lastX := lastX o; lastY := lastY o;
     yaw := yaw o; pitch := pitch o; dist := dist o |}.

Definition onWheel (iso : bool) (deltaY : number) (o : Orbit) : Orbit :=
  if negb iso then o
  else {| isDown := isDown o; lastX := lastX o; lastY := lastY o;
          yaw := yaw o; pitch := pitch o;
          dist := clamp (dist o ⊕ deltaY ⊗ frac 1 100) (frac 45 10) (num 18) |}.

Inductive OrbitEvent :=
  | MouseDown (clientX clientY : number)
  | MouseMove (clientX clientY : number)
  | MouseUp
  | MouseWheel (deltaY : number).

Definition orbitStep (iso : bool) (o : Orbit) (ev : OrbitEvent) : Orbit :=
  match ev with
  | MouseDown x y => onDown iso x y o
  | MouseMove x y => onMove iso x y o
  | MouseUp => onUp o
  | MouseWheel d => onWheel iso d o
  end.

(** The pitch and the distance are within the limits of the listeners. *)
Definition orbit_ok (o : Orbit) : Prop :=
  (frac (-115) 100 <= pitch o /\ pitch o <= frac 115 100) /\
  (frac 45 10 <= dist o /\ dist o <= num 18).

Definition moveTo (o : Orbit) (p : number * number) : Orbit := onMove true p.1 p.2 o.

(** An orbit state with the camera level, at the distance the component
    starts with. *)
Definition levelOrbit : Orbit :=
  {| isDown := false; lastX := num 0; lastY := num 0;
     yaw := num 0; pitch := num 0; dist := num 9 |}.

(** ** The scene: assets and objects *)

(** Where [sceneData] puts the instance of a placement, on the ground
    plane. *)
Definition customPosition (c : CustomPlacement) : Point :=
  {| px := c_x c ⊗ cellSize ⊖ halfW ⊕ cellSize ⊘ num 2;
     pz := c_y c ⊗ cellSize ⊖ halfH ⊕ cellSize ⊘ num 2 |}.

(** A placement is drawn when a template of its name is loaded. *)
Definition drawn (cfg : ToolConfig) (c : CustomPlacement) : Prop :=
  c_name c ∈ customTemplates cfg.

(** What the loop over the objects adds to the scene: a mesh or group for a
    lever, trapdoor, bridge or torch, turned by its [rotation], or a point
    light. *)
Inductive ObjectItem :=
  | ObjectMesh (t : ObjType) (p : Point) (rotation : Z)
  | PointLight (p : Point) (l : LightProps).

Record ObjectScan := { hasTorch : bool; hasLight : bool; sceneItems : list ObjectItem }.

(** The body of the loop, for the cell [(x, y)]. *)
Definition objectStep (b : BoardState) (st : ObjectScan) (c : nat * nat) : ObjectScan :=
  match arr_get (objects b) (idxCell c.1 c.2) with
  | None => st
  | Some obj =>
    let p := tilePosition c.1 c.2 in
    match type obj with
    | NoObj => st
    | Lever | Trapdoor | Bridge =>
      {| hasTorch := hasTorch st; hasLight := hasLight st;
         sceneItems := sceneItems st ++ [ObjectMesh (type obj) p (rotation obj)] |}
    | Torch =>
      {| hasTorch := true; hasLight := hasLight st;
         sceneItems := sceneItems st ++ [ObjectMesh Torch p (rotation obj)] |}
    | Light =>
      match light obj with
      | Some l =>
        {| hasTorch := hasTorch st; hasLight := true;
           sceneItems := sceneItems st ++ [PointLight p l] |}
      | None => st
      end
    end
  end.

Definition cellsInOrder : list (nat * nat) :=
  y ← seq 0 GRID_H; x ← seq 0 GRID_W; [(x, y)].

Definition sceneObjects (b : BoardState) : ObjectScan :=
  foldl (objectStep b) {| hasTorch := false; hasLight := false; sceneItems := [] |} cellsInOrder.

(** The item of one cell, if it has one. *)
Definition itemAt (b : BoardState) (c : nat * nat) : option ObjectItem :=
  match arr_get (objects b) (idxCell c.1 c.2) with
  | Some {| type := Light; light := Some l |} => Some (PointLight (tilePosition c.1 c.2) l)
  | Some {| type := Light; light := None |} | Some {| type := NoObj |} | None => None
  | Some o => Some (ObjectMesh (type o) (tilePosition c.1 c.2) (rotation o))
  end.

Definition is_torch (it : ObjectItem) : bool :=
  match it with ObjectMesh Torch _ _ => true | _ => false end.

Definition is_pointLight (it : ObjectItem) : bool :=
  match it with PointLight _ _ => true | _ => false end.

(** * Properties *)

(** ** Arrays *)

Section arrays.
Context {A : Type}.
Implicit Types (a : array A) (i j : nat) (v : A).

Lemma arr_get_set_eq a i v : arr_get (arr_set a i v) i = Some v.
Proof.
  unfold arr_get, arr_set. case_decide.
  - by rewrite list_lookup_insert_eq.
  - rewrite lookup_app_r by lia. rewrite lookup_app_r; rewrite length_replicate; [|lia].
    by replace (i - length a - (i - length a))%nat with 0%nat by lia.
Qed.

Lemma arr_get_set_ne a i j v : i <> j -> arr_get (arr_set a i v) j = arr_get a j.
Proof.
  intros Hne. unfold arr_get, arr_set. case_decide.
  - by rewrite list_lookup_insert_ne.
  - destruct (decide (j < length a)%nat).
    + by rewrite lookup_app_l.
    + rewrite (lookup_ge_None_2 a j) by lia. rewrite lookup_app_r by lia.
      destruct (decide (j - length a < i - length a)%nat).
      * rewrite lookup_app_l by (rewrite length_replicate; lia).
        by rewrite lookup_replicate_2.
      * rewrite lookup_app_r by (rewrite length_replicate; lia).
        rewrite length_replicate. rewrite lookup_ge_None_2; [done|simpl; lia].
Qed.

Lemma arr_set_length_in a i v : (i < length a)%nat -> length (arr_set a i v) = length a.
Proof. intros. unfold arr_set. rewrite decide_True by done. apply length_insert. Qed.

Lemma arr_get_Some_lt a i v : arr_get a i = Some v -> (i < length a)%nat.
Proof.
  unfold arr_get. destruct (a !! i) eqn:E; [|done]. intros _. by eapply lookup_lt_Some.
Qed.

Lemma arr_get_fill n i v : (i < n)%nat -> arr_get (arr_fill n v) i = Some v.
Proof. intros. unfold arr_get, arr_fill. by rewrite lookup_replicate_2. Qed.

Lemma arr_get_fill_inv n i v w : arr_get (arr_fill n v) i = Some w -> w = v /\ (i < n)%nat.
Proof.
  unfold arr_get, arr_fill. destruct (replicate n (Some v) !! i) as [o|] eqn:E; [|done].
  apply lookup_replicate in E as [-> ?]. simpl. by intros [= <-].
Qed.
End arrays.

Lemma arr_map_copy (a : array ObjectPlacement) :
  arr_map (fun o => {| type := type o; rotation := rotation o; light := light o |}) a = a.
Proof.
  unfold arr_map. induction a as [|[[]|] a IH]; [done|..]; rewrite fmap_cons, IH; done.
Qed.

(** The copy made at the start of the updater equals the state it copies. *)
Lemma copyBoard_eq prev : copyBoard prev = prev.
Proof. destruct prev. unfold copyBoard. simpl. by rewrite arr_map_copy. Qed.

(** ** Edit engine: rejected edits *)

(** When the asset path is not taken, [applyPick] is the board updater run on
    the current board. *)
Lemma applyPick_updater cfg s pick :
  mode cfg <> Objects \/ is_cell pick = false \/ objectBrush cfg <> NoObj ->
  applyPick cfg s pick =
    match boardUpdater cfg s pick (board s) with
    | (ReturnedNext next, s') => (ReturnedNext next, setBoard next s')
    | (u, s') => (u, s')
    end.
Proof.
  intros H. unfold applyPick.
  destruct (bool_decide (mode cfg = Objects)) eqn:E1; [|done].
  destruct (is_cell pick) eqn:E2; [|done].
  destruct (bool_decide (objectBrush cfg = NoObj)) eqn:E3.
  - apply bool_decide_eq_true_1 in E1. apply bool_decide_eq_true_1 in E3.
    destruct H as [?|[?|?]]; congruence.
  - by rewrite andb_false_r.
Qed.

(** The setters run inside the updater leave the board alone. *)
Lemma boardUpdater_session_board cfg s pick prev :
  board (boardUpdater cfg s pick prev).2 = board s.
Proof. unfold boardUpdater. repeat case_match; done. Qed.

(** The board of the session after [applyPick] is the one the updater
    returned, or the previous one. *)
Lemma applyPick_board cfg s pick :
  board (applyPick cfg s pick).2 = board_after (board s) (applyPick cfg s pick).1.
Proof.
  unfold applyPick.
  destruct (_ && _ && _ && _).
  { case_decide; simpl; [|done]. unfold customUpdater.
    destruct (list_find _ _) as [[? ?]|]; [|done]. by case_decide. }
  pose proof (boardUpdater_session_board cfg s pick (board s)) as Hb.
  destruct (boardUpdater cfg s pick (board s)) as [[] s']; done.
Qed.

(** ** Edit engine: the bridge brush *)

(** C3. In objects mode with the bridge brush, a cell pick on terrain that is
    neither water nor pit is rejected: the updater returns the previous state,
    the board is unchanged and the status line carries the bridge message.  On
    water or pit, when the cell holds an object that is not a bridge, the
    updater returns a new state whose object at that cell is bridge with
    rotation 0.  On the empty board the bridge at (1,1) is rejected and the
    object there stays none with rotation 0; after painting (1,1) with water
    the same edit places the bridge. *)
Theorem bridge_brush_needs_water_or_pit cfg s x y :
  (mode cfg = Objects -> objectBrush cfg = Bridge ->
   let i := idxCell x y in
   let r := applyPick cfg s (PickCell x y) in
   (arr_get (cells (board s)) i <> Some Water ->
    arr_get (cells (board s)) i <> Some Pit ->
    r.1 = ReturnedPrev /\ board r.2 = board s /\ status r.2 = bridgeRejected) /\
   (forall o,
      arr_get (cells (board s)) i = Some Water \/ arr_get (cells (board s)) i = Some Pit ->
      arr_get (objects (board s)) i = Some o -> type o <> Bridge ->
      exists next, r.1 = ReturnedNext next /\ board r.2 = next /\
                   arr_get (objects next) i = Some placedBridge)) /\
  (let i := idxCell 1 1 in
   let r0 := applyPick bridgeTool initialSession (PickCell 1 1) in
   let s1 := (applyPick (cellTool Water) r0.2 (PickCell 1 1)).2 in
   let r2 := applyPick bridgeTool s1 (PickCell 1 1) in
   arr_get (cells (board initialSession)) i = Some Floor /\
   r0.1 = ReturnedPrev /\ status r0.2 = bridgeRejected /\
   arr_get (objects (board r0.2)) i = Some noObject /\
   arr_get (cells (board s1)) i = Some Water /\
   arr_get (objects (board r2.2)) i = Some placedBridge).
Proof.
  split; [|by vm_compute].
  intros Hm Hb i r. subst r.
  rewrite applyPick_updater by (right; right; congruence).
  unfold boardUpdater. rewrite copyBoard_eq, Hm, Hb. fold i.
  rewrite (decide_False (P := Bridge = Light)) by done.
  split.
  - intros Hw Hp. by rewrite decide_True.
  - intros o Hc Ho Ht.
    rewrite decide_False by (intros (_ & ? & ?); destruct Hc; congruence).
    rewrite (decide_False (P := Bridge = NoObj)) by done.
    rewrite Ho. rewrite decide_False by done. simpl.
    eexists; repeat split. apply arr_get_set_eq.
Qed.

Lemma bridge_brush_needs_water_or_pit_witness :
  (let r := applyPick bridgeTool initialSession (PickCell 1 1) in
   r.1 = ReturnedPrev /\ board r.2 = board initialSession /\ status r.2 = bridgeRejected) /\
  (let r := applyPick bridgeTool wateredSession (PickCell 1 1) in
   exists next, r.1 = ReturnedNext next /\ board r.2 = next /\
                arr_get (objects next) (idxCell 1 1) = Some placedBridge).
Proof.
  split.
  - refine (proj1 (proj1 (bridge_brush_needs_water_or_pit bridgeTool initialSession 1 1)
                     eq_refl eq_refl) _ _); vm_compute; congruence.
  - refine (proj2 (proj1 (bridge_brush_needs_water_or_pit bridgeTool wateredSession 1 1)
                     eq_refl eq_refl) noObject _ _ _).
    + left. by vm_compute.
    + by vm_compute.
    + by vm_compute.
Defined.

(** ** Edit engine: painting terrain *)

(** C4. A cell pick in cells mode returns a new state in which the picked
    cell has the brush terrain.  Painting floor onto a cell whose object is a
    bridge sets that cell's object to none with rotation 0; in every other case
    (another brush, or an object that is not a bridge, or no object) the
    object of the picked cell is what it was.  No other cell changes its
    terrain or its object, and both edge arrays are unchanged. *)
Theorem cells_mode_paint cfg s x y :
  mode cfg = Cells ->
  let i := idxCell x y in
  let b := board s in
  exists next,
    (applyPick cfg s (PickCell x y)).1 = ReturnedNext next /\
    board (applyPick cfg s (PickCell x y)).2 = next /\
    arr_get (cells next) i = Some (cellBrush cfg) /\
    (cellBrush cfg = Floor -> type <$> arr_get (objects b) i = Some Bridge ->
     arr_get (objects next) i = Some noObject) /\
    (cellBrush cfg <> Floor \/ type <$> arr_get (objects b) i <> Some Bridge ->
     arr_get (objects next) i = arr_get (objects b) i) /\
    (forall j, j <> i ->
       arr_get (cells next) j = arr_get (cells b) j /\
       arr_get (objects next) j = arr_get (objects b) j) /\
    hEdges next = hEdges b /\ vEdges next = vEdges b.
Proof.
  intros Hm i b.
  rewrite applyPick_updater by (left; congruence).
  unfold boardUpdater. rewrite copyBoard_eq, Hm. fold i b. simpl.
  case_decide as Hc; simpl.
  - eexists; split; [done|]. split; [done|]. simpl.
    repeat split; try done.
    + apply arr_get_set_eq.
    + intros; apply arr_get_set_eq.
    + intros [?|?]; tauto.
    + by apply arr_get_set_ne.
    + by apply arr_get_set_ne.
  - eexists; split; [done|]. split; [done|]. simpl.
    repeat split; try done.
    + apply arr_get_set_eq.
    + intros; tauto.
    + by apply arr_get_set_ne.
Qed.

Lemma cells_mode_paint_witness :
  exists next,
    (applyPick (cellTool Floor) initialSession (PickCell 2 3)).1 = ReturnedNext next /\
    arr_get (cells next) (idxCell 2 3) = Some Floor /\
    hEdges next = hEdges (board initialSession).
Proof.
  destruct (cells_mode_paint (cellTool Floor) initialSession 2 3 eq_refl)
    as (next & H1 & _ & H3 & _ & _ & _ & H7 & _).
  exists next. exact (conj H1 (conj H3 H7)).
Defined.

(** ** Edit engine: toggling edges *)

(** One edge pick in edges mode: the edge becomes none if it equals the brush
    and the brush otherwise. *)
Lemma edge_toggle_once cfg s dir x y :
  mode cfg = Edges ->
  edge_at (board (applyPick cfg s (PickEdge dir x y)).2) dir x y =
    Some (if decide (edge_at (board s) dir x y = Some (edge_of_brush (edgeBrush cfg)))
          then NoEdge else edge_of_brush (edgeBrush cfg)).
Proof.
  intros Hm. rewrite applyPick_updater by (right; by left).
  unfold boardUpdater. rewrite copyBoard_eq.
  rewrite decide_False by (intros H; by apply H).
  destruct dir; simpl; apply arr_get_set_eq.
Qed.

(** C7, as stated, fails: on a board whose edge already equals the brush, two
    applications of the brush leave the edge at the brush, not at none. *)
Lemma toggle_twice_from_brush_counterexample :
  let s1 := (applyPick (edgeTool BrushWall) walledSession (PickEdge DirV 2 1)).2 in
  let s2 := (applyPick (edgeTool BrushWall) s1 (PickEdge DirV 2 1)).2 in
  edge_at (board walledSession) DirV 2 1 = Some Wall /\
  edge_at (board s1) DirV 2 1 = Some NoEdge /\
  edge_at (board s2) DirV 2 1 = Some Wall /\
  edge_at (board s2) DirV 2 1 <> Some NoEdge.
Proof. by vm_compute. Qed.

(** C7, amended. In edges mode one application of the edge brush sets the
    picked edge to the brush if it currently differs and to none if it
    currently equals the brush.  Two applications in succession leave an edge
    that did not equal the brush at none, and an edge that equalled the brush
    at the brush again. *)
Theorem edge_toggle_law cfg s dir x y :
  mode cfg = Edges ->
  let brush := edge_of_brush (edgeBrush cfg) in
  let s1 := (applyPick cfg s (PickEdge dir x y)).2 in
  let s2 := (applyPick cfg s1 (PickEdge dir x y)).2 in
  (edge_at (board s) dir x y = Some brush -> edge_at (board s1) dir x y = Some NoEdge) /\
  (edge_at (board s) dir x y <> Some brush -> edge_at (board s1) dir x y = Some brush) /\
  (edge_at (board s) dir x y <> Some brush -> edge_at (board s2) dir x y = Some NoEdge) /\
  (edge_at (board s) dir x y = Some brush -> edge_at (board s2) dir x y = Some brush).
Proof.
  intros Hm brush s1 s2.
  assert (edge_at (board s1) dir x y =
          Some (if decide (edge_at (board s) dir x y = Some brush) then NoEdge else brush)) as H1
    by (by apply edge_toggle_once).
  assert (edge_at (board s2) dir x y =
          Some (if decide (edge_at (board s1) dir x y = Some brush) then NoEdge else brush)) as H2
    by (by apply edge_toggle_once).
  assert (brush <> NoEdge) as Hb by (subst brush; by destruct (edgeBrush cfg)).
  repeat split; intros Hc.
  - by rewrite H1, decide_True.
  - by rewrite H1, decide_False.
  - rewrite H2, H1, (decide_False (P := edge_at (board s) dir x y = Some brush)) by done.
    by rewrite decide_True.
  - rewrite H2, H1, (decide_True (P := edge_at (board s) dir x y = Some brush)) by done.
    rewrite decide_False; [done|congruence].
Qed.

Lemma edge_toggle_law_witness :
  let s1 := (applyPick (edgeTool BrushWall) initialSession (PickEdge DirV 2 1)).2 in
  let s2 := (applyPick (edgeTool BrushWall) s1 (PickEdge DirV 2 1)).2 in
  edge_at (board s1) DirV 2 1 = Some Wall /\ edge_at (board s2) DirV 2 1 = Some NoEdge.
Proof.
  pose proof (edge_toggle_law (edgeTool BrushWall) initialSession DirV 2 1 eq_refl)
    as (_ & H2 & H3 & _).
  split; [apply H2 | apply H3]; vm_compute; congruence.
Defined.

(** ** Edit engine: the light payload invariant *)

Lemma board_light_ok_set b i o :
  board_light_ok b -> light_ok o ->
  board_light_ok (set_objects b (arr_set (objects b) i o)).
Proof.
  intros Hb Ho j o'. simpl. destruct (decide (i = j)) as [->|Hne].
  - rewrite arr_get_set_eq. by intros [= <-].
  - rewrite arr_get_set_ne by done. apply Hb.
Qed.

Lemma light_ok_cleared t : t <> Light -> light_ok {| type := t; rotation := 0; light := None |}.
Proof. intros Ht. split; simpl; [by intros [? ?]|done]. Qed.

Lemma boardUpdater_light_ok cfg s pick prev next :
  (boardUpdater cfg s pick prev).1 = ReturnedNext next ->
  board_light_ok prev -> board_light_ok next.
Proof.
  unfold boardUpdater. rewrite copyBoard_eq. intros Hret Hok.
  destruct pick as [x y|d x y].
  - destruct (mode cfg); [| done |].
    + simpl in Hret. case_decide; injection Hret as <-.
      * apply (board_light_ok_set (set_cells prev _)); [done|]. by apply light_ok_cleared.
      * done.
    + case_decide as HL.
      { injection Hret as <-. apply board_light_ok_set; [done|].
        split; simpl; [done|by eexists]. }
      case_decide; [done|].
      case_decide as HN.
      { injection Hret as <-. apply board_light_ok_set; [done|]. by apply light_ok_cleared. }
      destruct (arr_get (objects prev) (idxCell x y)) as [o|] eqn:Ho; [|done].
      case_decide as Ht; injection Hret as <-; (apply board_light_ok_set; [done|]).
      * specialize (Hok _ _ Ho). unfold light_ok in *. simpl. done.
      * by apply light_ok_cleared.
  - case_decide; [done|]. destruct d; by injection Hret as <-.
Qed.

(** C9. The light payload invariant holds of [makeEmptyState()] and every
    [applyPick], for any pick, brush and mode, carries it from the board before
    to the board after.  In objects mode the object written at the picked cell
    is: with the light brush, a light carrying the brush payload; otherwise
    either an object of the brush type without payload (replace, erase), or
    the previous object of the brush type, which is not light, turned by 90
    degrees with its payload field untouched. *)
Theorem light_payload_invariant :
  board_light_ok makeEmptyState /\
  (forall cfg s pick,
     board_light_ok (board s) -> board_light_ok (board (applyPick cfg s pick).2)) /\
  (forall cfg s x y next o',
     mode cfg = Objects ->
     (applyPick cfg s (PickCell x y)).1 = ReturnedNext next ->
     arr_get (objects next) (idxCell x y) = Some o' ->
     (objectBrush cfg = Light /\ type o' = Light /\ light o' = Some (lightBrush cfg)) \/
     (objectBrush cfg <> Light /\ type o' = objectBrush cfg /\ light o' = None) \/
     (objectBrush cfg <> Light /\ type o' = objectBrush cfg /\
      exists o, arr_get (objects (board s)) (idxCell x y) = Some o /\
                type o = objectBrush cfg /\ light o' = light o /\
                rotation o' = Z.rem (rotation o + 90) 360)).
Proof.
  split; [|split].
  - intros i o.
    change (objects makeEmptyState) with (arr_fill (GRID_W * GRID_H) noObject).
    intros [-> _]%arr_get_fill_inv. by apply light_ok_cleared.
  - intros cfg s pick Hok. rewrite applyPick_board.
    destruct ((applyPick cfg s pick).1) as [| |next|] eqn:Hret; simpl; try done.
    unfold applyPick in Hret. destruct (_ && _ && _ && _); [by case_decide|].
    pose proof (boardUpdater_light_ok cfg s pick (board s)) as Hup.
    destruct (boardUpdater cfg s pick (board s)) as [[] s']; simplify_eq/=. by apply Hup.
  - intros cfg s x y next o' Hm Hret.
    unfold applyPick in Hret. destruct (_ && _ && _ && _) eqn:Hpath.
    { by case_decide. }
    assert ((boardUpdater cfg s (PickCell x y) (board s)).1 = ReturnedNext next) as Hup.
    { destruct (boardUpdater cfg s (PickCell x y) (board s)) as [[] s']; simplify_eq/=; done. }
    clear Hret. unfold boardUpdater in Hup. rewrite copyBoard_eq, Hm in Hup.
    case_decide as HL.
    { injection Hup as <-. simpl. rewrite arr_get_set_eq. intros [= <-]. by left. }
    case_decide; [done|].
    case_decide as HN.
    { injection Hup as <-. simpl. rewrite arr_get_set_eq. intros [= <-]. right; left. by rewrite HN. }
    destruct (arr_get (objects (board s)) (idxCell x y)) as [o|] eqn:Ho; [|done].
    case_decide as Ht; injection Hup as <-; simpl; rewrite arr_get_set_eq; intros [= <-].
    + right; right. repeat split; [done..|]. by exists o.
    + right; left. done.
Qed.

Lemma light_payload_invariant_witness :
  board_light_ok (board (applyPick bridgeTool wateredSession (PickCell 1 1)).2) /\
  ((objectBrush bridgeTool = Light /\ type placedBridge = Light /\
    light placedBridge = Some (lightBrush bridgeTool)) \/
   (objectBrush bridgeTool <> Light /\ type placedBridge = objectBrush bridgeTool /\
    light placedBridge = None) \/
   (objectBrush bridgeTool <> Light /\ type placedBridge = objectBrush bridgeTool /\
    exists o, arr_get (objects (board wateredSession)) (idxCell 1 1) = Some o /\
              type o = objectBrush bridgeTool /\ light placedBridge = light o /\
              rotation placedBridge = Z.rem (rotation o + 90) 360)).
Proof.
  split.
  - apply (proj1 (proj2 light_payload_invariant)).
    apply (proj1 (proj2 light_payload_invariant)).
    exact (proj1 light_payload_invariant).
  - exact (proj2 (proj2 light_payload_invariant) bridgeTool wateredSession 1%nat 1%nat
             (board (applyPick bridgeTool wateredSession (PickCell 1 1)).2) placedBridge
             eq_refl eq_refl eq_refl).
Defined.

(** ** Numbers: integers among the rationals *)

Lemma num_lt (a b : Z) : num a < num b <-> (a < b)%Z.
Proof. unfold num, Qclt. simpl. by rewrite Zlt_Qlt. Qed.

Lemma num_le (a b : Z) : num a <= num b <-> (a <= b)%Z.
Proof. unfold num, Qcle. simpl. by rewrite Zle_Qle. Qed.

Lemma num_add (a b : Z) : num a + num b = num (a + b).
Proof. apply Qc_is_canon. unfold num. simpl. rewrite Qred_correct. by rewrite inject_Z_plus. Qed.

Lemma num_sub (a b : Z) : num a - num b = num (a - b).
Proof.
  apply Qc_is_canon. unfold num, Qcminus, Qcopp. simpl.
  rewrite !Qred_correct. rewrite <- inject_Z_opp, <- inject_Z_plus. reflexivity.
Qed.

Lemma to_nat_num (z : Z) : to_nat (num z) = Z.to_nat z.
Proof. unfold to_nat, num, Qc_of_Z. simpl. by rewrite Z.div_1_r. Qed.

Lemma to_nat_num_of_nat (n : nat) : to_nat (num_of_nat n) = n.
Proof. unfold num_of_nat. rewrite to_nat_num. apply Nat2Z.id. Qed.

Lemma Math_max_num (a b : Z) : Math_max (num a) (num b) = num (Z.max a b).
Proof.
  unfold Math_max. case_decide as H; rewrite num_lt in H; f_equal; lia.
Qed.

Lemma Math_min_num (a b : Z) : Math_min (num a) (num b) = num (Z.min a b).
Proof.
  unfold Math_min. case_decide as H; rewrite num_lt in H; f_equal; lia.
Qed.

Lemma clamp_num (z a b : Z) : clamp (num z) (num a) (num b) = num (Z.max a (Z.min b z)).
Proof. unfold clamp. by rewrite Math_min_num, Math_max_num. Qed.

(** [clamp] returns its argument when the argument lies within the bounds. *)
Lemma clamp_id (n a b : number) : a <= n -> n <= b -> clamp n a b = n.
Proof.
  intros Ha Hb. unfold clamp, Math_max, Math_min.
  repeat case_decide; try done; apply Qcle_antisym;
    eauto using Qcnot_lt_le, Qcle_trans.
Qed.

Lemma clamp_bounds (n a b : number) : a <= b -> a <= clamp n a b /\ clamp n a b <= b.
Proof.
  intros Hab. unfold clamp, Math_max, Math_min.
  repeat case_decide; repeat split;
    auto using Qcle_refl, Qclt_le_weak, Qcnot_lt_le.
Qed.

Lemma Math_floor_between (z : Z) (q : number) :
  num z <= q -> q < num (z + 1) -> Math_floor q = num z.
Proof.
  unfold Math_floor, num, Qcle, Qclt. simpl. intros Hlo Hhi. f_equal.
  pose proof (Qfloor_le q) as H1. pose proof (Qlt_floor q) as H2.
  assert (z < Qfloor q + 1)%Z by (rewrite Zlt_Qlt; lra).
  assert (Qfloor q < z + 1)%Z by (rewrite Zlt_Qlt; lra).
  lia.
Qed.

(** The rounding at values whose doubles are known: 0.1 is
    [3602879701896397 / 2 ^ 55]; [0.1 + 0.2] is [0.30000000000000004], above
    0.3; [1 / 3] is [6004799503160661 / 2 ^ 54]; [2 ^ 53 + 1] and [2 ^ 53 + 3],
    halfway between two doubles, go to the even ones; half the least positive
    double goes to 0 and three halves of it to twice it. *)
Lemma round64_doubles :
  this (frac 1 10) = (3602879701896397 # 36028797018963968)%Q /\
  this (frac 1 10 ⊕ frac 2 10) = (1351079888211149 # 4503599627370496)%Q /\
  frac 3 10 < frac 1 10 ⊕ frac 2 10 /\
  this (num 1 ⊘ num 3) = (6004799503160661 # 18014398509481984)%Q /\
  this (round64 (num (2 ^ 53 + 1))) = inject_Z (2 ^ 53) /\
  this (round64 (num (2 ^ 53 + 3))) = inject_Z (2 ^ 53 + 4) /\
  this (round64 (Q2Qc (1 # 2 ^ 1075))) = 0%Q /\
  this (round64 (Q2Qc (3 # 2 ^ 1075))) = (1 # 2 ^ 1073)%Q.
Proof. by vm_compute. Qed.

Lemma cellSize_one : cellSize = 1.
Proof. apply Z2Qc_inj_1. Qed.

Lemma halfW_eq : halfW = num_of_nat GRID_W ⊘ num 2.
Proof. apply Qc_is_canon. by vm_compute. Qed.

Lemma halfH_eq : halfH = num_of_nat GRID_H ⊘ num 2.
Proof. apply Qc_is_canon. by vm_compute. Qed.

(** The clamped cell coordinate is one of the grid columns (rows). *)
Lemma clamp_floor_coord (q : number) (n : nat) :
  exists x : nat, clamp (Math_floor q) (num 0) (num_of_nat (S n) - num 1) = num_of_nat x /\ (x < S n)%nat.
Proof.
  unfold Math_floor, num_of_nat. rewrite num_sub, clamp_num.
  exists (Z.to_nat (Z.max 0 (Z.min (Z.of_nat (S n) - 1) (Qfloor q)))).
  split; [f_equal|]; lia.
Qed.

Lemma halfW_num : halfW = num 2.
Proof. apply Qc_is_canon. by vm_compute. Qed.

Lemma halfH_num : halfH = num 2.
Proof. apply Qc_is_canon. by vm_compute. Qed.

(** [GRID_W - 1] and [GRID_H - 1]. *)
Lemma last_column : num_of_nat GRID_W ⊖ num 1 = num 3.
Proof. apply Qc_is_canon. by vm_compute. Qed.

Lemma last_row : num_of_nat GRID_H ⊖ num 1 = num 3.
Proof. apply Qc_is_canon. by vm_compute. Qed.

Lemma clamp_floor_cell (q : number) :
  exists x : nat, clamp (Math_floor q) (num 0) (num 3) = num_of_nat x /\ (x < 4)%nat.
Proof.
  destruct (clamp_floor_coord q 3) as (x & Hx & ?). exists x. split; [|done].
  rewrite <- Hx. f_equal. apply Qc_is_canon. by vm_compute.
Qed.

(** The cell coordinates computed from a point whose column and row, as
    computed, lie in cell [(x, y)]. *)
Lemma cell_of_point (x y : nat) (p : Point) :
  (x < GRID_W)%nat -> (y < GRID_H)%nat ->
  num_of_nat x <= (px p ⊕ halfW) ⊘ cellSize -> (px p ⊕ halfW) ⊘ cellSize < num_of_nat x + num 1 ->
  num_of_nat y <= (pz p ⊕ halfH) ⊘ cellSize -> (pz p ⊕ halfH) ⊘ cellSize < num_of_nat y + num 1 ->
  getCellFromMouse p = (num_of_nat x, num_of_nat y).
Proof.
  intros Hx Hy Hx1 Hx2 Hy1 Hy2. unfold getCellFromMouse. cbv zeta.
  assert (forall n : nat, num_of_nat n + num 1 = num (Z.of_nat n + 1)) as Hs
    by (intros; unfold num_of_nat; apply num_add).
  rewrite Hs in Hx2, Hy2.
  rewrite (Math_floor_between _ _ Hx1 Hx2), (Math_floor_between _ _ Hy1 Hy2).
  rewrite last_column, last_row. unfold num_of_nat. rewrite !clamp_num.
  unfold GRID_W, GRID_H in *. do 2 f_equal; f_equal; lia.
Qed.

(** ** Picking *)

(** [pickFromMouse] starts from the cell [getCellFromMouse] computes. *)
Lemma pickFromMouse_not_edges mode p :
  mode <> Edges ->
  pickFromMouse mode p = PickCell (to_nat (getCellFromMouse p).1) (to_nat (getCellFromMouse p).2).
Proof.
  intros Hm. unfold pickFromMouse, getCellFromMouse. cbv zeta. cbn [fst snd].
  rewrite decide_True by done. reflexivity.
Qed.

(** C6. Outside edge-editing mode the pick is always the cell [(cx, cy)] with
    [cx = clamp(floor((p.x + W/2) / cellSize), 0, W - 1)] and
    [cy = clamp(floor((p.z + H/2) / cellSize), 0, H - 1)], sums and quotients
    being those of doubles, whatever the distance of the point to a border.
    The point at local (0.5, 0.5) of cell (1,2) yields the cell (1,2), and so
    does every point whose column [(p.x + W/2) / cellSize], as computed, lies
    in [[1, 2)] and whose row lies in [[2, 3)]. *)
Theorem pick_outside_edges_mode mode p :
  mode <> Edges ->
  let cx := clamp (Math_floor ((px p ⊕ num_of_nat GRID_W ⊘ num 2) ⊘ cellSize))
              (num 0) (num_of_nat GRID_W ⊖ num 1) in
  let cy := clamp (Math_floor ((pz p ⊕ num_of_nat GRID_H ⊘ num 2) ⊘ cellSize))
              (num 0) (num_of_nat GRID_H ⊖ num 1) in
  (exists x y : nat,
     pickFromMouse mode p = PickCell x y /\
     num_of_nat x = cx /\ num_of_nat y = cy /\ (x < GRID_W)%nat /\ (y < GRID_H)%nat) /\
  pickFromMouse mode {| px := num 1 ⊗ cellSize ⊕ frac 5 10 ⊖ halfW;
                        pz := num 2 ⊗ cellSize ⊕ frac 5 10 ⊖ halfH |} = PickCell 1 2 /\
  (forall q : Point,
     num 1 <= (px q ⊕ halfW) ⊘ cellSize -> (px q ⊕ halfW) ⊘ cellSize < num 2 ->
     num 2 <= (pz q ⊕ halfH) ⊘ cellSize -> (pz q ⊕ halfH) ⊘ cellSize < num 3 ->
     pickFromMouse mode q = PickCell 1 2).
Proof.
  intros Hm cx cy. split; [|split].
  - rewrite pickFromMouse_not_edges by done. unfold getCellFromMouse. simpl.
    rewrite halfW_eq, halfH_eq. fold cx cy.
    assert (exists x : nat, cx = num_of_nat x /\ (x < GRID_W)%nat) as (x & Hx & ?)
      by (subst cx; rewrite last_column; apply clamp_floor_cell).
    assert (exists y : nat, cy = num_of_nat y /\ (y < GRID_H)%nat) as (y & Hy & ?)
      by (subst cy; rewrite last_row; apply clamp_floor_cell).
    exists x, y. rewrite Hx, Hy, !to_nat_num_of_nat. done.
  - destruct mode; [by vm_compute|done|by vm_compute].
  - clear cx cy. intros q Hx1 Hx2 Hy1 Hy2. rewrite pickFromMouse_not_edges by done.
    rewrite (cell_of_point 1 2 q);
      [cbn [fst snd]; by rewrite !to_nat_num_of_nat
      |unfold GRID_W; lia|unfold GRID_H; lia
      |exact Hx1|exact Hx2|exact Hy1|exact Hy2].
Qed.

Lemma pick_outside_edges_mode_witness :
  pickFromMouse Objects {| px := frac (-4) 10; pz := frac 9 10 |} = PickCell 1 2.
Proof.
  apply (proj2 (proj2 (pick_outside_edges_mode Objects {| px := num 0; pz := num 0 |}
                         ltac:(discriminate)))); by vm_compute.
Defined.

(** Rounding decides at the borders.  At [p.x = -1e-17] the sum [p.x + 2] is
    the double 2, so the point, though left of the border between columns 1
    and 2, is picked in column 2; and at [(0.18, -1.5)] the offset
    [(0.18 + 2) - 2] is a double above 0.18, so in edges mode the point is
    picked as a cell, not as the edge 0.18 away. *)
Lemma pickFromMouse_rounds :
  pickFromMouse Cells {| px := frac (-1) 100000000000000000; pz := num 0 |} = PickCell 2 2 /\
  pickFromMouse Edges {| px := frac 18 100; pz := frac (-15) 10 |} = PickCell 2 0 /\
  frac 18 100 < frac 18 100 ⊕ num 2 ⊖ num 2.
Proof. by vm_compute. Qed.

Lemma Math_min_le_l (a b : number) : Math_min a b <= a.
Proof. unfold Math_min. case_decide; [by apply Qclt_le_weak|apply Qcle_refl]. Qed.

Lemma Math_min_le_r (a b : number) : Math_min a b <= b.
Proof. unfold Math_min. case_decide; [apply Qcle_refl|by apply Qcnot_lt_le]. Qed.

Lemma Math_min_cases (a b : number) : Math_min a b = a \/ Math_min a b = b.
Proof. unfold Math_min. case_decide; auto. Qed.

Lemma Math_min4_le (a b c d : number) :
  Math_min4 a b c d <= a /\ Math_min4 a b c d <= b /\
  Math_min4 a b c d <= c /\ Math_min4 a b c d <= d.
Proof.
  unfold Math_min4.
  pose proof (Math_min_le_l a b). pose proof (Math_min_le_r a b).
  pose proof (Math_min_le_l (Math_min a b) c). pose proof (Math_min_le_r (Math_min a b) c).
  pose proof (Math_min_le_l (Math_min (Math_min a b) c) d).
  pose proof (Math_min_le_r (Math_min (Math_min a b) c) d).
  repeat split; eauto using Qcle_trans.
Qed.

Lemma Math_min4_cases (a b c d : number) :
  Math_min4 a b c d = a \/ Math_min4 a b c d = b \/
  Math_min4 a b c d = c \/ Math_min4 a b c d = d.
Proof.
  unfold Math_min4.
  destruct (Math_min_cases (Math_min (Math_min a b) c) d) as [E|E]; rewrite E; clear E; [|auto].
  destruct (Math_min_cases (Math_min a b) c) as [E|E]; rewrite E; clear E; [|auto].
  destruct (Math_min_cases a b) as [E|E]; rewrite E; clear E; auto.
Qed.

(** [pickFromMouse] in edges mode, in terms of the clamped cell and the border
    distances. *)
Lemma pickFromMouse_edges p :
  let cell := getCellFromMouse p in
  let d := borderDistances p in
  let minD := Math_min4 (dLeft d) (dRight d) (dTop d) (dBottom d) in
  pickFromMouse Edges p =
    if decide (minD <= edgeSnap) then
      if decide (minD = dTop d) then PickEdge DirH (to_nat cell.1) (to_nat cell.2)
      else if decide (minD = dBottom d) then PickEdge DirH (to_nat cell.1) (to_nat (cell.2 ⊕ num 1))
      else if decide (minD = dLeft d) then PickEdge DirV (to_nat cell.1) (to_nat cell.2)
      else PickEdge DirV (to_nat (cell.1 ⊕ num 1)) (to_nat cell.2)
    else PickCell (to_nat cell.1) (to_nat cell.2).
Proof.
  unfold pickFromMouse, borderDistances, getCellFromMouse, edgeSnap.
  cbv zeta. cbn [fst snd dLeft dRight dTop dBottom].
  rewrite (decide_False (P := Edges <> Edges)) by (intros H; by apply H).
  reflexivity.
Qed.

Lemma to_nat_succ (n : nat) : (n < 4)%nat -> to_nat (num_of_nat n ⊕ num 1) = S n.
Proof.
  intros Hn. destruct n as [|[|[|[|n]]]]; [by vm_compute..|lia].
Qed.

Lemma getCellFromMouse_coords p :
  exists x y : nat,
    getCellFromMouse p = (num_of_nat x, num_of_nat y) /\ (x < GRID_W)%nat /\ (y < GRID_H)%nat.
Proof.
  unfold getCellFromMouse.
  cbv zeta. rewrite last_column, last_row.
  destruct (clamp_floor_cell ((px p ⊕ halfW) ⊘ cellSize)) as (x & Hx & ?).
  destruct (clamp_floor_cell ((pz p ⊕ halfH) ⊘ cellSize)) as (y & Hy & ?).
  exists x, y. split; [|done]. f_equal; [exact Hx|exact Hy].
Qed.

(** C5. In edge-editing mode, with [(cx, cy)] the clamped cell of the point,
    [localX], [localZ] its offset in that cell and [minD] the smallest of the
    four border distances (left [localX], right [cellSize - localX], top
    [localZ], bottom [cellSize - localZ]), all as the source computes them in
    doubles: when [minD] exceeds [0.18 * cellSize] the pick is the cell
    [(cx, cy)]; otherwise it is the edge of the nearest border, the first of
    top, bottom, left, right whose distance equals [minD], addressed as top:
    h-edge [(cx, cy)], bottom: h-edge [(cx, cy + 1)], left: v-edge [(cx, cy)],
    right: v-edge [(cx + 1, cy)].  A point of cell (2,0) whose distance to
    the top border is within the threshold and not above its distance to any
    other border yields the h-edge (2,0); so do the points of cell (2,0) at
    0.05 from the top border and at 0.1, 0.5 and 0.9 from the left one. *)
Theorem pick_in_edges_mode p :
  let lx := px p ⊕ halfW in
  let lz := pz p ⊕ halfH in
  let cx := clamp (Math_floor (lx ⊘ cellSize)) (num 0) (num_of_nat GRID_W ⊖ num 1) in
  let cy := clamp (Math_floor (lz ⊘ cellSize)) (num 0) (num_of_nat GRID_H ⊖ num 1) in
  let localX := lx ⊖ cx ⊗ cellSize in
  let localZ := lz ⊖ cy ⊗ cellSize in
  let dL := localX in
  let dR := cellSize ⊖ localX in
  let dT := localZ in
  let dB := cellSize ⊖ localZ in
  (exists (x y : nat) (minD : number),
     num_of_nat x = cx /\ num_of_nat y = cy /\
     (minD <= dL /\ minD <= dR /\ minD <= dT /\ minD <= dB) /\
     (minD = dL \/ minD = dR \/ minD = dT \/ minD = dB) /\
     (frac 18 100 ⊗ cellSize < minD -> pickFromMouse Edges p = PickCell x y) /\
     (minD <= frac 18 100 ⊗ cellSize ->
      (minD = dT -> pickFromMouse Edges p = PickEdge DirH x y) /\
      (minD < dT -> minD = dB -> pickFromMouse Edges p = PickEdge DirH x (y + 1)) /\
      (minD < dT -> minD < dB -> minD = dL -> pickFromMouse Edges p = PickEdge DirV x y) /\
      (minD < dT -> minD < dB -> minD < dL ->
       minD = dR /\ pickFromMouse Edges p = PickEdge DirV (x + 1) y))) /\
  (cx = num 2 -> cy = num 0 ->
   dT <= frac 18 100 ⊗ cellSize -> dT <= dL -> dT <= dR -> dT <= dB ->
   pickFromMouse Edges p = PickEdge DirH 2 0) /\
  (pickFromMouse Edges {| px := num 2 ⊗ cellSize ⊕ frac 1 10 ⊖ halfW;
                          pz := num 0 ⊗ cellSize ⊕ frac 5 100 ⊖ halfH |} = PickEdge DirH 2 0 /\
   pickFromMouse Edges {| px := num 2 ⊗ cellSize ⊕ frac 5 10 ⊖ halfW;
                          pz := num 0 ⊗ cellSize ⊕ frac 5 100 ⊖ halfH |} = PickEdge DirH 2 0 /\
   pickFromMouse Edges {| px := num 2 ⊗ cellSize ⊕ frac 9 10 ⊖ halfW;
                          pz := num 0 ⊗ cellSize ⊕ frac 5 100 ⊖ halfH |} = PickEdge DirH 2 0).
Proof.
  intros lx lz cx cy localX localZ dL dR dT dB.
  assert (exists x y : nat,
            cx = num_of_nat x /\ cy = num_of_nat y /\ (x < 4)%nat /\ (y < 4)%nat /\
            forall minD : number,
              (minD <= dL /\ minD <= dR /\ minD <= dT /\ minD <= dB) ->
              (minD = dL \/ minD = dR \/ minD = dT \/ minD = dB) ->
              minD = Math_min4 dL dR dT dB ->
              (frac 18 100 ⊗ cellSize < minD -> pickFromMouse Edges p = PickCell x y) /\
              (minD <= frac 18 100 ⊗ cellSize ->
               (minD = dT -> pickFromMouse Edges p = PickEdge DirH x y) /\
               (minD < dT -> minD = dB -> pickFromMouse Edges p = PickEdge DirH x (y + 1)) /\
               (minD < dT -> minD < dB -> minD = dL ->
                pickFromMouse Edges p = PickEdge DirV x y) /\
               (minD < dT -> minD < dB -> minD < dL ->
                minD = dR /\ pickFromMouse Edges p = PickEdge DirV (x + 1) y)))
    as (x & y & Hx & Hy & Hx4 & Hy4 & Hrule).
  { rewrite pickFromMouse_edges.
    change (getCellFromMouse p) with (cx, cy).
    change (borderDistances p) with
      {| dLeft := dL; dRight := dR; dTop := dT; dBottom := dB |}.
    cbn [fst snd dLeft dRight dTop dBottom].
    destruct (getCellFromMouse_coords p) as (x & y & Hc & Hx4 & Hy4).
    assert (cx = num_of_nat x /\ cy = num_of_nat y) as [Hx Hy].
    { change (getCellFromMouse p) with (cx, cy) in Hc. split; congruence. }
    clearbody dL dR dT dB. clear localX localZ. clearbody cx cy. clear lx lz.
    exists x, y. do 4 (split; [done|]). intros minD Hle Hin ->.
    set (minD := Math_min4 dL dR dT dB) in *. clearbody minD.
    rewrite Hx, Hy, !to_nat_succ, !to_nat_num_of_nat by done.
    fold edgeSnap. rewrite !Nat.add_1_r.
    split; [|intros Hsnap; split; [|split; [|split]]].
    + intros Hgt. rewrite decide_False; [done|]. by apply Qclt_not_le.
    + intros HT. by rewrite !decide_True.
    + intros HT HB. rewrite decide_True by done.
      rewrite decide_False by (by apply Qclt_not_eq). by rewrite decide_True.
    + intros HT HB HL. rewrite decide_True by done.
      rewrite !(decide_False (P := minD = dT)) by (by apply Qclt_not_eq).
      rewrite !(decide_False (P := minD = dB)) by (by apply Qclt_not_eq).
      by rewrite decide_True.
    + intros HT HB HL. split.
      * destruct Hin as [E|[E|[E|E]]]; [|done|..]; exfalso;
          [by apply Qclt_not_eq in HL|by apply Qclt_not_eq in HT|by apply Qclt_not_eq in HB].
      * rewrite decide_True by done.
        rewrite !(decide_False (P := minD = dT)) by (by apply Qclt_not_eq).
        rewrite !(decide_False (P := minD = dB)) by (by apply Qclt_not_eq).
        rewrite !(decide_False (P := minD = dL)) by (by apply Qclt_not_eq).
        done. }
  pose proof (Math_min4_le dL dR dT dB) as Hle.
  pose proof (Math_min4_cases dL dR dT dB) as Hin.
  clearbody dL dR dT dB. clear localX localZ. clearbody cx cy. clear lx lz.
  split; [|split].
  - exists x, y, (Math_min4 dL dR dT dB). do 2 (split; [done|]).
    do 2 (split; [done|]). by apply Hrule.
  - intros Hcx Hcy Hsnap HL HR HB.
    assert (Math_min4 dL dR dT dB = dT) as Hmin.
    { apply Qcle_antisym; [by destruct Hle as (_ & _ & ? & _)|].
      destruct Hin as [E|[E|[E|E]]]; rewrite E; first [done|apply Qcle_refl]. }
    assert (x = 2%nat /\ y = 0%nat) as [-> ->].
    { split; [rewrite <- (to_nat_num_of_nat x), <- Hx, Hcx
             |rewrite <- (to_nat_num_of_nat y), <- Hy, Hcy]; by rewrite to_nat_num. }
    destruct (Hrule _ Hle Hin eq_refl) as [_ Hedge].
    rewrite Hmin in Hedge. by apply Hedge.
  - by vm_compute.
Qed.

Lemma pick_in_edges_mode_witness :
  pickFromMouse Edges {| px := frac 5 10; pz := frac (-195) 100 |} = PickEdge DirH 2 0 /\
  exists x y : nat,
    pickFromMouse Edges {| px := frac 1 2; pz := frac 1 2 |} = PickCell x y /\
    num_of_nat x = num 2 /\ num_of_nat y = num 2.
Proof.
  split.
  - apply (proj1 (proj2 (pick_in_edges_mode {| px := frac 5 10; pz := frac (-195) 100 |})));
      first [apply Qc_is_canon; by vm_compute|by vm_compute].
  - destruct (proj1 (pick_in_edges_mode {| px := frac 1 2; pz := frac 1 2 |}))
      as (x & y & minD & Hx & Hy & _ & Hin & Hcell & _).
    exists x, y. split; [|split].
    + apply Hcell. destruct Hin as [E|[E|[E|E]]]; rewrite E; by vm_compute.
    + rewrite Hx. apply Qc_is_canon. by vm_compute.
    + rewrite Hy. apply Qc_is_canon. by vm_compute.
Defined.

(** ** Codec: loading a document *)

Lemma array_of_length_loaded n v fallback :
  loaded_from n v fallback (array_of_length n v fallback).
Proof.
  split.
  - intros items [-> Hlen]. simpl. by rewrite decide_True.
  - intros Hno. destruct v; try done. simpl. case_decide; [|done].
    by destruct (Hno items).
Qed.

(** C1, as stated, fails: with [board] present and [cells] absent (or [null])
    the load does not succeed; the whole document is rejected. *)
Lemma absent_array_rejected_counterexample :
  prop "board" docWithoutCells <> None /\
  (prop "board" docWithoutCells ≫= prop "cells") = None /\
  importJson docWithoutCells initialSession
    = ImportFailed "Board mancante" (setStatus loadError initialSession) /\
  importJson docWithNullCells initialSession
    = ImportFailed "Board mancante" (setStatus loadError initialSession).
Proof. by vm_compute. Qed.

Lemma importJson_loaded data s b vc vh vv vo :
  prop "board" data = Some b ->
  prop "cells" b = Some vc -> truthy (Some vc) = true ->
  prop "hEdges" b = Some vh -> truthy (Some vh) = true ->
  prop "vEdges" b = Some vv -> truthy (Some vv) = true ->
  prop "objects" b = Some vo -> truthy (Some vo) = true ->
  exists s',
    importJson data s =
      ImportLoaded {| l_cells := array_of_length 16 vc (l_cells emptyBoardValue);
                      l_hEdges := array_of_length 20 vh (l_hEdges emptyBoardValue);
                      l_vEdges := array_of_length 20 vv (l_vEdges emptyBoardValue);
                      l_objects := array_of_length 16 vo (l_objects emptyBoardValue) |} s' /\
    status s' = loadDone /\ board s' = board s.
Proof.
  intros Hb Hc Tc Hh Th Hv Tv Ho To. unfold importJson.
  destruct data; try done. destruct b; try done.
  cbn [truthy typeof_object negb orb].
  rewrite Hb. cbn [mbind option_bind]. rewrite Hc, Hh, Hv, Ho, Tc, Th, Tv, To.
  cbn [truthy negb orb].
  eexists. split; [reflexivity|]. split; [done|].
  destruct (prop "customObjects" _) as [[]|]; try done.
  by destruct (customs_of_entries _ _).
Qed.

(** C1, amended. When [board] is present and its four members [cells],
    [hEdges], [vEdges], [objects] are all present and truthy, the load
    succeeds; each member that is an Array of the correct length is kept
    verbatim and each other member is replaced by the corresponding field of
    [makeEmptyState()].  When one of the four members is absent or falsy the
    document is rejected as a whole and the board is left as it was.  A
    document whose [cells] has length 10 and whose other arrays are valid loads
    with all-floor cells and the document's other three arrays. *)
Theorem importJson_field_fallback :
  (forall data s b vc vh vv vo,
     prop "board" data = Some b ->
     prop "cells" b = Some vc -> truthy (Some vc) = true ->
     prop "hEdges" b = Some vh -> truthy (Some vh) = true ->
     prop "vEdges" b = Some vv -> truthy (Some vv) = true ->
     prop "objects" b = Some vo -> truthy (Some vo) = true ->
     exists nb s',
       importJson data s = ImportLoaded nb s' /\ status s' = loadDone /\
       loaded_from (GRID_W * GRID_H) vc (l_cells emptyBoardValue) (l_cells nb) /\
       loaded_from ((GRID_H + 1) * GRID_W) vh (l_hEdges emptyBoardValue) (l_hEdges nb) /\
       loaded_from (GRID_H * (GRID_W + 1)) vv (l_vEdges emptyBoardValue) (l_vEdges nb) /\
       loaded_from (GRID_W * GRID_H) vo (l_objects emptyBoardValue) (l_objects nb)) /\
  (forall data s b k,
     prop "board" data = Some b ->
     k ∈ ["cells"; "hEdges"; "vEdges"; "objects"] ->
     truthy (prop k b) = false ->
     importJson data s = ImportFailed "Board mancante" (setStatus loadError s)) /\
  (exists s',
     importJson tenCellsDoc initialSession =
       ImportLoaded {| l_cells := replicate 16 (cell_value Floor);
                       l_hEdges := replicate 20 (edge_value Wall);
                       l_vEdges := replicate 20 (edge_value Door);
                       l_objects := replicate 16 (object_value placedBridge) |} s' /\
     status s' = loadDone).
Proof.
  split; [|split].
  - intros data s b vc vh vv vo Hb Hc Tc Hh Th Hv Tv Ho To.
    destruct (importJson_loaded data s b vc vh vv vo) as (s' & -> & Hs & _); try done.
    eexists _, s'. split; [done|]. split; [done|]. cbn [l_cells l_hEdges l_vEdges l_objects].
    repeat split; apply array_of_length_loaded.
  - intros data s b k Hb Hk Hf. unfold importJson.
    destruct data; try done.
    cbn [truthy typeof_object negb orb]. rewrite Hb. cbn [mbind option_bind].
    assert (truthy (Some b) = false \/ truthy (Some b) = true) as [Tb|Tb]
      by (destruct (truthy (Some b)); auto).
    { by rewrite Tb. }
    rewrite Tb. cbn [negb orb].
    repeat (apply elem_of_cons in Hk as [->|Hk]; [rewrite Hf; cbn [negb orb];
              by rewrite ?orb_true_r|]).
    by apply elem_of_nil in Hk.
  - eexists. split; [by vm_compute|done].
Qed.

Lemma importJson_field_fallback_witness :
  (exists nb s',
     importJson tenCellsDoc initialSession = ImportLoaded nb s' /\ status s' = loadDone /\
     loaded_from 16 (JArr (replicate 10 (cell_value Water)))
       (l_cells emptyBoardValue) (l_cells nb)) /\
  importJson docWithNullCells initialSession
    = ImportFailed "Board mancante" (setStatus loadError initialSession).
Proof.
  split.
  - destruct (proj1 importJson_field_fallback tenCellsDoc initialSession
                (JObj [("cells", JArr (replicate 10 (cell_value Water)));
                       ("hEdges", JArr (replicate 20 (edge_value Wall)));
                       ("vEdges", JArr (replicate 20 (edge_value Door)));
                       ("objects", JArr (replicate 16 (object_value placedBridge)))])
                (JArr (replicate 10 (cell_value Water)))
                (JArr (replicate 20 (edge_value Wall)))
                (JArr (replicate 20 (edge_value Door)))
                (JArr (replicate 16 (object_value placedBridge)))
                eq_refl eq_refl eq_refl eq_refl eq_refl eq_refl eq_refl eq_refl eq_refl)
      as (nb & s' & H1 & H2 & H3 & _).
    exists nb, s'. exact (conj H1 (conj H2 H3)).
  - refine (proj1 (proj2 importJson_field_fallback) docWithNullCells initialSession
              (JObj [("cells", JNull);
                     ("hEdges", JArr (l_hEdges emptyBoardValue));
                     ("vEdges", JArr (l_vEdges emptyBoardValue));
                     ("objects", JArr (l_objects emptyBoardValue))]) "cells" eq_refl _ eq_refl).
    apply elem_of_cons. by left.
Defined.

(** ** Codec: what the loader does not check *)

Lemma importJson_docOfArrays nb s :
  right_lengths nb ->
  exists s', importJson (docOfArrays nb) s = ImportLoaded nb s' /\ status s' = loadDone.
Proof.
  intros (Hc & Hh & Hv & Ho).
  destruct (importJson_loaded (docOfArrays nb) s
              (JObj [("cells", JArr (l_cells nb)); ("hEdges", JArr (l_hEdges nb));
                     ("vEdges", JArr (l_vEdges nb)); ("objects", JArr (l_objects nb))])
              (JArr (l_cells nb)) (JArr (l_hEdges nb)) (JArr (l_vEdges nb))
              (JArr (l_objects nb))) as (s' & Heq & Hs & _); try done.
  exists s'. split; [|done]. rewrite Heq. f_equal. destruct nb; simpl in *.
  by rewrite !decide_True.
Qed.

(** C10. [importJson] checks the four arrays only for being Arrays of the
    right length: any four arrays of lengths 16, 20, 20, 16 are installed
    verbatim and the load reports success.  So it accepts a document whose
    board breaks the light payload invariant (a lever carrying a light payload,
    a light without payload), one whose object has rotation 45, and ones whose
    cells or edges are not values of the declared enumerations, so that the
    loaded board is the image of no typed board. *)
Theorem importJson_installs_unchecked :
  (forall nb s, right_lengths nb ->
     exists s', importJson (docOfArrays nb) s = ImportLoaded nb s' /\ status s' = loadDone) /\
  (forall o, exists s',
     importJson (docOfArrays (board_value (boardWithObject o))) initialSession
       = ImportLoaded (board_value (boardWithObject o)) s' /\ status s' = loadDone) /\
  ~ board_light_ok (boardWithObject leverWithLight) /\
  ~ board_light_ok (boardWithObject lightWithoutPayload) /\
  (arr_get (objects (boardWithObject leverAt45)) 0 = Some leverAt45 /\
   ~ rotation_ok (rotation leverAt45)) /\
  (exists s', importJson (docOfArrays lavaBoard) initialSession = ImportLoaded lavaBoard s' /\
              status s' = loadDone /\ forall b, board_value b <> lavaBoard) /\
  (exists s', importJson (docOfArrays gateBoard) initialSession = ImportLoaded gateBoard s' /\
              status s' = loadDone /\ forall b, board_value b <> gateBoard).
Proof.
  split; [exact importJson_docOfArrays|].
  split; [intros o; by apply importJson_docOfArrays|].
  split; [|split; [|split; [|split]]].
  - intros H. destruct (H 0%nat leverWithLight eq_refl) as [H1 _].
    by specialize (H1 (mk_is_Some _ _ eq_refl)).
  - intros H. destruct (H 0%nat lightWithoutPayload eq_refl) as [_ H2].
    by destruct (H2 eq_refl).
  - split; [done|]. unfold rotation_ok. simpl. lia.
  - destruct (importJson_docOfArrays lavaBoard initialSession) as (s' & ? & ?); [done|].
    exists s'. split; [done|]. split; [done|].
    intros b Hb. apply (f_equal l_cells) in Hb. simpl in Hb.
    destruct (cells b) as [|[[]|] ?]; done.
  - destruct (importJson_docOfArrays gateBoard initialSession) as (s' & ? & ?); [done|].
    exists s'. split; [done|]. split; [done|].
    intros b Hb. apply (f_equal l_hEdges) in Hb. simpl in Hb.
    destruct (hEdges b) as [|[[]|] ?]; done.
Qed.

Lemma importJson_installs_unchecked_witness :
  exists s', importJson (docOfArrays lavaBoard) initialSession = ImportLoaded lavaBoard s' /\
             status s' = loadDone.
Proof.
  refine (proj1 importJson_installs_unchecked lavaBoard initialSession _).
  repeat split; reflexivity.
Defined.

(** ** Codec: round trip *)

Lemma custom_roundtrip next c :
  custom_wf c ->
  custom_entry_ok (custom_value c) = true /\
  custom_of_entry next (custom_value c) = (c, next).
Proof.
  intros ((Hx1 & Hx2) & (Hy1 & Hy2) & (Hs1 & Hs2) & (Ho1 & Ho2) & Hurl).
  split; [done|]. unfold custom_of_entry, custom_value.
  cbn [prop member decide]. simpl.
  rewrite last_column, last_row.
  rewrite !clamp_id by done.
  destruct c as [id name url x y scale yOffset rot]; simpl in *.
  destruct url; done.
Qed.

Lemma customs_roundtrip next cs :
  Forall custom_wf cs ->
  customs_of_entries next (filter custom_entry_ok (map custom_value cs)) = (cs, next).
Proof.
  induction 1 as [|c cs Hc _ IH]; [done|].
  destruct (custom_roundtrip next c Hc) as [Hok Hentry].
  cbn [map]. rewrite filter_cons_True by (by rewrite Hok).
  cbn [customs_of_entries]. by rewrite Hentry, IH.
Qed.

Lemma array_value_length {A} (f : A -> json) (a : array A) :
  length (array_value f a) = length a.
Proof. apply length_map. Qed.

(** Loading the exported document of a well-formed session. *)
Lemma roundtrip_wf s s0 :
  session_wf s ->
  importJson (exportJson s) s0 =
    ImportLoaded (board_value (board s))
      (setStatus loadDone
         (setSelectedCustomId None (setEditingLight None (setSelectedLightCell None
            (setCustomObjects (customObjects s) (setNextCustomId (nextCustomId s0) s0)))))).
Proof.
  intros (((Hc & _) & (Hh & _) & (Hv & _) & (Ho & _)) & Hcs).
  unfold importJson, exportJson.
  cbn [truthy typeof_object negb orb prop member decide].
  simpl. rewrite customs_roundtrip by done.
  rewrite !array_value_length, !decide_True by done.
  by destruct (board s).
Qed.

Lemma full_set {A} (n i : nat) (a : array A) (v : A) :
  full n a -> (i < n)%nat -> full n (arr_set a i v).
Proof.
  intros [Hlen Hall] Hi. unfold arr_set. rewrite decide_True by lia. split.
  - by rewrite length_insert.
  - apply Forall_insert; [done|by eexists].
Qed.

Lemma full_fill {A} (n : nat) (v : A) : full n (arr_fill n v).
Proof.
  split; [apply length_replicate|]. apply Forall_replicate. by eexists.
Qed.

Lemma makeEmptyState_wf : board_wf makeEmptyState.
Proof.
  repeat split; try done; unfold makeEmptyState; simpl; repeat constructor; by eexists.
Qed.

Lemma board_wf_set_cells b i v :
  board_wf b -> (i < GRID_W * GRID_H)%nat -> board_wf (set_cells b (arr_set (cells b) i v)).
Proof. intros (Hc & Hh & Hv & Ho) Hi. split; [by apply full_set|done]. Qed.

Lemma board_wf_set_objects b i v :
  board_wf b -> (i < GRID_W * GRID_H)%nat -> board_wf (set_objects b (arr_set (objects b) i v)).
Proof. intros (Hc & Hh & Hv & Ho) Hi. do 3 (split; [done|]). by apply full_set. Qed.

Lemma board_wf_set_hEdges b i v :
  board_wf b -> (i < (GRID_H + 1) * GRID_W)%nat ->
  board_wf (set_hEdges b (arr_set (hEdges b) i v)).
Proof. intros (Hc & Hh & Hv & Ho) Hi. split; [done|]. split; [by apply full_set|done]. Qed.

Lemma board_wf_set_vEdges b i v :
  board_wf b -> (i < GRID_H * (GRID_W + 1))%nat ->
  board_wf (set_vEdges b (arr_set (vEdges b) i v)).
Proof. intros (Hc & Hh & Hv & Ho) Hi. do 2 (split; [done|]). split; [by apply full_set|done]. Qed.

Lemma boardUpdater_wf cfg s pick prev next :
  valid_pick pick -> board_wf prev ->
  (boardUpdater cfg s pick prev).1 = ReturnedNext next -> board_wf next.
Proof.
  intros Hpick Hwf. unfold boardUpdater. rewrite copyBoard_eq.
  destruct pick as [x y|d x y].
  - assert (idxCell x y < GRID_W * GRID_H)%nat as Hi
      by (unfold valid_pick, idxCell, GRID_W, GRID_H in *; lia).
    destruct (mode cfg); [| simpl; intros [=] |].
    + simpl. case_decide; simpl; intros [= <-].
      * apply (board_wf_set_objects (set_cells prev _)); [|done].
        by apply board_wf_set_cells.
      * by apply board_wf_set_cells.
    + destruct (decide (objectBrush cfg = Light));
        [simpl; intros [= <-]; by apply board_wf_set_objects|].
      destruct (decide (objectBrush cfg = Bridge /\ _)); [simpl; intros [=]|].
      destruct (decide (objectBrush cfg = NoObj));
        [simpl; intros [= <-]; by apply board_wf_set_objects|].
      destruct (arr_get (objects prev) _) as [o|]; [|simpl; intros [=]].
      destruct (decide (type o = objectBrush cfg));
        simpl; intros [= <-]; by apply board_wf_set_objects.
  - case_decide; [simpl; intros [=]|].
    destruct d; simpl; intros [= <-].
    + apply board_wf_set_hEdges; [done|].
      unfold valid_pick, idxHEdge, GRID_W, GRID_H in *. lia.
    + apply board_wf_set_vEdges; [done|].
      unfold valid_pick, idxVEdge, GRID_W, GRID_H in *. lia.
Qed.

Lemma boardUpdater_session_customs cfg s pick prev :
  customObjects (boardUpdater cfg s pick prev).2 = customObjects s.
Proof. unfold boardUpdater. repeat case_match; done. Qed.

Lemma num_of_nat_range (x n : nat) :
  (x < S n)%nat -> num 0 <= num_of_nat x /\ num_of_nat x <= num (Z.of_nat n).
Proof. intros. unfold num_of_nat. rewrite !num_le. lia. Qed.

Lemma customUpdater_wf brush s pick :
  valid_pick pick -> is_cell pick = true ->
  Forall custom_wf (customObjects s) ->
  Forall custom_wf (customObjects (customUpdater brush s pick)).
Proof.
  intros Hpick Hcell Hall. unfold customUpdater.
  destruct (list_find _ _) as [[i c]|].
  - case_decide; simpl; by apply Forall_delete.
  - simpl. apply Forall_app. split; [done|]. constructor; [|done].
    destruct pick as [x y|]; [|done]. destruct Hpick as [Hx Hy].
    unfold custom_wf. simpl.
    split; [by apply (num_of_nat_range x 3)|].
    split; [by apply (num_of_nat_range y 3)|].
    split; [by vm_compute|]. split; [by vm_compute|]. done.
Qed.

Lemma applyPick_wf cfg s pick :
  valid_pick pick -> session_wf s -> session_wf (applyPick cfg s pick).2.
Proof.
  intros Hpick [Hb Hcs]. split.
  - rewrite applyPick_board.
    destruct ((applyPick cfg s pick).1) as [| |next|] eqn:Hret; simpl; try done.
    unfold applyPick in Hret. destruct (_ && _ && _ && _); [by case_decide|].
    pose proof (boardUpdater_wf cfg s pick (board s)) as Hup.
    destruct (boardUpdater cfg s pick (board s)) as [[] s']; simplify_eq/=. by apply Hup.
  - unfold applyPick. destruct (_ && _ && _ && _) eqn:Hpath.
    + destruct (decide (_ ∈ _)); simpl; [|done]. apply customUpdater_wf; [done| |done].
      destruct (is_cell pick); [done|]. by rewrite andb_false_r in Hpath.
    + pose proof (boardUpdater_session_customs cfg s pick (board s)) as Hcust.
      destruct (boardUpdater cfg s pick (board s)) as [[] s']; simpl in *; by rewrite Hcust.
Qed.

(** Every pick [pickFromMouse] produces is a valid pick. *)
Lemma pickFromMouse_valid mode p : valid_pick (pickFromMouse mode p).
Proof.
  destruct (getCellFromMouse_coords p) as (x & y & Hc & Hx & Hy).
  destruct (decide (mode = Edges)) as [->|Hm].
  - rewrite pickFromMouse_edges. rewrite Hc. cbn [fst snd].
    rewrite !to_nat_succ, !to_nat_num_of_nat by done.
    repeat case_decide; simpl; lia.
  - rewrite pickFromMouse_not_edges by done. rewrite Hc. cbn [fst snd].
    rewrite !to_nat_num_of_nat. done.
Qed.

Lemma Forall_map_preserve {A} (P : A -> Prop) (g : A -> A) (l : list A) :
  (forall x, P x -> P (g x)) -> Forall P l -> Forall P (map g l).
Proof. intros Hg. induction 1; constructor; auto. Qed.

Lemma dragMove_wf id p s : session_wf s -> session_wf (dragMove id p s).
Proof.
  intros [Hb Hcs]. split; [done|]. unfold dragMove.
  destruct (getCellFromMouse_coords p) as (x & y & Hc & Hx & Hy). rewrite Hc. simpl.
  apply Forall_map_preserve; [|done].
  intros c Hwf. case_decide; [|done]. destruct Hwf as (_ & _ & Hs & Ho & Hu).
  unfold custom_wf. simpl.
  split; [by apply (num_of_nat_range x 3)|]. split; [by apply (num_of_nat_range y 3)|]. done.
Qed.

Lemma dragScale_wf id dy s : session_wf s -> session_wf (dragScale id dy s).
Proof.
  intros [Hb Hcs]. split; [done|]. unfold dragScale. simpl.
  apply Forall_map_preserve; [|done].
  intros c Hwf. case_decide; [|done]. destruct Hwf as (Hx & Hy & Hs & Ho & Hu).
  unfold custom_wf. simpl.
  do 2 (split; [done|]). split; [|done]. apply clamp_bounds. by vm_compute.
Qed.

Lemma updateSelectedCustom_wf partial s :
  slider_ok partial -> session_wf s -> session_wf (updateSelectedCustom partial s).
Proof.
  intros [Hsc Hyo] [Hb Hcs]. unfold updateSelectedCustom.
  destruct (selectedCustomId s) as [sel|]; [|done]. split; [done|]. simpl.
  apply Forall_map_preserve; [|done].
  intros c Hwf. case_decide; [|done]. destruct Hwf as (Hx & Hy & Hs & Ho & Hu).
  unfold custom_wf. simpl.
  do 2 (split; [done|]).
  split; [destruct (p_scale partial); simpl; auto|].
  split; [destruct (p_yOffset partial); simpl; auto|done].
Qed.

Lemma updateSelectedLight_wf partial s : session_wf s -> session_wf (updateSelectedLight partial s).
Proof.
  intros [Hb Hcs]. unfold updateSelectedLight.
  destruct (selectedLightCell s) as [sel|]; [|done].
  destruct (arr_get _ _) as [[[] ? []]|]; try done.
  split; [|done]. simpl. destruct Hb as (Hc & Hh & Hv & [Hlen Hall]).
  do 3 (split; [done|]). split; simpl.
  - by rewrite length_imap.
  - apply Forall_lookup. intros i slot. rewrite list_lookup_imap.
    destruct (objects (board s) !! i) as [slot'|] eqn:E; [|done]. simpl. intros [= <-].
    assert (is_Some slot') as [o ->] by (by eapply Forall_lookup_1).
    case_decide; by eexists.
Qed.

(** The invariant of the reachable sessions. *)
Lemma step_wf s s' : step s s' -> session_wf s -> session_wf s'.
Proof.
  destruct 1; intros Hwf.
  - by apply applyPick_wf.
  - by apply dragMove_wf.
  - by apply dragScale_wf.
  - by apply updateSelectedCustom_wf.
  - by apply updateSelectedLight_wf.
  - destruct Hwf. split; [apply makeEmptyState_wf|done].
  - done.
  - done.
Qed.

Lemma reachable_wf s : reachable s -> session_wf s.
Proof.
  unfold reachable. intros Hr.
  assert (session_wf initialSession) as H0 by (split; [apply makeEmptyState_wf|constructor]).
  revert H0. induction Hr; eauto using step_wf.
Qed.

(** The JSON image determines the typed board. *)
Lemma num_inj (a b : Z) : num a = num b -> a = b.
Proof. intros H. apply (f_equal this) in H. simpl in H. by injection H. Qed.

Lemma object_value_inj o1 o2 : object_value o1 = object_value o2 -> o1 = o2.
Proof.
  destruct o1 as [t1 r1 [[c1 i1 d1 e1]|]], o2 as [t2 r2 [[c2 i2 d2 e2]|]];
    unfold object_value; simpl; intros H; try done;
    injection H; intros; subst; by destruct t1, t2.
Qed.

Lemma array_value_inj {A} (f : A -> json) (a1 a2 : array A) :
  (forall x, f x <> JNull) -> (forall x y, f x = f y -> x = y) ->
  array_value f a1 = array_value f a2 -> a1 = a2.
Proof.
  intros Hnull Hinj. revert a2. unfold array_value.
  induction a1 as [|s1 a1 IH]; intros [|s2 a2]; simpl; try done.
  intros [= Hs Ha]. f_equal; [|by apply IH].
  destruct s1, s2; simpl in Hs; try done.
  - f_equal. by apply Hinj.
  - by destruct (Hnull a).
  - by destruct (Hnull a).
Qed.

Lemma board_value_inj b1 b2 : board_value b1 = board_value b2 -> b1 = b2.
Proof.
  destruct b1 as [c1 h1 v1 o1], b2 as [c2 h2 v2 o2]. unfold board_value. simpl.
  intros [= Hc Hh Hv Ho].
  apply array_value_inj in Hc; [|done|by intros [] []].
  apply array_value_inj in Hh; [|done|by intros [] []].
  apply array_value_inj in Hv; [|done|by intros [] []].
  apply array_value_inj in Ho; [|done|apply object_value_inj].
  by subst.
Qed.

(** C8. For every session reached from the default state by valid picks,
    asset drags, slider and light updates and resets, loading the document
    that [exportJson] produces succeeds without error; the loaded board is the
    JSON image of the original board, which is the image of no other board, and
    the loaded placement list is the original list. *)
Theorem export_import_roundtrip s s0 :
  reachable s ->
  exists s',
    importJson (exportJson s) s0 = ImportLoaded (board_value (board s)) s' /\
    (forall b, board_value b = board_value (board s) -> b = board s) /\
    board_wf (board s) /\
    customObjects s' = customObjects s /\
    status s' = loadDone.
Proof.
  intros Hwf%reachable_wf. rewrite (roundtrip_wf s s0 Hwf).
  eexists. split; [done|]. split; [intros b; apply board_value_inj|]. by destruct Hwf.
Qed.

Lemma wateredSession_reachable : reachable wateredSession.
Proof.
  apply rtc_once. apply (step_pick (cellTool Water) (PickCell 1 1) initialSession).
  split; vm_compute; lia.
Defined.

Lemma export_import_roundtrip_witness :
  exists s',
    importJson (exportJson wateredSession) initialSession
      = ImportLoaded (board_value (board wateredSession)) s' /\
    customObjects s' = customObjects wateredSession /\ status s' = loadDone.
Proof.
  destruct (export_import_roundtrip wateredSession initialSession wateredSession_reachable)
    as (s' & H1 & _ & _ & H2 & H3).
  exists s'. exact (conj H1 (conj H2 H3)).
Defined.

(** ** The updater on a store of objects *)

Example emptyStore_board : readBoard emptyStore 20 = Some makeEmptyState.
Proof. reflexivity. Qed.

Example reject_on_store :
  exists h', boardUpdaterH bridgeTool (PickCell 1 1) emptyStore 20 = Some (h', RPrev) /\
             take 21 h' = emptyStore.
Proof. eexists. split; reflexivity. Qed.

Example accept_on_store :
  exists h' next, boardUpdaterH (cellTool Water) (PickCell 1 1) emptyStore 20 = Some (h', RNext next) /\
             take 21 h' = emptyStore /\
             readBoard h' next = Some (board wateredSession).
Proof. eexists _, _. split; [|split]; reflexivity. Qed.

(** *** Reading through a growing store *)

Lemma new_prefix (h : heap) (o : hobj) : h `prefix_of` (new h o).1.
Proof. by apply prefix_app_r. Qed.

Lemma lookup_prefix (h h' : heap) (r : ref) (o : hobj) :
  h `prefix_of` h' -> h !! r = Some o -> h' !! r = Some o.
Proof. intros Hp Hl. by eapply prefix_lookup_Some. Qed.

Lemma placementAt_prefix (h h' : heap) r o :
  h `prefix_of` h' -> placementAt h r = Some o -> placementAt h' r = Some o.
Proof.
  unfold placementAt. intros Hp. destruct (h !! r) as [x|] eqn:E; [|done].
  by rewrite (lookup_prefix h h' r x).
Qed.

Lemma slotAt_prefix (h h' : heap) slot o :
  h `prefix_of` h' -> slotAt h slot = Some o -> slotAt h' slot = Some o.
Proof.
  destruct slot as [r|]; [|done]. simpl. intros Hp.
  destruct (placementAt h r) as [x|] eqn:E; [|done].
  by rewrite (placementAt_prefix h h' r x).
Qed.

Lemma placements_prefix (h h' : heap) (a : array ref) (os : array ObjectPlacement) :
  h `prefix_of` h' ->
  Forall2 (fun slot o => slotAt h slot = Some o) a os ->
  Forall2 (fun slot o => slotAt h' slot = Some o) a os.
Proof.
  intros Hp Hall. eapply Forall2_impl; [exact Hall|].
  intros slot o Hs. simpl in *. by eapply slotAt_prefix.
Qed.

Lemma copyPlacements_spec (a : array ref) (h : heap) (os : array ObjectPlacement) :
  Forall2 (fun slot o => slotAt h slot = Some o) a os ->
  exists h' a',
    copyPlacements h a = Some (h', a') /\
    h `prefix_of` h' /\
    Forall2 (fun slot o => slotAt h' slot = Some o) a' os /\
    refs_within (length h) (length h') a' /\ refs_distinct a'.
Proof.
  revert h os. induction a as [|slot a IH]; intros h os Hall.
  - apply Forall2_nil_inv_l in Hall as ->. exists h, [].
    do 3 (split; [done|]). split.
    + intros i r. by rewrite lookup_nil.
    + intros i j r. by rewrite lookup_nil.
  - apply Forall2_cons_inv_l in Hall as (o & os' & Hslot & Hrest & ->).
    destruct slot as [r|]; simpl in Hslot.
    + destruct (placementAt h r) as [p|] eqn:Hp; [|done]. injection Hslot as <-.
      set (h1 := h ++ [HPlacement p]).
      assert (h `prefix_of` h1) as Hpre by (by apply prefix_app_r).
      destruct (IH h1 os') as (h' & a' & Hcopy & Hpre' & Hall' & Hin & Hdis).
      { by apply (placements_prefix h). }
      assert (length h1 = S (length h)) as Hlen
        by (unfold h1; rewrite length_app; simpl; lia).
      pose proof (prefix_length _ _ Hpre') as Hle.
      exists h', (Some (length h) :: a'). split; [|split; [|split; [|split]]].
      * simpl. rewrite Hp. simpl. fold h1. by rewrite Hcopy.
      * by etrans.
      * constructor; [|done]. simpl.
        rewrite (placementAt_prefix h1 h' (length h) p); [done..|].
        unfold placementAt, h1. by rewrite lookup_app_r, Nat.sub_diag by lia.
      * intros [|i] r'; simpl.
        -- intros [= <-]. lia.
        -- intros Hi. apply Hin in Hi. lia.
      * intros [|i] [|j] r'; simpl; try done.
        -- intros [= <-] Hj. apply Hin in Hj. lia.
        -- intros Hi [= <-]. apply Hin in Hi. lia.
        -- intros Hi Hj. f_equal. by eapply Hdis.
    + injection Hslot as <-.
      destruct (IH h os' Hrest) as (h' & a' & Hcopy & Hpre' & Hall' & Hin & Hdis).
      exists h', (None :: a'). split; [|split; [|split; [|split]]].
      * simpl. by rewrite Hcopy.
      * done.
      * by constructor.
      * intros [|i] r'; simpl; [done|]. apply Hin.
      * intros [|i] [|j] r'; simpl; try done. intros Hi Hj. f_equal. by eapply Hdis.
Qed.

Lemma owns_readBoard h0 h next b rc rh rv ro refs :
  owns h0 h next b rc rh rv ro refs -> readBoard h next = Some b.
Proof.
  intros []. unfold readBoard, boardAt, cellsAt, edgesAt, objectsAt, readPlacements.
  rewrite own_board0. simpl. rewrite own_cells0, own_hEdges0, own_vEdges0, own_objects0.
  simpl. apply mapM_Some in own_placements0. rewrite own_placements0. simpl. by destruct b.
Qed.

Lemma owns_slot h0 h next b rc rh rv ro refs i :
  owns h0 h next b rc rh rv ro refs ->
  slotAt h (arr_get refs i) = Some (arr_get (objects b) i).
Proof.
  intros []. unfold arr_get.
  destruct (refs !! i) as [slot|] eqn:E.
  - destruct (Forall2_lookup_l _ _ _ _ _ own_placements0 E) as (o & -> & Ho). done.
  - apply lookup_ge_None in E. rewrite (Forall2_length _ _ _ own_placements0) in E.
    apply lookup_ge_None in E. by rewrite E.
Qed.

Lemma prefix_insert_new (h0 h : heap) (r : ref) (o : hobj) :
  h0 `prefix_of` h -> (length h0 <= r)%nat -> h0 `prefix_of` <[r := o]> h.
Proof.
  intros [k ->] Hr. rewrite insert_app_r_alt by done. by apply prefix_app_r.
Qed.

Lemma apart5 (a b c d e : ref) :
  NoDup [a; b; c; d; e] ->
  a <> b /\ a <> c /\ a <> d /\ a <> e /\ b <> c /\ b <> d /\ b <> e /\
  c <> d /\ c <> e /\ d <> e.
Proof. rewrite !NoDup_cons, !not_elem_of_cons. intuition. Qed.

Lemma slotAt_insert_ne (h : heap) (r : ref) (o : hobj) (slot : option ref) :
  slot <> Some r -> slotAt (<[r := o]> h) slot = slotAt h slot.
Proof.
  destruct slot as [r'|]; [|done]. intros Hne. simpl. unfold placementAt.
  rewrite list_lookup_insert_ne; [done|congruence].
Qed.

Lemma copyBoardH_spec h prev b :
  readBoard h prev = Some b ->
  exists h1 next rc rh rv ro refs,
    copyBoardH h prev = Some (h1, next) /\ owns h h1 next b rc rh rv ro refs.
Proof.
  unfold readBoard, copyBoardH. intros Hread.
  destruct (boardAt h prev) as [[[[rc0 rh0] rv0] ro0]|]; [simpl in *|done].
  destruct (cellsAt h rc0) as [ac|]; [simpl in *|done].
  destruct (edgesAt h rh0) as [ah|]; [simpl in *|done].
  destruct (edgesAt h rv0) as [av|]; [simpl in *|done].
  destruct (objectsAt h ro0) as [refs0|]; [simpl in *|done].
  destruct (readPlacements h refs0) as [os|] eqn:Hos; [simpl in *|done].
  injection Hread as <-. apply mapM_Some in Hos.
  set (h1 := h ++ [HCells ac]). set (h2 := h1 ++ [HEdges ah]). set (h3 := h2 ++ [HEdges av]).
  assert (h `prefix_of` h1) as P1 by (by apply prefix_app_r).
  assert (h1 `prefix_of` h2) as P2 by (by apply prefix_app_r).
  assert (h2 `prefix_of` h3) as P3 by (by apply prefix_app_r).
  assert (length h1 = S (length h)) as L1 by (unfold h1; rewrite length_app; simpl; lia).
  assert (length h2 = S (length h1)) as L2 by (unfold h2; rewrite length_app; simpl; lia).
  assert (length h3 = S (length h2)) as L3 by (unfold h3; rewrite length_app; simpl; lia).
  destruct (copyPlacements_spec refs0 h3 os) as (h4 & refs & Hcopy & P4 & Hall & Hin & Hdis).
  { apply (placements_prefix h); [|done]. by do 2 (etrans; [|done]). }
  rewrite Hcopy. simpl.
  set (h5 := h4 ++ [HObjects refs]).
  set (h6 := h5 ++ [HBoard (length h) (length h1) (length h2) (length h4)]).
  assert (h4 `prefix_of` h5) as P5 by (by apply prefix_app_r).
  assert (h5 `prefix_of` h6) as P6 by (by apply prefix_app_r).
  assert (length h5 = S (length h4)) as L5 by (unfold h5; rewrite length_app; simpl; lia).
  pose proof (prefix_length _ _ P4) as L4.
  exists h6, (length h5), (length h), (length h1), (length h2), (length h4), refs.
  split; [done|]. split.
  - by do 5 (etrans; [|done]).
  - unfold h6. by rewrite lookup_app_r, Nat.sub_diag by lia.
  - apply (lookup_prefix h1); [by do 4 (etrans; [|done])|].
    unfold h1. by rewrite lookup_app_r, Nat.sub_diag by lia.
  - apply (lookup_prefix h2); [by do 3 (etrans; [|done])|].
    unfold h2. by rewrite lookup_app_r, Nat.sub_diag by lia.
  - apply (lookup_prefix h3); [by do 2 (etrans; [|done])|].
    unfold h3. by rewrite lookup_app_r, Nat.sub_diag by lia.
  - apply (lookup_prefix h5); [done|].
    unfold h5. by rewrite lookup_app_r, Nat.sub_diag by lia.
  - apply (placements_prefix h4); [by etrans|done].
  - repeat constructor; lia.
  - rewrite !NoDup_cons, !not_elem_of_cons. repeat split; try lia; try apply not_elem_of_nil.
    apply NoDup_nil_2.
  - intros i r Hr. apply Hin in Hr. rewrite !not_elem_of_cons. repeat split; try lia.
    apply not_elem_of_nil.
  - done.
Qed.

Lemma arr_get_Some {A} (a : array A) (i : nat) (v : A) :
  arr_get a i = Some v <-> a !! i = Some (Some v).
Proof.
  unfold arr_get. destruct (a !! i) as [[x|]|]; simpl; split; intros H; by simplify_eq.
Qed.

Lemma arr_set_lookup {A} (a : array A) (i j : nat) (v w : A) :
  arr_set a i v !! j = Some (Some w) ->
  (j = i /\ w = v) \/ (j <> i /\ a !! j = Some (Some w)).
Proof.
  rewrite <- !arr_get_Some. destruct (decide (i = j)) as [->|Hne].
  - rewrite arr_get_set_eq. intros [= <-]. by left.
  - rewrite arr_get_set_ne by done. intros. right. split; [congruence|done].
Qed.

(** Writing the same index of two arrays that correspond slot by slot. *)
Lemma Forall2_arr_set {A B} (P : option A -> option B -> Prop)
    (a : array A) (b : array B) (i : nat) (v : A) (w : B) :
  Forall2 P a b -> P (Some v) (Some w) -> P None None ->
  Forall2 P (arr_set a i v) (arr_set b i w).
Proof.
  intros Hall Hvw Hnone. unfold arr_set. rewrite <- (Forall2_length _ _ _ Hall).
  case_decide.
  - by apply Forall2_insert.
  - apply Forall2_app; [done|]. apply Forall2_app; [|by constructor].
    by apply Forall2_replicate.
Qed.

Lemma placements_same (h h' : heap) (a : array ref) (os : array ObjectPlacement) :
  (forall i r, a !! i = Some (Some r) -> placementAt h' r = placementAt h r) ->
  Forall2 (fun slot o => slotAt h slot = Some o) a os ->
  Forall2 (fun slot o => slotAt h' slot = Some o) a os.
Proof.
  intros Hsame Hall. apply Forall2_same_length_lookup. split; [by eapply Forall2_length|].
  intros i slot o Hs Ho.
  pose proof (Forall2_lookup_lr _ _ _ _ _ _ Hall Hs Ho) as Hslot. simpl in Hslot.
  destruct slot as [r|]; [|exact Hslot]. simpl in *. by rewrite (Hsame i r).
Qed.

Lemma owns_bound h0 h next b rc rh rv ro refs :
  owns h0 h next b rc rh rv ro refs ->
  (next < length h /\ rc < length h /\ rh < length h /\ rv < length h /\ ro < length h)%nat /\
  (forall i r, refs !! i = Some (Some r) -> (r < length h)%nat).
Proof.
  intros []. split.
  - repeat split; by eapply lookup_lt_Some.
  - intros i r Hr.
    destruct (Forall2_lookup_l _ _ _ _ _ own_placements0 Hr) as (o & _ & Ho).
    simpl in Ho. unfold placementAt in Ho.
    destruct (h !! r) as [x|] eqn:E; [by eapply lookup_lt_Some|]. by simplify_option_eq.
Qed.

(** Assigning to one of the four arrays of the owned board. *)
Ltac owns_array_write :=
  let Hown := fresh "Hown" in
  intros Hown;
  pose proof (owns_bound _ _ _ _ _ _ _ _ _ Hown) as [(? & ? & ? & ? & ?) ?];
  destruct Hown as [? ? ? ? ? ? Hpl Hnew Hap Hrn ?];
  pose proof (apart5 _ _ _ _ _ Hap);
  pose proof Hnew as Hnew';
  rewrite !Forall_cons in Hnew';
  split; simpl;
  first [ done
        | apply prefix_insert_new; [done|intuition]
        | by rewrite list_lookup_insert_eq
        | rewrite list_lookup_insert_ne; [done|intuition]
        | idtac ];
  eapply placements_same; [|exact Hpl];
  let i := fresh "i" in let r := fresh "r" in let Hr := fresh "Hr" in
  intros i r Hr; unfold placementAt;
  rewrite list_lookup_insert_ne; [done|];
  destruct (Hrn i r Hr) as [_ Hnot]; rewrite !not_elem_of_cons in Hnot; intuition.

Lemma owns_write_cells h0 h next b rc rh rv ro refs a :
  owns h0 h next b rc rh rv ro refs ->
  owns h0 (<[rc := HCells a]> h) next (set_cells b a) rc rh rv ro refs.
Proof. owns_array_write. Qed.

Lemma owns_write_hEdges h0 h next b rc rh rv ro refs a :
  owns h0 h next b rc rh rv ro refs ->
  owns h0 (<[rh := HEdges a]> h) next (set_hEdges b a) rc rh rv ro refs.
Proof. owns_array_write. Qed.

Lemma owns_write_vEdges h0 h next b rc rh rv ro refs a :
  owns h0 h next b rc rh rv ro refs ->
  owns h0 (<[rv := HEdges a]> h) next (set_vEdges b a) rc rh rv ro refs.
Proof. owns_array_write. Qed.

Lemma owns_storePlacement h0 h next b rc rh rv ro refs i o :
  owns h0 h next b rc rh rv ro refs ->
  owns h0 (storePlacement h ro refs i o) next
    (set_objects b (arr_set (objects b) i o)) rc rh rv ro (arr_set refs i (length h)).
Proof.
  intros Hown.
  pose proof (owns_bound _ _ _ _ _ _ _ _ _ Hown) as [(? & ? & ? & ? & ?) Hlt].
  destruct Hown as [Hpre ? ? ? ? ? Hpl Hnew Hap Hrn Hdis].
  pose proof (apart5 _ _ _ _ _ Hap).
  pose proof Hnew as Hnew'. rewrite !Forall_cons in Hnew'.
  pose proof (prefix_length _ _ Hpre) as Hlen.
  unfold storePlacement, new.
  assert (forall r x, (r < length h)%nat -> r <> ro ->
            <[ro := x]> (h ++ [HPlacement o]) !! r = h !! r) as Hold.
  { intros r x Hr Hne. rewrite list_lookup_insert_ne by done. by rewrite lookup_app_l. }
  split; simpl.
  - apply prefix_insert_new; [|intuition]. etrans; [done|]. by apply prefix_app_r.
  - rewrite Hold; [done..|]. intuition.
  - rewrite Hold; [done..|]. intuition.
  - rewrite Hold; [done..|]. intuition.
  - rewrite Hold; [done..|]. intuition.
  - rewrite list_lookup_insert_eq; [done|]. rewrite length_app. lia.
  - apply Forall2_arr_set; [| |done].
    + eapply placements_same; [|exact Hpl]. intros j r Hr. unfold placementAt.
      rewrite Hold; [done|by eapply Hlt|].
      destruct (Hrn j r Hr) as [_ Hnot]. rewrite !not_elem_of_cons in Hnot. intuition.
    + simpl. unfold placementAt. rewrite list_lookup_insert_ne by lia.
      by rewrite lookup_app_r, Nat.sub_diag by lia.
  - done.
  - done.
  - intros j r [[-> ->]|[_ Hr]]%arr_set_lookup; [|by eapply Hrn].
    split; [lia|]. rewrite !not_elem_of_cons. repeat split; try lia. apply not_elem_of_nil.
  - intros j k r [[-> ->]|[? Hj]]%arr_set_lookup [[-> Hk]|[? Hk]]%arr_set_lookup; try done.
    + apply Hlt in Hk. lia.
    + apply Hlt in Hj. lia.
    + by eapply Hdis.
Qed.

Lemma owns_write_placement h0 h next b rc rh rv ro refs i r o :
  owns h0 h next b rc rh rv ro refs ->
  arr_get refs i = Some r ->
  owns h0 (<[r := HPlacement o]> h) next
    (set_objects b (arr_set (objects b) i o)) rc rh rv ro refs.
Proof.
  intros Hown Hi. apply arr_get_Some in Hi.
  pose proof (owns_bound _ _ _ _ _ _ _ _ _ Hown) as [(? & ? & ? & ? & ?) Hlt].
  destruct Hown as [Hpre ? ? ? ? ? Hpl Hnew Hap Hrn Hdis].
  destruct (Hrn i r Hi) as [Hge Hnot]. rewrite !not_elem_of_cons in Hnot.
  split; simpl;
    first [ done
          | apply prefix_insert_new; [done|intuition]
          | rewrite list_lookup_insert_ne; [done|intuition]
          | idtac ].
  assert (i < length (objects b))%nat as Hin.
  { rewrite <- (Forall2_length _ _ _ Hpl). by eapply lookup_lt_Some. }
  unfold arr_set. rewrite decide_True by done.
  apply Forall2_same_length_lookup. split.
  { rewrite length_insert. by eapply Forall2_length. }
  intros j slot o' Hs Ho.
  destruct (decide (j = i)) as [->|Hne].
  - rewrite list_lookup_insert_eq in Ho by done. injection Ho as <-.
    rewrite Hi in Hs. injection Hs as <-. simpl. unfold placementAt.
    rewrite list_lookup_insert_eq; [done|by eapply Hlt].
  - rewrite list_lookup_insert_ne in Ho by done.
    pose proof (Forall2_lookup_lr _ _ _ _ _ _ Hpl Hs Ho) as Hslot. simpl in Hslot.
    rewrite slotAt_insert_ne; [done|].
    intros ->. apply Hne. by eapply Hdis.
Qed.

(** Objects of the store that existed before are read the same afterwards. *)
Lemma readBoard_prefix (h h' : heap) (r : ref) (b : BoardState) :
  h `prefix_of` h' -> readBoard h r = Some b -> readBoard h' r = Some b.
Proof.
  intros Hp. unfold readBoard, boardAt, cellsAt, edgesAt, objectsAt, readPlacements.
  destruct (h !! r) as [[| | | |rc rh rv ro]|] eqn:Er; try done.
  rewrite (lookup_prefix h h' r _ Hp Er). simpl.
  destruct (h !! rc) as [[ac| | | |]|] eqn:Ec; try done.
  rewrite (lookup_prefix h h' rc _ Hp Ec). simpl.
  destruct (h !! rh) as [[|ah| | |]|] eqn:Eh; try done.
  rewrite (lookup_prefix h h' rh _ Hp Eh). simpl.
  destruct (h !! rv) as [[|av| | |]|] eqn:Ev; try done.
  rewrite (lookup_prefix h h' rv _ Hp Ev). simpl.
  destruct (h !! ro) as [[| |refs| |]|] eqn:Eo; try done.
  rewrite (lookup_prefix h h' ro _ Hp Eo). simpl.
  destruct (mapM (slotAt h) refs) as [os|] eqn:Eos; [|done]. simpl.
  apply mapM_Some in Eos. apply (placements_prefix h h') in Eos; [|done].
  apply mapM_Some in Eos. by rewrite Eos.
Qed.

Lemma boardUpdaterH_sim cfg s pick h prev b :
  readBoard h prev = Some b ->
  exists h' ret,
    boardUpdaterH cfg pick h prev = Some (h', ret) /\
    h `prefix_of` h' /\
    agrees h' (length h) (boardUpdater cfg s pick b).1 ret.
Proof.
  intros Hread.
  destruct (copyBoardH_spec h prev b Hread)
    as (h1 & next & rc & rh & rv & ro & refs & Hcopy & Hown).
  assert (length h <= next)%nat as Hnext.
  { destruct Hown. by apply Forall_cons in own_new0 as [? _]. }
  unfold boardUpdaterH, boardUpdater. rewrite Hcopy, copyBoard_eq. simpl.
  unfold boardAt, cellsAt, edgesAt, objectsAt.
  rewrite (own_board _ _ _ _ _ _ _ _ _ Hown). simpl.
  destruct pick as [x y|d x y].
  - destruct (mode cfg).
    + rewrite (own_cells _ _ _ _ _ _ _ _ _ Hown). simpl.
      apply (owns_write_cells _ _ _ _ _ _ _ _ _ (arr_set (cells b) (idxCell x y) (cellBrush cfg)))
        in Hown.
      rewrite (own_objects _ _ _ _ _ _ _ _ _ Hown). simpl.
      rewrite (owns_slot _ _ _ _ _ _ _ _ _ (idxCell x y) Hown). simpl.
      case_decide.
      * eexists _, _. split; [done|].
        apply (owns_storePlacement _ _ _ _ _ _ _ _ _ (idxCell x y) noObject) in Hown.
        split; [by destruct Hown|]. split; [by eapply owns_readBoard|done].
      * eexists _, _. split; [done|].
        split; [by destruct Hown|]. split; [by eapply owns_readBoard|done].
    + eexists _, _. split; [done|]. split; [by destruct Hown|done].
    + rewrite (own_objects _ _ _ _ _ _ _ _ _ Hown). simpl.
      destruct (decide (objectBrush cfg = Light)).
      * rewrite (owns_slot _ _ _ _ _ _ _ _ _ (idxCell x y) Hown). simpl.
        eexists _, _. split; [done|].
        eapply (owns_storePlacement _ _ _ _ _ _ _ _ _ (idxCell x y)) in Hown.
        split; [by destruct Hown|]. split; [by eapply owns_readBoard|done].
      * rewrite (own_cells _ _ _ _ _ _ _ _ _ Hown). simpl.
        destruct (decide (objectBrush cfg = Bridge /\ _)).
        { eexists _, _. split; [done|]. split; [by destruct Hown|done]. }
        destruct (decide (objectBrush cfg = NoObj)).
        { eexists _, _. split; [done|].
          eapply (owns_storePlacement _ _ _ _ _ _ _ _ _ (idxCell x y)) in Hown.
          split; [by destruct Hown|]. split; [by eapply owns_readBoard|done]. }
        pose proof (owns_slot _ _ _ _ _ _ _ _ _ (idxCell x y) Hown) as Hslot.
        destruct (arr_get refs (idxCell x y)) as [r|] eqn:Hr; simpl in Hslot.
        -- destruct (placementAt h1 r) as [o|] eqn:Ho; [|done]. injection Hslot as <-.
           simpl. destruct (decide (type o = objectBrush cfg)).
           ++ eexists _, _. split; [done|].
              eapply (owns_write_placement _ _ _ _ _ _ _ _ _ (idxCell x y) r) in Hown; [|done].
              split; [by destruct Hown|]. split; [by eapply owns_readBoard|done].
           ++ eexists _, _. split; [done|].
              eapply (owns_write_placement _ _ _ _ _ _ _ _ _ (idxCell x y) r) in Hown; [|done].
              split; [by destruct Hown|]. split; [by eapply owns_readBoard|done].
        -- injection Hslot as <-. eexists _, _. split; [done|]. split; [by destruct Hown|done].
  - destruct (decide (mode cfg <> Edges)).
    { eexists _, _. split; [done|]. split; [by destruct Hown|done]. }
    destruct d.
    + rewrite (own_hEdges _ _ _ _ _ _ _ _ _ Hown). simpl.
      eexists _, _. split; [done|].
      eapply owns_write_hEdges in Hown.
      split; [by destruct Hown|]. split; [by eapply owns_readBoard|done].
    + rewrite (own_vEdges _ _ _ _ _ _ _ _ _ Hown). simpl.
      eexists _, _. split; [done|].
      eapply owns_write_vEdges in Hown.
      split; [by destruct Hown|]. split; [by eapply owns_readBoard|done].
Qed.

(** ** Rejected edits *)

(** The updater on values returns [prev] for a rejected edit. *)
Lemma boardUpdater_rejects cfg s pick :
  rejects cfg (board s) pick ->
  (boardUpdater cfg s pick (board s)).1 = ReturnedPrev.
Proof.
  intros Hrej. unfold boardUpdater. rewrite copyBoard_eq.
  destruct pick as [x y|d x y]; simpl in Hrej.
  - destruct Hrej as [E|(E1 & E2 & E3 & E4)].
    + by rewrite E.
    + rewrite E1. rewrite decide_False by congruence. by rewrite decide_True.
  - by rewrite decide_True.
Qed.

(** C2. Whenever the edit engine rejects an edit (bridge brush on terrain that
    is neither water nor pit, a cell pick in edges mode, an edge pick outside
    edges mode), the updater returns the previous state itself and the board
    of the session is the board from before the attempt.  On a store holding
    the previous state at [prev], the reference returned is [prev], not the
    candidate copy; every object the store held before is untouched, and
    [prev] still stands for the same board. *)
Theorem rejected_edit_returns_prev cfg s pick h prev :
  readBoard h prev = Some (board s) ->
  rejects cfg (board s) pick ->
  (applyPick cfg s pick).1 = ReturnedPrev /\
  board (applyPick cfg s pick).2 = board s /\
  exists h',
    boardUpdaterH cfg pick h prev = Some (h', RPrev) /\
    h `prefix_of` h' /\
    readBoard h' prev = Some (board s).
Proof.
  intros Hread Hrej.
  pose proof (boardUpdater_rejects cfg s pick Hrej) as Hup.
  assert ((applyPick cfg s pick).1 = ReturnedPrev) as Hret.
  { rewrite applyPick_updater.
    - by destruct (boardUpdater cfg s pick (board s)) as [[] ?].
    - destruct pick as [x y|d x y]; simpl in Hrej; [|right; by left].
      destruct Hrej as [E|(E1 & E2 & _)]; [left|right; right]; congruence. }
  split; [done|]. split; [by rewrite applyPick_board, Hret|].
  destruct (boardUpdaterH_sim cfg s pick h prev (board s) Hread)
    as (h' & ret & Hrun & Hpre & Hag).
  rewrite Hup in Hag. destruct ret; try done.
  exists h'. split; [done|]. split; [done|]. by eapply readBoard_prefix.
Qed.

Lemma rejected_edit_returns_prev_witness :
  (applyPick bridgeTool initialSession (PickCell 1 1)).1 = ReturnedPrev /\
  board (applyPick bridgeTool initialSession (PickCell 1 1)).2 = board initialSession /\
  exists h',
    boardUpdaterH bridgeTool (PickCell 1 1) emptyStore 20 = Some (h', RPrev) /\
    emptyStore `prefix_of` h' /\
    readBoard h' 20 = Some (board initialSession).
Proof.
  apply (rejected_edit_returns_prev bridgeTool initialSession (PickCell 1 1) emptyStore 20).
  - reflexivity.
  - right. repeat split; vm_compute; congruence.
Defined.

(** * Further properties *)

(** ** Grid addressing *)

(** X1. [idxCell] numbers the cells of the grid: on coordinates of the grid
    it stays below [W * H], distinct cells get distinct indices, and
    [(idx % W, floor(idx / W))], the decoding the light list uses, is its
    inverse in both directions. *)
Theorem idxCell_bijection :
  (forall x y, (x < GRID_W)%nat -> (y < GRID_H)%nat ->
     (idxCell x y < GRID_W * GRID_H)%nat /\
     (idxCell x y mod GRID_W)%nat = x /\ (idxCell x y / GRID_W)%nat = y) /\
  (forall x y x' y', (x < GRID_W)%nat -> (x' < GRID_W)%nat ->
     idxCell x y = idxCell x' y' -> x = x' /\ y = y') /\
  (forall i, (i < GRID_W * GRID_H)%nat ->
     (i mod GRID_W < GRID_W)%nat /\ (i / GRID_W < GRID_H)%nat /\
     idxCell (i mod GRID_W)%nat (i / GRID_W)%nat = i).
Proof.
  unfold idxCell, GRID_W, GRID_H. split; [|split].
  - intros x y Hx Hy. split; [lia|]. split.
    + rewrite Nat.add_comm, Nat.Div0.mod_add. by apply Nat.mod_small.
    + rewrite Nat.add_comm, Nat.div_add by lia. rewrite Nat.div_small by lia. lia.
  - intros x y x' y' Hx Hx' Heq. lia.
  - intros i Hi. pose proof (Nat.div_mod_eq i 4). pose proof (Nat.mod_upper_bound i 4).
    split; [lia|]. split; [|lia]. apply Nat.Div0.div_lt_upper_bound. lia.
Qed.

Lemma idxCell_bijection_witness :
  (idxCell 3 2 < GRID_W * GRID_H)%nat /\ (idxCell 3 2 mod GRID_W)%nat = 3%nat /\
  (idxCell 3 2 / GRID_W)%nat = 2%nat.
Proof. apply (proj1 idxCell_bijection); vm_compute; lia. Defined.

(** X2. Edge addressing: a horizontal edge [(x, y)] with [x < W], [y <= H]
    and a vertical edge [(x, y)] with [x <= W], [y < H] get an index below the
    length of their array, [(H + 1) * W] and [H * (W + 1)], and distinct edges
    of one direction get distinct indices. *)
Theorem edge_indices_in_range_and_distinct :
  (forall x y, (x < GRID_W)%nat -> (y <= GRID_H)%nat ->
     (idxHEdge x y < (GRID_H + 1) * GRID_W)%nat) /\
  (forall x y, (x <= GRID_W)%nat -> (y < GRID_H)%nat ->
     (idxVEdge x y < GRID_H * (GRID_W + 1))%nat) /\
  (forall x y x' y', (x < GRID_W)%nat -> (x' < GRID_W)%nat ->
     idxHEdge x y = idxHEdge x' y' -> x = x' /\ y = y') /\
  (forall x y x' y', (x <= GRID_W)%nat -> (x' <= GRID_W)%nat ->
     idxVEdge x y = idxVEdge x' y' -> x = x' /\ y = y').
Proof. unfold idxHEdge, idxVEdge, GRID_W, GRID_H. repeat split; lia. Qed.

Lemma edge_indices_in_range_and_distinct_witness :
  (idxHEdge 3 4 < (GRID_H + 1) * GRID_W)%nat /\ (idxVEdge 4 3 < GRID_H * (GRID_W + 1))%nat.
Proof.
  split.
  - apply (proj1 edge_indices_in_range_and_distinct); vm_compute; lia.
  - apply (proj1 (proj2 edge_indices_in_range_and_distinct)); vm_compute; lia.
Defined.

(** X3. [clamp(n, a, b)] with [a <= b] is the point of [[a, b]] nearest to
    [n]: it lies within the bounds, is [n] itself when [n] does, [a] below and
    [b] above, and clamping twice changes nothing.  With the bounds swapped
    ([b < a]) the result is always the first bound [a]. *)
Theorem clamp_nearest (n a b : number) :
  (a <= b ->
   (a <= clamp n a b /\ clamp n a b <= b) /\
   (a <= n -> n <= b -> clamp n a b = n) /\
   (n < a -> clamp n a b = a) /\
   (b < n -> clamp n a b = b) /\
   clamp (clamp n a b) a b = clamp n a b) /\
  (b < a -> clamp n a b = a).
Proof.
  split.
  - intros Hab. pose proof (clamp_bounds n a b Hab) as [H1 H2].
    split; [done|]. split; [by apply clamp_id|].
    split; [|split; [|by apply clamp_id]].
    + intros Hn. unfold clamp, Math_max, Math_min.
      rewrite (decide_True (P := n < b)) by exact (Qclt_le_trans _ _ _ Hn Hab).
      rewrite decide_False; [done|]. by apply Qcle_not_lt, Qclt_le_weak.
    + intros Hn. unfold clamp, Math_max, Math_min.
      rewrite (decide_False (P := n < b)) by (by apply Qcle_not_lt, Qclt_le_weak).
      case_decide as H4; [done|]. apply Qcle_antisym; [done|by apply Qcnot_lt_le].
  - intros Hba. unfold clamp, Math_max, Math_min.
    destruct (decide (n < b)) as [H1|H1].
    + rewrite decide_False; [done|]. intros H2. apply (Qclt_not_le _ _ Hba).
      apply Qclt_le_weak. by eapply Qclt_trans.
    + rewrite decide_False; [done|]. intros H2.
      by apply (Qclt_not_le _ _ Hba), Qclt_le_weak.
Qed.

Lemma clamp_nearest_witness :
  clamp (num 7) (num 0) (num 3) = num 3 /\ clamp (num 7) (num 3) (num 0) = num 3.
Proof.
  split.
  - apply (proj1 (clamp_nearest (num 7) (num 0) (num 3))); by vm_compute.
  - apply (proj2 (clamp_nearest (num 7) (num 3) (num 0))). by vm_compute.
Defined.

(** ** Picking and the scene *)

(** Case analysis on a natural number known to be below a bound. *)
Ltac enum_nat x n :=
  lazymatch n with
  | O => exfalso; lia
  | S ?m => destruct x as [|x]; [|enum_nat x m]
  end.

(** X4. Whatever the hit point, on or off the board, the pick addresses an
    entry of the array it is for: a cell index below [W * H], an edge index
    below the length of the edge array.  So a click never changes the length of
    an array of a well-formed board nor leaves a hole in it. *)
Theorem click_stays_in_bounds :
  (forall mode p,
     match pickFromMouse mode p with
     | PickCell x y => (idxCell x y < GRID_W * GRID_H)%nat
     | PickEdge DirH x y => (idxHEdge x y < (GRID_H + 1) * GRID_W)%nat
     | PickEdge DirV x y => (idxVEdge x y < GRID_H * (GRID_W + 1))%nat
     end) /\
  (forall cfg s p,
     board_wf (board s) ->
     board_wf (board (applyPick cfg s (pickFromMouse (mode cfg) p)).2)).
Proof.
  split.
  - intros mode p. pose proof (pickFromMouse_valid mode p) as Hv.
    destruct (pickFromMouse mode p) as [x y|[] x y]; simpl in Hv;
      unfold idxCell, idxHEdge, idxVEdge, GRID_W, GRID_H in *; lia.
  - intros cfg s p Hwf. rewrite applyPick_board.
    destruct ((applyPick cfg s _).1) as [| |next|] eqn:Hret; simpl; try done.
    unfold applyPick in Hret. destruct (_ && _ && _ && _).
    { by destruct (decide (_ ∈ _)). }
    pose proof (boardUpdater_wf cfg s (pickFromMouse (mode cfg) p) (board s)) as Hup.
    destruct (boardUpdater cfg s _ (board s)) as [[] s']; simplify_eq/=.
    apply Hup; [apply pickFromMouse_valid|done..].
Qed.

Lemma click_stays_in_bounds_witness :
  board_wf (board (applyPick (cellTool Pit) initialSession
                     (pickFromMouse Cells {| px := num 9; pz := num (-9) |})).2).
Proof.
  apply (proj2 click_stays_in_bounds (cellTool Pit) initialSession).
  apply makeEmptyState_wf.
Defined.

(** X5. Picking inverts tile placement: the point at which the scene puts the
    tile of cell [(x, y)] is picked as the cell [(x, y)] in every tool mode,
    edges mode included. *)
Theorem pick_at_tile_position mode x y :
  (x < GRID_W)%nat -> (y < GRID_H)%nat ->
  pickFromMouse mode (tilePosition x y) = PickCell x y.
Proof.
  unfold GRID_W, GRID_H. intros Hx Hy.
  enum_nat x 4%nat; enum_nat y 4%nat; destruct mode; by vm_compute.
Qed.

Lemma pick_at_tile_position_witness :
  pickFromMouse Edges (tilePosition 3 0) = PickCell 3 0.
Proof. apply pick_at_tile_position; vm_compute; lia. Defined.

(** X6. Picking inverts edge placement: in edges mode the point at which the
    scene puts the mesh of a horizontal edge [(x, y)], [x < W], [y <= H], is
    picked as that horizontal edge, and the point of a vertical edge [(x, y)],
    [x <= W], [y < H], as that vertical edge; the edges on the far border
    ([y = H], [x = W]) are reached from the last row and column. *)
Theorem pick_at_edge_position :
  (forall x y, (x < GRID_W)%nat -> (y <= GRID_H)%nat ->
     pickFromMouse Edges (hEdgePosition x y) = PickEdge DirH x y) /\
  (forall x y, (x <= GRID_W)%nat -> (y < GRID_H)%nat ->
     pickFromMouse Edges (vEdgePosition x y) = PickEdge DirV x y).
Proof.
  unfold GRID_W, GRID_H. split; intros x y Hx Hy;
    enum_nat x 5%nat; enum_nat y 5%nat; try (exfalso; lia); by vm_compute.
Qed.

Lemma pick_at_edge_position_witness :
  pickFromMouse Edges (hEdgePosition 1 4) = PickEdge DirH 1 4 /\
  pickFromMouse Edges (vEdgePosition 4 2) = PickEdge DirV 4 2.
Proof.
  split.
  - apply (proj1 pick_at_edge_position); vm_compute; lia.
  - apply (proj2 pick_at_edge_position); vm_compute; lia.
Defined.

(** ** Edit engine: rotation *)

Lemma arr_set_set {A} (a : array A) (i : nat) (v w : A) :
  arr_set (arr_set a i v) i w = arr_set a i w.
Proof.
  unfold arr_set. destruct (decide (i < length a)%nat) as [Hin|Hout].
  - rewrite length_insert, decide_True by done. by rewrite list_insert_insert_eq.
  - rewrite decide_True by (rewrite !length_app, length_replicate; simpl; lia).
    rewrite insert_app_r_alt by lia.
    rewrite insert_app_r_alt by (rewrite length_replicate; lia).
    rewrite length_replicate.
    by replace (i - length a - (i - length a))%nat with 0%nat by lia.
Qed.

Lemma arr_set_same {A} (a : array A) (i : nat) (v : A) :
  arr_get a i = Some v -> arr_set a i v = a.
Proof.
  intros Hv. pose proof (arr_get_Some_lt a i v Hv). apply arr_get_Some in Hv.
  unfold arr_set. rewrite decide_True by done. by apply list_insert_id.
Qed.

(** One click of a brush that matches the object of the cell. *)
Lemma rotate_once cfg s x y o :
  mode cfg = Objects ->
  objectBrush cfg <> Light -> objectBrush cfg <> NoObj ->
  (objectBrush cfg = Bridge ->
   arr_get (cells (board s)) (idxCell x y) = Some Water \/
   arr_get (cells (board s)) (idxCell x y) = Some Pit) ->
  arr_get (objects (board s)) (idxCell x y) = Some o ->
  type o = objectBrush cfg ->
  board (applyPick cfg s (PickCell x y)).2 =
    set_objects (board s) (arr_set (objects (board s)) (idxCell x y) (turned o)).
Proof.
  intros Hm HL HN HB Ho Ht.
  rewrite applyPick_board, applyPick_updater by (right; by right).
  unfold boardUpdater. rewrite copyBoard_eq, Hm.
  rewrite (decide_False (P := objectBrush cfg = Light)) by done.
  rewrite decide_False by (intros (Hb & H1 & H2); destruct (HB Hb); congruence).
  rewrite (decide_False (P := objectBrush cfg = NoObj)) by done.
  rewrite Ho. rewrite decide_True by done. done.
Qed.

(** X7. Rotation law.  In objects mode, with a brush other than the light
    brush and the eraser, and for the bridge brush on a water or pit cell
    only: clicking a cell whose object already has the type of the brush turns
    that object by 90 degrees and changes nothing else of the board; when the
    rotation is one of 0, 90, 180, 270 the turned rotation is a different one
    of these, and four clicks give back the board from before. *)
Theorem rotation_cycle cfg s x y o :
  mode cfg = Objects ->
  objectBrush cfg <> Light -> objectBrush cfg <> NoObj ->
  (objectBrush cfg = Bridge ->
   arr_get (cells (board s)) (idxCell x y) = Some Water \/
   arr_get (cells (board s)) (idxCell x y) = Some Pit) ->
  arr_get (objects (board s)) (idxCell x y) = Some o ->
  type o = objectBrush cfg ->
  rotation_ok (rotation o) ->
  let click s := (applyPick cfg s (PickCell x y)).2 in
  board (click s) =
    set_objects (board s) (arr_set (objects (board s)) (idxCell x y) (turned o)) /\
  rotation_ok (rotation (turned o)) /\ rotation (turned o) <> rotation o /\
  board (click (click (click (click s)))) = board s.
Proof.
  intros Hm HL HN HB Ho Ht Hr click.
  assert (forall s' o', cells (board s') = cells (board s) ->
            arr_get (objects (board s')) (idxCell x y) = Some o' -> type o' = type o ->
            board (click s') =
              set_objects (board s') (arr_set (objects (board s')) (idxCell x y) (turned o')))
    as Hstep.
  { intros s' o' Hc Ho' Ht'. apply rotate_once; try done; [by rewrite Hc|congruence]. }
  split; [by apply Hstep|].
  split; [unfold turned, rotation_ok; simpl; destruct Hr as [E|[E|[E|E]]]; rewrite E;
          vm_compute; auto|].
  split; [destruct Hr as [E|[E|[E|E]]]; simpl; rewrite E; done|].
  pose proof (Hstep s o eq_refl Ho eq_refl) as H1.
  assert (arr_get (objects (board (click s))) (idxCell x y) = Some (turned o)) as G1
    by (rewrite H1; apply arr_get_set_eq).
  pose proof (Hstep (click s) (turned o) ltac:(by rewrite H1) G1 eq_refl) as H2.
  assert (arr_get (objects (board (click (click s)))) (idxCell x y)
          = Some (turned (turned o))) as G2 by (rewrite H2; apply arr_get_set_eq).
  pose proof (Hstep (click (click s)) (turned (turned o))
                ltac:(by rewrite H2, H1) G2 eq_refl) as H3.
  assert (arr_get (objects (board (click (click (click s))))) (idxCell x y)
          = Some (turned (turned (turned o)))) as G3 by (rewrite H3; apply arr_get_set_eq).
  pose proof (Hstep (click (click (click s))) (turned (turned (turned o)))
                ltac:(by rewrite H3, H2, H1) G3 eq_refl) as H4.
  rewrite H4, H3, H2, H1. simpl. rewrite !arr_set_set.
  assert (turned (turned (turned (turned o))) = o) as ->.
  { destruct o as [t r l]. unfold turned. simpl in *. f_equal.
    destruct Hr as [E|[E|[E|E]]]; rewrite E; done. }
  rewrite (arr_set_same _ _ _ Ho). unfold set_objects. simpl. by destruct (board s).
Qed.

Lemma rotation_cycle_witness :
  let click s := (applyPick bridgeTool s (PickCell 1 1)).2 in
  let s := click wateredSession in
  board (click s) =
    set_objects (board s) (arr_set (objects (board s)) (idxCell 1 1) (turned placedBridge)) /\
  rotation_ok (rotation (turned placedBridge)) /\
  rotation (turned placedBridge) <> rotation placedBridge /\
  board (click (click (click (click s)))) = board s.
Proof.
  apply (rotation_cycle bridgeTool ((applyPick bridgeTool wateredSession (PickCell 1 1)).2)
           1 1 placedBridge); try done.
  - intros _. left. by vm_compute.
  - by left.
Defined.



(** ** Edit engine: what an edit leaves alone *)

(** X9. An edit touches at most the picked address.  After [applyPick] with a
    cell pick both edge arrays are what they were, every other cell keeps its
    terrain and its object, and outside cells mode the terrain array is
    unchanged altogether.  After an edge pick the terrain, the objects and the
    edge array of the other direction are unchanged, and every other edge of
    the picked direction reads as before. *)
Theorem edit_touches_only_the_pick cfg s :
  (forall x y,
     let b' := board (applyPick cfg s (PickCell x y)).2 in
     hEdges b' = hEdges (board s) /\ vEdges b' = vEdges (board s) /\
     (mode cfg <> Cells -> cells b' = cells (board s)) /\
     (forall j, j <> idxCell x y ->
        arr_get (cells b') j = arr_get (cells (board s)) j /\
        arr_get (objects b') j = arr_get (objects (board s)) j)) /\
  (forall x y,
     let b' := board (applyPick cfg s (PickEdge DirH x y)).2 in
     cells b' = cells (board s) /\ objects b' = objects (board s) /\
     vEdges b' = vEdges (board s) /\
     (forall j, j <> idxHEdge x y -> arr_get (hEdges b') j = arr_get (hEdges (board s)) j)) /\
  (forall x y,
     let b' := board (applyPick cfg s (PickEdge DirV x y)).2 in
     cells b' = cells (board s) /\ objects b' = objects (board s) /\
     hEdges b' = hEdges (board s) /\
     (forall j, j <> idxVEdge x y -> arr_get (vEdges b') j = arr_get (vEdges (board s)) j)).
Proof.
  assert (forall pick, board (applyPick cfg s pick).2 = board s \/
            board (applyPick cfg s pick).2 = board_after (board s)
                                               (boardUpdater cfg s pick (board s)).1) as Hcase.
  { intros pick. rewrite applyPick_board. unfold applyPick.
    destruct (_ && _ && _ && _); [left; by destruct (decide (_ ∈ _))|].
    right. by destruct (boardUpdater cfg s pick (board s)) as [[] ?]. }
  split; [|split].
  - intros x y b'. destruct (Hcase (PickCell x y)) as [E|E]; subst b'; rewrite E; [done|].
    clear E Hcase. unfold boardUpdater. rewrite copyBoard_eq.
    destruct (mode cfg) eqn:Hm.
    + simpl. destruct (decide (_ /\ _)); simpl;
        (do 3 (split; [done|])); intros j Hj; by rewrite ?arr_get_set_ne.
    + done.
    + destruct (decide (objectBrush cfg = Light)).
      { simpl. do 3 (split; [done|]). intros j Hj. by rewrite arr_get_set_ne. }
      destruct (decide (objectBrush cfg = Bridge /\ _)); [done|].
      destruct (decide (objectBrush cfg = NoObj)).
      { simpl. do 3 (split; [done|]). intros j Hj. by rewrite arr_get_set_ne. }
      destruct (arr_get (objects (board s)) (idxCell x y)) as [o|]; [|done].
      destruct (decide (type o = objectBrush cfg)); simpl;
        (do 3 (split; [done|])); intros j Hj; by rewrite arr_get_set_ne.
  - intros x y b'. destruct (Hcase (PickEdge DirH x y)) as [E|E]; subst b'; rewrite E; [done|].
    unfold boardUpdater. rewrite copyBoard_eq.
    destruct (decide (mode cfg <> Edges)); [done|]. simpl.
    do 3 (split; [done|]). intros j Hj. by rewrite arr_get_set_ne.
  - intros x y b'. destruct (Hcase (PickEdge DirV x y)) as [E|E]; subst b'; rewrite E; [done|].
    unfold boardUpdater. rewrite copyBoard_eq.
    destruct (decide (mode cfg <> Edges)); [done|]. simpl.
    do 3 (split; [done|]). intros j Hj. by rewrite arr_get_set_ne.
Qed.

Lemma edit_touches_only_the_pick_witness :
  let b' := board (applyPick bridgeTool wateredSession (PickCell 1 1)).2 in
  cells b' = cells (board wateredSession) /\
  arr_get (objects b') (idxCell 2 2) = arr_get (objects (board wateredSession)) (idxCell 2 2).
Proof.
  destruct (proj1 (edit_touches_only_the_pick bridgeTool wateredSession) 1%nat 1%nat)
    as (_ & _ & Hc & Hj).
  split.
  - apply Hc. discriminate.
  - apply (Hj (idxCell 2 2)). vm_compute. lia.
Defined.

(** X10. No edit writes into the previous state.  On a store holding the
    board at [prev], the updater, for any configuration and pick, only adds
    objects: every object the store held is untouched and [prev] still stands
    for the board from before.  When it returns [next], that is a reference
    that did not exist before the call, and it stands for the value the
    updater on values returns. *)
Theorem updater_copies_before_writing cfg s pick h prev b :
  readBoard h prev = Some b ->
  exists h' ret,
    boardUpdaterH cfg pick h prev = Some (h', ret) /\
    h `prefix_of` h' /\
    readBoard h' prev = Some b /\
    match ret with
    | RPrev => (boardUpdater cfg s pick b).1 = ReturnedPrev
    | RThrew => (boardUpdater cfg s pick b).1 = Threw
    | RNext r =>
      (length h <= r)%nat /\ r <> prev /\
      exists next, (boardUpdater cfg s pick b).1 = ReturnedNext next /\
                   readBoard h' r = Some next
    end.
Proof.
  intros Hread.
  destruct (boardUpdaterH_sim cfg s pick h prev b Hread) as (h' & ret & Hrun & Hpre & Hag).
  exists h', ret. split; [done|]. split; [done|].
  split; [by eapply readBoard_prefix|].
  assert (prev < length h)%nat as Hprev.
  { unfold readBoard, boardAt in Hread. destruct (h !! prev) eqn:E; [|done].
    by eapply lookup_lt_Some. }
  unfold agrees in Hag.
  destruct ((boardUpdater cfg s pick b).1) as [| |next|], ret as [|r|]; try done.
  destruct Hag as [Hr Hle]. split; [done|]. split; [lia|]. by exists next.
Qed.

Lemma updater_copies_before_writing_witness :
  exists h' ret,
    boardUpdaterH (cellTool Water) (PickCell 1 1) emptyStore 20 = Some (h', ret) /\
    emptyStore `prefix_of` h' /\
    readBoard h' 20 = Some makeEmptyState.
Proof.
  destruct (updater_copies_before_writing (cellTool Water) initialSession (PickCell 1 1)
              emptyStore 20 makeEmptyState eq_refl) as (h' & ret & H1 & H2 & H3 & _).
  exists h', ret. exact (conj H1 (conj H2 H3)).
Defined.

(** X11. The only edit that can fail is an object brush other than light and
    eraser, not turned down as a bridge, on a cell whose object slot is empty:
    reading the type of the missing object throws, and the board stays as it
    was.  On a well-formed board no valid pick throws. *)
Theorem updater_throws_only_on_missing_object cfg s pick :
  ((applyPick cfg s pick).1 = Threw <->
   exists x y,
     pick = PickCell x y /\ mode cfg = Objects /\
     objectBrush cfg <> Light /\ objectBrush cfg <> NoObj /\
     ~ (objectBrush cfg = Bridge /\
        arr_get (cells (board s)) (idxCell x y) <> Some Water /\
        arr_get (cells (board s)) (idxCell x y) <> Some Pit) /\
     arr_get (objects (board s)) (idxCell x y) = None) /\
  ((applyPick cfg s pick).1 = Threw -> board (applyPick cfg s pick).2 = board s) /\
  (board_wf (board s) -> valid_pick pick -> (applyPick cfg s pick).1 <> Threw).
Proof.
  assert ((applyPick cfg s pick).1 = Threw <->
          exists x y,
            pick = PickCell x y /\ mode cfg = Objects /\
            objectBrush cfg <> Light /\ objectBrush cfg <> NoObj /\
            ~ (objectBrush cfg = Bridge /\
               arr_get (cells (board s)) (idxCell x y) <> Some Water /\
               arr_get (cells (board s)) (idxCell x y) <> Some Pit) /\
            arr_get (objects (board s)) (idxCell x y) = None) as Hiff.
  { split.
    - intros Hret. unfold applyPick in Hret.
      destruct (_ && _ && _ && _); [by destruct (decide (_ ∈ _))|].
      assert ((boardUpdater cfg s pick (board s)).1 = Threw) as Hup.
      { by destruct (boardUpdater cfg s pick (board s)) as [[] ?]. }
      clear Hret. unfold boardUpdater in Hup. rewrite copyBoard_eq in Hup.
      destruct pick as [x y|d x y].
      + destruct (mode cfg) eqn:Hm.
        * simpl in Hup. by destruct (decide (_ /\ _)).
        * done.
        * destruct (decide (objectBrush cfg = Light)); [done|].
          destruct (decide (objectBrush cfg = Bridge /\ _)); [done|].
          destruct (decide (objectBrush cfg = NoObj)); [done|].
          destruct (arr_get (objects (board s)) (idxCell x y)) as [o|] eqn:Ho.
          { by destruct (decide (type o = objectBrush cfg)). }
          by exists x, y.
      + destruct (decide (mode cfg <> Edges)); [done|]. by destruct d.
    - intros (x & y & -> & Hm & HL & HN & HB & Ho).
      rewrite applyPick_updater by (right; by right).
      unfold boardUpdater. rewrite copyBoard_eq, Hm.
      rewrite (decide_False (P := objectBrush cfg = Light)) by done.
      rewrite decide_False by done.
      rewrite (decide_False (P := objectBrush cfg = NoObj)) by done.
      by rewrite Ho. }
  split; [done|]. split.
  - intros Hret. by rewrite applyPick_board, Hret.
  - intros Hwf Hpick [x [y (-> & _ & _ & _ & _ & Ho)]]%Hiff.
    destruct Hwf as (_ & _ & _ & [Hlen Hall]). simpl in Hpick.
    assert (idxCell x y < length (objects (board s)))%nat as Hi
      by (rewrite Hlen; unfold idxCell, GRID_W, GRID_H in *; lia).
    apply lookup_lt_is_Some in Hi as [slot Hslot].
    pose proof (Forall_lookup_1 _ _ _ _ Hall Hslot) as [o ->].
    unfold arr_get in Ho. by rewrite Hslot in Ho.
Qed.

Lemma updater_throws_only_on_missing_object_witness :
  (applyPick bridgeTool wateredSession (PickCell 1 1)).1 <> Threw.
Proof.
  apply (proj2 (proj2 (updater_throws_only_on_missing_object
                         bridgeTool wateredSession (PickCell 1 1)))).
  - apply (reachable_wf _ wateredSession_reachable).
  - split; vm_compute; lia.
Defined.

(** ** Imported assets: placing and removing *)

Lemma applyPick_asset cfg brush s x y :
  assetPath cfg brush ->
  applyPick cfg s (PickCell x y) = (NotCalled, customUpdater brush s (PickCell x y)).
Proof.
  intros (Hm & Ho & Hb & Hne & Hin). unfold applyPick.
  rewrite Hb. simpl.
  rewrite !bool_decide_eq_true_2 by done. simpl.
  by rewrite decide_True.
Qed.

Lemma list_find_snoc_new {A} (P : A -> Prop) `{!forall x, Decision (P x)} (l : list A) (c : A) :
  Forall (fun x => ~ P x) l -> P c -> list_find P (l ++ [c]) = Some (length l, c).
Proof.
  intros Hall Hc. apply list_find_Some. split; [|split; [done|]].
  - by rewrite lookup_app_r, Nat.sub_diag by lia.
  - intros j y Hj Hlt. rewrite lookup_app_l in Hj by done.
    by eapply (Forall_lookup_1 _ _ _ _ Hall).
Qed.

Lemma delete_snoc {A} (l : list A) (c : A) : delete (length l) (l ++ [c]) = l.
Proof. induction l as [|a l IH]; [done|]. simpl. by rewrite IH. Qed.

(** X12. Placing an asset and picking the cell again.  With a loaded template
    selected and the eraser as object brush, a pick on a cell that holds no
    asset appends one placement with a new id, the template's name, scale 1,
    height 0 and rotation 0, and selects it; the same pick again removes it, so
    the list is what it was and nothing is selected.  The id is spent: the
    counter stays one higher.  The board is untouched throughout. *)
Theorem asset_place_then_remove cfg brush s x y :
  assetPath cfg brush ->
  Forall (fun c => ~ on_cell x y c) (customObjects s) ->
  let s1 := (applyPick cfg s (PickCell x y)).2 in
  let s2 := (applyPick cfg s1 (PickCell x y)).2 in
  customObjects s1 = customObjects s ++ [newPlacement (nextCustomId s) brush x y] /\
  selectedCustomId s1 = Some (num (nextCustomId s)) /\
  nextCustomId s1 = (nextCustomId s + 1)%Z /\
  customObjects s2 = customObjects s /\
  selectedCustomId s2 = None /\
  nextCustomId s2 = (nextCustomId s + 1)%Z /\
  board s1 = board s /\ board s2 = board s.
Proof.
  intros Hpath Hfree s1 s2. subst s1 s2.
  rewrite !(applyPick_asset cfg brush) by done. cbn [snd].
  assert (customUpdater brush s (PickCell x y) =
          setCustomObjects (customObjects s ++ [newPlacement (nextCustomId s) brush x y])
            (setSelectedCustomId (Some (num (nextCustomId s)))
               (setNextCustomId (nextCustomId s + 1) s))) as H1.
  { unfold customUpdater. cbn [pick_x pick_y].
    rewrite (proj2 (list_find_None _ _)); [done|].
    eapply Forall_impl; [exact Hfree|]. intros c Hc. exact Hc. }
  rewrite H1. unfold customUpdater at 1 2 3 4. cbn [pick_x pick_y customObjects setCustomObjects].
  rewrite (list_find_snoc_new (fun c => c_x c = num_of_nat x /\ c_y c = num_of_nat y));
    [|exact Hfree|done].
  cbn [newPlacement c_id selectedCustomId setCustomObjects setSelectedCustomId].
  rewrite decide_True by done. rewrite delete_snoc. done.
Qed.

Lemma asset_place_then_remove_witness :
  let s1 := (applyPick (assetTool "crate") initialSession (PickCell 2 1)).2 in
  let s2 := (applyPick (assetTool "crate") s1 (PickCell 2 1)).2 in
  customObjects s1 = [newPlacement 1 "crate" 2 1] /\ customObjects s2 = [] /\
  nextCustomId s2 = 2%Z.
Proof.
  destruct (asset_place_then_remove (assetTool "crate") "crate" initialSession 2 1)
    as (H1 & _ & _ & H4 & _ & H6 & _).
  - repeat split; discriminate.
  - constructor.
  - exact (conj H1 (conj H4 H6)).
Defined.

(** X13. On an occupied cell the asset pick only removes: the first
    placement of the list that sits on the cell is deleted, whatever template
    it came from, and nothing is added; the id counter does not move, and the
    selection is cleared exactly when it was the removed placement. *)
Theorem asset_pick_on_occupied_cell cfg brush s x y c0 :
  assetPath cfg brush ->
  c0 ∈ customObjects s -> on_cell x y c0 ->
  let s1 := (applyPick cfg s (PickCell x y)).2 in
  exists i c,
    customObjects s !! i = Some c /\ on_cell x y c /\
    (forall j c', customObjects s !! j = Some c' -> (j < i)%nat -> ~ on_cell x y c') /\
    customObjects s1 = delete i (customObjects s) /\
    S (length (customObjects s1)) = length (customObjects s) /\
    nextCustomId s1 = nextCustomId s /\
    selectedCustomId s1 =
      (if decide (Some (c_id c) = selectedCustomId s) then None else selectedCustomId s).
Proof.
  intros Hpath Hin Hon s1. subst s1.
  rewrite (applyPick_asset cfg brush) by done. cbn [snd].
  unfold customUpdater. cbn [pick_x pick_y].
  destruct (list_find _ (customObjects s)) as [[i c]|] eqn:Hfind.
  - apply list_find_Some in Hfind as (Hi & Hc & Hfirst).
    exists i, c. split; [done|]. split; [done|]. split; [done|].
    destruct (decide (Some (c_id c) = selectedCustomId s)); simpl;
      (split; [done|]); (split; [|done]);
      rewrite length_delete by (by eexists); apply lookup_lt_Some in Hi; lia.
  - exfalso. pose proof (proj1 (list_find_None _ _) Hfind) as Hnone.
    rewrite Forall_forall in Hnone. by apply (Hnone c0).
Qed.

Lemma asset_pick_on_occupied_cell_witness :
  exists i c,
    customObjects crateSession !! i = Some c /\
    customObjects (applyPick (assetTool "barrel") crateSession (PickCell 2 1)).2
      = delete i (customObjects crateSession).
Proof.
  destruct (asset_pick_on_occupied_cell (assetTool "barrel") "barrel" crateSession 2 1
              (newPlacement 1 "crate" 2 1)) as (i & c & H1 & _ & _ & H4 & _).
  - repeat split; discriminate.
  - apply elem_of_cons. by left.
  - split; reflexivity.
  - exists i, c. exact (conj H1 H4).
Defined.

(** X14. The two paths of [applyPick] keep apart.  [setBoard] is not called
    exactly when the pick is a cell pick in objects mode with the eraser brush
    and a template selected; then the board and the light selection are
    untouched, and without the template loaded only the status line changes.
    In every other case the placement list and the id counter are untouched. *)
Theorem asset_path_and_board_path cfg s pick :
  ((applyPick cfg s pick).1 = NotCalled <->
   mode cfg = Objects /\ is_cell pick = true /\
   truthy_string (customBrush cfg) = true /\ objectBrush cfg = NoObj) /\
  ((applyPick cfg s pick).1 = NotCalled ->
   board (applyPick cfg s pick).2 = board s /\
   selectedLightCell (applyPick cfg s pick).2 = selectedLightCell s /\
   editingLight (applyPick cfg s pick).2 = editingLight s /\
   (default "" (customBrush cfg) ∉ customTemplates cfg ->
    (applyPick cfg s pick).2 = setStatus "Carica un oggetto prima di piazzarlo." s)) /\
  ((applyPick cfg s pick).1 <> NotCalled ->
   customObjects (applyPick cfg s pick).2 = customObjects s /\
   nextCustomId (applyPick cfg s pick).2 = nextCustomId s).
Proof.
  assert (forall prev, (boardUpdater cfg s pick prev).1 <> NotCalled) as Hnot.
  { intros prev. unfold boardUpdater. repeat case_match; done. }
  assert (forall prev, nextCustomId (boardUpdater cfg s pick prev).2 = nextCustomId s) as Hid.
  { intros prev. unfold boardUpdater. repeat case_match; done. }
  unfold applyPick.
  destruct (bool_decide (mode cfg = Objects)) eqn:E1;
    [apply bool_decide_eq_true_1 in E1|apply bool_decide_eq_false_1 in E1];
  destruct (is_cell pick) eqn:E2;
  destruct (truthy_string (customBrush cfg)) eqn:E3;
  (destruct (bool_decide (objectBrush cfg = NoObj)) eqn:E4;
    [apply bool_decide_eq_true_1 in E4|apply bool_decide_eq_false_1 in E4]);
  cbn [andb].
  1: { destruct (decide (_ ∈ _)) as [Hin|Hout]; cbn [fst snd].
       - split; [done|]. split; [|done]. intros _. unfold customUpdater.
         destruct (list_find _ _) as [[? ?]|]; [|done]. by destruct (decide (_ = _)).
       - split; [done|]. split; [done|done]. }
  all: pose proof (Hnot (board s)) as Hn; pose proof (Hid (board s)) as Hi;
    pose proof (boardUpdater_session_customs cfg s pick (board s)) as Hc;
    destruct (boardUpdater cfg s pick (board s)) as [[] s']; cbn [fst snd] in *;
    (split; [split; [done|intros (? & ? & ? & ?); congruence]|]);
    (split; [done|]); done.
Qed.

Lemma asset_path_and_board_path_witness :
  board (applyPick (assetTool "crate") initialSession (PickCell 2 1)).2 = board initialSession /\
  customObjects (applyPick bridgeTool crateSession (PickCell 1 1)).2 = customObjects crateSession.
Proof.
  split.
  - apply (proj1 (proj2 (asset_path_and_board_path (assetTool "crate") initialSession
                           (PickCell 2 1)))). reflexivity.
  - apply (proj2 (proj2 (asset_path_and_board_path bridgeTool crateSession (PickCell 1 1)))).
    discriminate.
Defined.

(** ** Imported assets: ids *)

Lemma ids_fresh_map (f : CustomPlacement -> CustomPlacement) (cs : list CustomPlacement)
    (s : Session) :
  (forall c, c_id (f c) = c_id c) ->
  ids_fresh (setCustomObjects cs s) -> ids_fresh (setCustomObjects (map f cs) s).
Proof.
  intros Hf [Hnd Hlt]. simpl in *. split; simpl.
  - replace (c_id <$> map f cs) with (c_id <$> cs); [done|].
    clear Hnd Hlt. induction cs as [|c cs IH]; [done|].
    cbn [map]. rewrite !fmap_cons, Hf. by f_equal.
  - apply Forall_fmap. eapply Forall_impl; [exact Hlt|]. intros c Hc. simpl. by rewrite Hf.
Qed.

Lemma ids_fresh_same (s s' : Session) :
  customObjects s' = customObjects s -> nextCustomId s' = nextCustomId s ->
  ids_fresh s -> ids_fresh s'.
Proof. unfold ids_fresh. by intros -> ->. Qed.

Lemma session_eta s : setCustomObjects (customObjects s) s = s.
Proof. by destruct s. Qed.

Lemma customUpdater_ids brush s pick : ids_fresh s -> ids_fresh (customUpdater brush s pick).
Proof.
  intros [Hnd Hlt]. unfold customUpdater.
  destruct (list_find _ _) as [[i c]|] eqn:Hfind.
  - assert (ids_fresh (setCustomObjects (delete i (customObjects s)) s)) as Hdel.
    { split; simpl.
      - rewrite <- (take_drop_middle _ _ _ (proj1 (proj1 (list_find_Some _ _ _ _) Hfind))) in Hnd.
        rewrite delete_take_drop. rewrite fmap_app in *. simpl in Hnd.
        apply NoDup_app in Hnd as (H1 & H2 & H3). apply NoDup_cons in H3 as [_ H3].
        apply NoDup_app. split; [done|]. split; [|done].
        intros a Ha Ha'. apply (H2 a Ha). by right.
      - by apply Forall_delete. }
    by destruct (decide (_ = _)).
  - split; simpl.
    + rewrite fmap_app. simpl. apply NoDup_app. split; [done|]. split; [|apply NoDup_singleton].
      intros a Ha Ha'. apply list_elem_of_singleton in Ha'. subst a.
      apply list_elem_of_fmap in Ha as (c & Hc & Hin).
      rewrite Forall_forall in Hlt. specialize (Hlt c Hin). rewrite <- Hc in Hlt.
      by apply Qclt_not_eq in Hlt.
    + apply Forall_app. split.
      * eapply Forall_impl; [exact Hlt|]. intros c Hc. simpl.
        eapply Qclt_trans; [exact Hc|]. apply num_lt. lia.
      * constructor; [|done]. simpl. apply num_lt. lia.
Qed.

Lemma step_ids s s' : step s s' -> ids_fresh s -> ids_fresh s'.
Proof.
  destruct 1; intros Hids.
  - unfold applyPick. destruct (_ && _ && _ && _).
    + destruct (decide (_ ∈ _)); simpl; [by apply customUpdater_ids|done].
    + pose proof (boardUpdater_session_customs cfg s pick (board s)) as Hc.
      assert (nextCustomId (boardUpdater cfg s pick (board s)).2 = nextCustomId s) as Hn
        by (unfold boardUpdater; repeat case_match; done).
      destruct (boardUpdater cfg s pick (board s)) as [[] s']; cbn [fst snd] in *;
        by apply (ids_fresh_same s).
  - unfold dragMove. apply ids_fresh_map; [|by rewrite session_eta].
    intros c. by destruct (decide (_ = _)).
  - unfold dragScale. apply ids_fresh_map; [|by rewrite session_eta].
    intros c. by destruct (decide (_ = _)).
  - unfold updateSelectedCustom. destruct (selectedCustomId s); [|done].
    apply ids_fresh_map; [|by rewrite session_eta].
    intros c. by destruct (decide (_ = _)).
  - unfold updateSelectedLight. destruct (selectedLightCell s); [|done].
    destruct (arr_get _ _) as [[[] r0 [l0|]]|]; done.
  - done.
  - done.
  - done.
Qed.

(** X15. Asset ids are never shared.  In every session reached from the
    default state by picks, drags, slider and light updates and resets, the
    ids of the placements are pairwise distinct and all below the id counter,
    so that a drag or a slider, which address a placement by id, change one
    placement only. *)
Theorem asset_ids_distinct s :
  reachable s ->
  NoDup (c_id <$> customObjects s) /\
  Forall (fun c => c_id c < num (nextCustomId s)) (customObjects s) /\
  (forall i j c c', customObjects s !! i = Some c -> customObjects s !! j = Some c' ->
     c_id c = c_id c' -> i = j).
Proof.
  intros Hr. assert (ids_fresh s) as [Hnd Hlt].
  { assert (ids_fresh initialSession) as H0 by (split; constructor).
    revert H0. unfold reachable in Hr. induction Hr; eauto using step_ids. }
  split; [done|]. split; [done|].
  intros i j c c' Hi Hj Heq.
  eapply (NoDup_lookup _ i j (c_id c) Hnd); rewrite list_lookup_fmap.
  - by rewrite Hi.
  - rewrite Hj. simpl. by rewrite Heq.
Qed.

Lemma crateSession_reachable : reachable crateSession.
Proof.
  apply rtc_once. apply (step_pick (assetTool "crate") (PickCell 2 1) initialSession).
  split; vm_compute; lia.
Defined.

Lemma twoCrates_reachable : reachable twoCrates.
Proof.
  eapply rtc_r; [apply crateSession_reachable|].
  apply (step_pick (assetTool "crate") (PickCell 0 3) crateSession).
  split; vm_compute; lia.
Defined.

Lemma asset_ids_distinct_witness :
  c_id <$> customObjects twoCrates = [num 1; num 2] /\
  NoDup (c_id <$> customObjects twoCrates) /\
  Forall (fun c => c_id c < num (nextCustomId twoCrates)) (customObjects twoCrates).
Proof.
  split; [reflexivity|].
  destruct (asset_ids_distinct twoCrates twoCrates_reachable) as (H1 & H2 & _).
  exact (conj H1 H2).
Defined.

(** ** Dragging an asset *)

Lemma map_fmap {A B} (f : A -> B) (l : list A) : map f l = f <$> l.
Proof. done. Qed.

Lemma Forall2_map_self {A} (R : A -> A -> Prop) (f : A -> A) (l : list A) :
  (forall x, R x (f x)) -> Forall2 R l (map f l).
Proof. intros Hf. induction l; constructor; auto. Qed.

(** X16. What the right button grabs.  A right-button press over the board
    looks for placements on the cell under the pointer and takes the last one
    of the list, the one placed latest: the drag state gets its id, the mode
    chosen by the Alt key and the pointer height, and the placement becomes
    the selected one.  With no placement on the cell, with another button, or
    without a hit point, nothing changes. *)
Theorem drag_grabs_last_on_cell :
  (forall ev d s, button ev <> 2%Z \/ hit ev = None -> startCustomDrag ev d s = (d, s)) /\
  (forall ev d s p,
     button ev = 2%Z -> hit ev = Some p ->
     exists x y,
       (x < GRID_W)%nat /\ (y < GRID_H)%nat /\
       getCellFromMouse p = (num_of_nat x, num_of_nat y) /\
       (Forall (fun c => ~ on_cell x y c) (customObjects s) ->
        startCustomDrag ev d s = (d, s)) /\
       (forall l1 c l2,
          customObjects s = l1 ++ c :: l2 -> on_cell x y c ->
          Forall (fun c' => ~ on_cell x y c') l2 ->
          startCustomDrag ev d s =
            ({| d_id := Some (c_id c);
                d_mode := if altKey ev then ScaleDrag else MoveDrag;
                d_lastY := clientY ev |},
             setSelectedCustomId (Some (c_id c)) s))).
Proof.
  split.
  - intros ev d s [Hb|Hh]; unfold startCustomDrag.
    + by rewrite decide_True.
    + destruct (decide (button ev <> 2%Z)); [done|]. by rewrite Hh.
  - intros ev d s p Hb Hh.
    destruct (getCellFromMouse_coords p) as (x & y & Hc & Hx & Hy).
    exists x, y. do 3 (split; [done|]).
    unfold startCustomDrag. rewrite decide_False by (intros H; by apply H).
    rewrite Hh, Hc. cbn [fst snd]. split.
    + intros Hnone. rewrite (proj2 (list_find_None _ _)); [done|].
      apply Forall_reverse. exact Hnone.
    + intros l1 c l2 Hl Hon Hlater. rewrite Hl, reverse_app, reverse_cons.
      erewrite list_find_app_l; [reflexivity|].
      apply (list_find_snoc_new (fun c => c_x c = num_of_nat x /\ c_y c = num_of_nat y));
        [|exact Hon].
      apply Forall_reverse. exact Hlater.
Qed.

Lemma drag_grabs_last_on_cell_witness :
  exists x y,
    (x < GRID_W)%nat /\ (y < GRID_H)%nat /\
    getCellFromMouse (tilePosition 2 1) = (num_of_nat x, num_of_nat y) /\
    (Forall (fun c => ~ on_cell x y c) (customObjects crateSession) ->
     startCustomDrag (rightPress (tilePosition 2 1) true (num 40)) noDrag crateSession
       = (noDrag, crateSession)) /\
    (forall l1 c l2,
       customObjects crateSession = l1 ++ c :: l2 -> on_cell x y c ->
       Forall (fun c' => ~ on_cell x y c') l2 ->
       startCustomDrag (rightPress (tilePosition 2 1) true (num 40)) noDrag crateSession =
         ({| d_id := Some (c_id c); d_mode := ScaleDrag; d_lastY := num 40 |},
          setSelectedCustomId (Some (c_id c)) crateSession)).
Proof.
  apply (proj2 drag_grabs_last_on_cell
           (rightPress (tilePosition 2 1) true (num 40)) noDrag crateSession (tilePosition 2 1));
    reflexivity.
Defined.

Lemma handleCustomDrag_frame ev d s :
  d_id (handleCustomDrag ev d s).1 = d_id d /\
  d_mode (handleCustomDrag ev d s).1 = d_mode d /\
  setCustomObjects (customObjects s) (handleCustomDrag ev d s).2 = s /\
  Forall2 (fun c c' => dragged c c' /\ (d_id d <> Some (c_id c) -> c' = c))
          (customObjects s) (customObjects (handleCustomDrag ev d s).2).
Proof.
  assert (forall l : list CustomPlacement,
            Forall2 (fun c c' => dragged c c' /\ (d_id d <> Some (c_id c) -> c' = c)) l l) as Hrefl.
  { intros l. induction l; constructor; [|done]. by repeat split. }
  unfold handleCustomDrag. destruct (d_id d) as [id|] eqn:Hid.
  2:{ simpl. by rewrite session_eta. }
  destruct (d_mode d) eqn:Hmode.
  - destruct (hit ev) as [p|]; simpl.
    2:{ by rewrite session_eta. }
    do 2 (split; [done|]). split; [by destruct s|].
    apply Forall2_map_self. intros c.
    destruct (decide (c_id c = id)) as [E|E]; [|by repeat split].
    split; [by repeat split|]. intros Hne. exfalso. apply Hne. by rewrite E.
  - simpl. do 2 (split; [done|]). split; [by destruct s|].
    apply Forall2_map_self. intros c.
    destruct (decide (c_id c = id)) as [E|E]; [|by repeat split].
    split; [by repeat split|]. intros Hne. exfalso. apply Hne. by rewrite E.
Qed.

(** X17. A drag changes only the dragged placement, and of it only the cell
    and the scale.  Through any run of pointer moves the board, the selections,
    the status and the id counter stay as they are, the drag keeps its target
    and its mode, the list keeps its length and order, every placement keeps
    id, name, url, height and rotation, and a placement with another id is not
    touched.  Without a drag under way, and after the right button is
    released, pointer moves change nothing at all. *)
Theorem drag_changes_only_the_dragged :
  (forall evs d s,
     d_id (mouseMoves evs d s).1 = d_id d /\
     d_mode (mouseMoves evs d s).1 = d_mode d /\
     setCustomObjects (customObjects s) (mouseMoves evs d s).2 = s /\
     Forall2 (fun c c' => dragged c c' /\ (d_id d <> Some (c_id c) -> c' = c))
             (customObjects s) (customObjects (mouseMoves evs d s).2)) /\
  (forall evs d s, d_id d = None -> mouseMoves evs d s = (d, s)) /\
  (forall cfg up evs d s,
     button up = 2%Z ->
     (onMouseUp cfg up d s).2 = s /\
     mouseMoves evs (onMouseUp cfg up d s).1 s = (noDrag, s)).
Proof.
  assert (forall evs d s, d_id d = None -> mouseMoves evs d s = (d, s)) as Hidle.
  { intros evs. unfold mouseMoves. induction evs as [|ev evs IH]; intros d s Hd; [done|].
    cbn [foldl fst snd]. unfold handleCustomDrag at 2. rewrite Hd. by apply IH. }
  split; [|split; [exact Hidle|]].
  - intros evs. unfold mouseMoves. induction evs as [|ev evs IH]; intros d s.
    + simpl. do 2 (split; [done|]). split; [by destruct s|].
      induction (customObjects s); constructor; [by repeat split|done].
    + cbn [foldl fst snd].
      destruct (handleCustomDrag_frame ev d s) as (H1 & H2 & H3 & H4).
      destruct (handleCustomDrag ev d s) as [d1 s1]. cbn [fst snd] in *.
      destruct (IH d1 s1) as (I1 & I2 & I3 & I4).
      split; [congruence|]. split; [congruence|]. split.
      * rewrite <- H3 at 2. rewrite <- I3 at 2. by destruct s1.
      * eapply Forall2_trans; [|exact H4|exact I4].
        intros c c1 c2 [(Ha & Hb & Hc & Hd & He) Hf] [(Ja & Jb & Jc & Jd & Je) Jf].
        split; [unfold dragged; repeat split; congruence|].
        intros Hne. rewrite <- (Hf Hne). apply Jf. rewrite H1, Hf by done. exact Hne.
  - intros cfg up evs d s Hup. unfold onMouseUp, endCustomDrag.
    rewrite (decide_True (P := button up = 2%Z)) by done.
    rewrite (decide_True (P := button up <> 0%Z)) by (rewrite Hup; done).
    cbn [fst snd]. split; [done|]. by apply Hidle.
Qed.

(** X18. Where a drag takes the placement.  In move mode the dragged
    placement lands on the cell of the grid under the pointer, the cell a
    click at that point picks in cells mode.  In scale mode a move adds to the
    scale a hundredth of the pointer's rise since the last move, the
    difference, the product and the sum each rounded as doubles are, clamps the
    result to [[0.3, 3]], leaves the cell alone and records the height of the
    pointer.  The scale after two moves need not be that of one move to the
    same height: from scale 1 and height 100, a move to 90 and then to 101
    ends above the 0.99 a single move to 101 gives. *)
Theorem drag_follows_pointer d s id :
  d_id d = Some id ->
  (forall ev p,
     d_mode d = MoveDrag -> hit ev = Some p ->
     exists x y,
       pickFromMouse Cells p = PickCell x y /\ (x < GRID_W)%nat /\ (y < GRID_H)%nat /\
       forall i c,
         customObjects s !! i = Some c -> c_id c = id ->
         exists c', customObjects (handleCustomDrag ev d s).2 !! i = Some c' /\
                    on_cell x y c' /\ c_scale c' = c_scale c) /\
  (forall ev,
     d_mode d = ScaleDrag ->
     d_lastY (handleCustomDrag ev d s).1 = clientY ev /\
     forall i c,
       customObjects s !! i = Some c -> c_id c = id ->
       exists c',
         customObjects (handleCustomDrag ev d s).2 !! i = Some c' /\
         c_scale c' = clamp (c_scale c ⊕ (d_lastY d ⊖ clientY ev) ⊗ frac 1 100)
                            (frac 3 10) (num 3) /\
         (frac 3 10 <= c_scale c' /\ c_scale c' <= num 3) /\
         c_x c' = c_x c /\ c_y c' = c_y c) /\
  (let d0 := {| d_id := Some (num 1); d_mode := ScaleDrag; d_lastY := num 100 |} in
   let at_height y := rightPress (tilePosition 0 0) true (num y) in
   let st1 := handleCustomDrag (at_height 90%Z) d0 crateSession in
   let st2 := handleCustomDrag (at_height 101%Z) st1.1 st1.2 in
   let one := handleCustomDrag (at_height 101%Z) d0 crateSession in
   exists c2 c1,
     customObjects st2.2 !! 0%nat = Some c2 /\ customObjects one.2 !! 0%nat = Some c1 /\
     c_scale c1 = frac 99 100 /\ frac 99 100 < c_scale c2).
Proof.
  intros Hid. split; [|split].
  - intros ev p Hmode Hhit.
    destruct (getCellFromMouse_coords p) as (x & y & Hc & Hx & Hy).
    exists x, y. split.
    { rewrite pickFromMouse_not_edges by done. rewrite Hc. cbn [fst snd].
      by rewrite !to_nat_num_of_nat. }
    do 2 (split; [done|]). intros i c Hi Hc'.
    unfold handleCustomDrag. rewrite Hid, Hmode, Hhit. cbn [snd].
    unfold dragMove. cbn [customObjects setCustomObjects].
    rewrite map_fmap, list_lookup_fmap, Hi. cbn [fmap option_fmap option_map].
    rewrite decide_True by done. rewrite Hc. eexists. split; [reflexivity|]. by split.
  - intros ev Hmode.
    unfold handleCustomDrag. rewrite Hid, Hmode. cbv zeta. cbn [fst snd d_lastY].
    split; [reflexivity|]. intros i c Hi Hc'.
    unfold dragScale. cbn [customObjects setCustomObjects].
    rewrite map_fmap, list_lookup_fmap, Hi. cbn [fmap option_fmap option_map].
    rewrite decide_True by done.
    eexists. split; [reflexivity|]. cbn [c_scale c_x c_y].
    split; [reflexivity|]. split; [apply clamp_bounds; by vm_compute|]. by split.
  - cbv zeta.
    eexists _, _. split; [by vm_compute|]. split; [by vm_compute|].
    split; [apply Qc_is_canon|]; by vm_compute.
Qed.

Lemma drag_follows_pointer_witness :
  exists x y,
    pickFromMouse Cells (tilePosition 0 3) = PickCell x y /\ (x < GRID_W)%nat /\ (y < GRID_H)%nat /\
    forall i c,
      customObjects crateSession !! i = Some c -> c_id c = num 1 ->
      exists c', customObjects (handleCustomDrag (rightPress (tilePosition 0 3) false (num 0))
                                  {| d_id := Some (num 1); d_mode := MoveDrag; d_lastY := num 0 |}
                                  crateSession).2 !! i = Some c' /\
                 on_cell x y c' /\ c_scale c' = c_scale c.
Proof.
  apply (proj1 (drag_follows_pointer
                  {| d_id := Some (num 1); d_mode := MoveDrag; d_lastY := num 0 |}
                  crateSession (num 1) eq_refl)
           (rightPress (tilePosition 0 3) false (num 0)) (tilePosition 0 3));
    reflexivity.
Defined.

Lemma drag_changes_only_the_dragged_witness :
  (onMouseUp bridgeTool (rightPress (tilePosition 2 1) false (num 0)) noDrag crateSession).2
    = crateSession /\
  mouseMoves [rightPress (tilePosition 0 0) false (num 7)]
    (onMouseUp bridgeTool (rightPress (tilePosition 2 1) false (num 0)) noDrag crateSession).1
    crateSession = (noDrag, crateSession).
Proof.
  apply (proj2 (proj2 drag_changes_only_the_dragged)). reflexivity.
Defined.

(** ** The light editor *)

Lemma lights_stage (g : nat -> nat) (l : list (option ObjectPlacement)) (e : ObjectPlacement * nat) :
  e ∈ omap id (imap (fun idx slot => (fun o => (o, g idx)) <$> slot) l) <->
  exists i, l !! i = Some (Some e.1) /\ e.2 = g i.
Proof.
  rewrite list_elem_of_omap. split.
  - intros (slot & Hin & Hslot). apply elem_of_lookup_imap_1 in Hin as (i & y & -> & Hi).
    destruct y as [o|]; [|done]. simpl in Hslot. injection Hslot as <-. by exists i.
  - intros (i & Hi & Hg). exists (Some e). split; [|done].
    destruct e as [o k]. simpl in *. subst k.
    exact (elem_of_lookup_imap_2 (fun idx slot => (fun o => (o, g idx)) <$> slot) l (Some o) i Hi).
Qed.

Lemma lights_stage_NoDup (g : nat -> nat) (l : list (option ObjectPlacement)) :
  (forall i j, g i = g j -> i = j) ->
  NoDup (snd <$> omap id (imap (fun idx slot => (fun o => (o, g idx)) <$> slot) l)).
Proof.
  revert g. induction l as [|slot l IH]; intros g Hg; [constructor|].
  rewrite imap_cons.
  assert (NoDup (snd <$> omap id (imap ((fun idx slot => (fun o => (o, g idx)) <$> slot) ∘ S) l)))
    as Hrest by (apply (IH (g ∘ S)); intros i j Hij; apply Hg in Hij; lia).
  destruct slot as [o|]; [|exact Hrest].
  cbn [omap list_omap fmap option_fmap option_map id]. rewrite fmap_cons.
  apply NoDup_cons. split; [|exact Hrest].
  intros Hin. apply list_elem_of_fmap in Hin as (e & He & Hin).
  apply (lights_stage (g ∘ S)) in Hin as (i & _ & Hi). simpl in He.
  rewrite Hi in He. apply Hg in He. lia.
Qed.

Lemma NoDup_fmap_filter {A B} (f : A -> B) (P : A -> Prop) `{!forall x, Decision (P x)}
    (l : list A) :
  NoDup (f <$> l) -> NoDup (f <$> filter P l).
Proof.
  induction l as [|a l IH]; [done|]. rewrite fmap_cons. intros [Ha Hl]%NoDup_cons.
  rewrite filter_cons. destruct (decide (P a)); [|by apply IH].
  rewrite fmap_cons. apply NoDup_cons. split; [|by apply IH].
  intros Hin. apply Ha. apply list_elem_of_fmap in Hin as (x & -> & Hx).
  apply list_elem_of_fmap. exists x. split; [done|].
  by apply list_elem_of_filter in Hx as [_ Hx].
Qed.

Lemma NoDup_fmap_omap {A B C} (f : A -> C) (g : B -> C) (h : A -> option B) (l : list A) :
  (forall a b, h a = Some b -> g b = f a) ->
  NoDup (f <$> l) -> NoDup (g <$> omap h l).
Proof.
  intros Hh. induction l as [|a l IH]; [done|]. rewrite fmap_cons. intros [Ha Hl]%NoDup_cons.
  cbn [omap list_omap]. destruct (h a) as [b|] eqn:E; [|by apply IH].
  rewrite fmap_cons. apply NoDup_cons. split; [|by apply IH].
  intros Hin. apply Ha. apply list_elem_of_fmap in Hin as (x & Hx1 & Hx).
  apply list_elem_of_omap in Hx as (a' & Ha' & Hb').
  apply list_elem_of_fmap. exists a'. split; [|done].
  rewrite <- (Hh a b E), Hx1. by apply Hh.
Qed.

Lemma lights_elem b e :
  e ∈ lights b <->
  exists o, arr_get (objects b) (e_idx e) = Some o /\ type o = Light /\
            light o = Some (e_light e) /\
            e_x e = (e_idx e mod GRID_W)%nat /\ e_y e = (e_idx e / GRID_W)%nat.
Proof.
  unfold lights. rewrite list_elem_of_omap. split.
  - intros ([o k] & Hin & He). apply list_elem_of_filter in Hin as [[Ht _] Hin].
    apply (lights_stage id) in Hin as (i & Hi & Hk). simpl in *. subst k.
    destruct (light o) as [lp|] eqn:Hl; [|done]. simpl in He. injection He as <-.
    exists o. simpl. unfold arr_get. rewrite Hi. done.
  - intros (o & Hget & Ht & Hl & Hx & Hy). exists (o, e_idx e). split.
    + apply list_elem_of_filter. split; [simpl; by rewrite Hl|].
      apply (lights_stage id). exists (e_idx e). split; [|done]. simpl.
      unfold arr_get in Hget. by destruct (objects b !! e_idx e) as [[?|]|]; simplify_eq/=.
    + simpl. rewrite Hl. simpl. destruct e. simpl in *. by subst.
Qed.

(** X19. The light list shows exactly the lights of the board.  [lights] has
    one entry for each cell whose object is a light with a payload and no
    other entry; the entry carries that payload, and its [(x, y)] are the
    coordinates of the cell: [idxCell x y] is the entry's index, with
    [x < W], and [y < H] on a board of sixteen objects.  No index occurs twice,
    so the keys of the list are unique. *)
Theorem lights_lists_the_lights b :
  (forall e, e ∈ lights b <->
     exists o, arr_get (objects b) (e_idx e) = Some o /\ type o = Light /\
               light o = Some (e_light e) /\
               e_x e = (e_idx e mod GRID_W)%nat /\ e_y e = (e_idx e / GRID_W)%nat) /\
  (forall e, e ∈ lights b ->
     idxCell (e_x e) (e_y e) = e_idx e /\ (e_x e < GRID_W)%nat /\
     (e_idx e < length (objects b))%nat) /\
  NoDup (e_idx <$> lights b) /\
  (board_wf b -> forall e, e ∈ lights b -> (e_y e < GRID_H)%nat).
Proof.
  split; [apply lights_elem|]. split; [|split].
  - intros e (o & Hget & _ & _ & Hx & Hy)%lights_elem.
    apply arr_get_Some_lt in Hget. rewrite Hx, Hy. unfold idxCell, GRID_W.
    split; [|split; [|done]].
    + pose proof (Nat.div_mod_eq (e_idx e) 4). lia.
    + apply Nat.mod_upper_bound. lia.
  - unfold lights.
    apply (NoDup_fmap_omap snd); [intros [o k] e' He; simpl in *; by destruct (light o); simplify_eq/=|].
    apply NoDup_fmap_filter. apply (lights_stage_NoDup id). done.
  - intros (_ & _ & _ & [Hlen _]) e (o & Hget & _ & _ & _ & Hy)%lights_elem.
    apply arr_get_Some_lt in Hget. rewrite Hlen in Hget. rewrite Hy.
    unfold GRID_W, GRID_H in *. apply Nat.Div0.div_lt_upper_bound. lia.
Qed.

Lemma lights_lists_the_lights_witness :
  {| e_idx := 9; e_light := lightBrush initialConfig; e_x := 1; e_y := 2 |}
    ∈ lights (board litSession) /\
  (2 < GRID_H)%nat.
Proof.
  assert ({| e_idx := 9; e_light := lightBrush initialConfig; e_x := 1; e_y := 2 |}
            ∈ lights (board litSession)) as Hin.
  { apply (proj2 (proj1 (lights_lists_the_lights (board litSession)) _)).
    eexists. repeat split; reflexivity. }
  split; [exact Hin|].
  refine (proj2 (proj2 (proj2 (lights_lists_the_lights (board litSession)))) _ _ Hin).
  apply (proj1 (applyPick_wf lightTool initialSession (PickCell 1 2)
                  ltac:(split; vm_compute; lia)
                  (conj makeEmptyState_wf (Forall_nil_2 _)))).
Defined.

Lemma editor_ok_keep s s' :
  editor_ok s -> objects (board s') = objects (board s) ->
  editingLight s' = editingLight s -> selectedLightCell s' = selectedLightCell s ->
  editor_ok s'.
Proof. unfold editor_ok. intros Hok -> -> ->. exact Hok. Qed.

Lemma editor_ok_none s : selectedLightCell s = None -> editor_ok s.
Proof. intros Hn i Hi. congruence. Qed.

Lemma editor_ok_set s s' idx v :
  editor_ok s ->
  objects (board s') = arr_set (objects (board s)) idx v ->
  editingLight s' = editingLight s -> selectedLightCell s' = selectedLightCell s ->
  selectedLightCell s <> Some idx \/
    (forall o, arr_get (objects (board s)) idx = Some o -> type o <> Light) ->
  editor_ok s'.
Proof.
  intros Hok Ho He Hs Hne i Hi. rewrite Ho, He. rewrite Hs in Hi.
  destruct (Hok i Hi) as (o & l & Hget & Ht & Hl & Hed).
  assert (idx <> i) as Hidx.
  { intros ->. destruct Hne as [Hne|Hne]; [done|]. by apply (Hne o). }
  rewrite arr_get_set_ne by done. by exists o, l.
Qed.

Lemma applyPick_editor cfg s pick : editor_ok s -> editor_ok (applyPick cfg s pick).2.
Proof.
  intros Hok. unfold applyPick. destruct (_ && _ && _ && _).
  { destruct (decide (_ ∈ _)); cbn [snd]; [|exact Hok].
    unfold customUpdater. destruct (list_find _ _) as [[k c]|]; [|exact Hok].
    destruct (decide (_ = _)); exact Hok. }
  unfold boardUpdater. rewrite copyBoard_eq. cbv zeta.
  destruct pick as [x y|dir x y].
  - destruct (mode cfg).
    + destruct (decide (_ /\ _)) as [[_ Hbr]|_]; cbn [snd]; [|exact Hok].
      eapply (editor_ok_set s); [exact Hok|reflexivity..|].
      right. intros o Ho Ht. cbn in Hbr. rewrite Ho in Hbr. simpl in Hbr. congruence.
    + exact Hok.
    + destruct (decide (objectBrush cfg = Light)) as [Hl|Hl]; cbn [snd].
      { intros i Hi. cbn in Hi. injection Hi as <-. cbn.
        rewrite arr_get_set_eq. by eexists _, _. }
      destruct (decide (_ /\ _ /\ _)); [exact Hok|].
      destruct (decide (objectBrush cfg = NoObj)); cbn [snd].
      { destruct (decide (selectedLightCell _ = _)) as [Hs|Hs]; [by apply editor_ok_none|].
        eapply (editor_ok_set s); [exact Hok|reflexivity..|]. left. exact Hs. }
      destruct (arr_get (objects (board s)) (idxCell x y)) as [o|] eqn:Ho; [|exact Hok].
      destruct (decide (type o = objectBrush cfg)) as [Ht|Ht]; cbn [snd].
      { eapply (editor_ok_set s); [exact Hok|reflexivity..|].
        right. intros o' Ho'. cbn in Ho'. congruence. }
      destruct (decide (selectedLightCell _ = _)) as [Hs|Hs]; [by apply editor_ok_none|].
      eapply (editor_ok_set s); [exact Hok|reflexivity..|]. left. exact Hs.
  - destruct (decide (mode cfg <> Edges)); [exact Hok|]. destruct dir; exact Hok.
Qed.

Lemma updateSelectedLight_on partial s sel o cur :
  selectedLightCell s = Some sel -> arr_get (objects (board s)) sel = Some o ->
  type o = Light -> light o = Some cur ->
  updateSelectedLight partial s =
    setBoard
      (set_objects (board s)
         (imap (fun idx slot =>
                  match slot with
                  | Some o => if decide (idx = sel /\ type o = Light)
                              then Some {| type := type o; rotation := rotation o;
                                           light := Some (withPartial cur partial) |}
                              else Some o
                  | None => None
                  end) (objects (board s))))
      (setEditingLight (Some (withPartial cur partial)) s).
Proof.
  intros Hsel Hget Ht Hl. unfold updateSelectedLight. rewrite Hsel, Hget.
  destruct o as [t r l]. simpl in Ht, Hl. subst t l. done.
Qed.

Lemma updateSelectedLight_off partial s :
  (forall sel o cur, selectedLightCell s = Some sel -> arr_get (objects (board s)) sel = Some o ->
                     type o = Light -> light o = Some cur -> False) ->
  updateSelectedLight partial s = s.
Proof.
  intros Hno. unfold updateSelectedLight. destruct (selectedLightCell s) as [sel|]; [|done].
  destruct (arr_get _ _) as [[[] r [cur|]]|] eqn:Hget; try done.
  exfalso. by eapply (Hno sel _ cur).
Qed.

Lemma arr_get_imap {A B} (f : nat -> option A -> option B) (a : list (option A)) (i : nat) :
  f i None = None -> arr_get (imap f a) i = (a !! i) ≫= f i.
Proof.
  intros Hf. unfold arr_get. rewrite list_lookup_imap. by destruct (a !! i) as [[?|]|].
Qed.

Lemma updateSelectedLight_cases s :
  (forall partial, updateSelectedLight partial s = s) \/
  exists sel o cur,
    selectedLightCell s = Some sel /\ arr_get (objects (board s)) sel = Some o /\
    type o = Light /\ light o = Some cur.
Proof.
  destruct (selectedLightCell s) as [sel|] eqn:Hsel.
  2:{ left. intros partial. unfold updateSelectedLight. by rewrite Hsel. }
  destruct (arr_get (objects (board s)) sel) as [o|] eqn:Hget.
  2:{ left. intros partial. unfold updateSelectedLight. by rewrite Hsel, Hget. }
  destruct (decide (type o = Light)) as [Ht|Ht].
  2:{ left. intros partial. unfold updateSelectedLight. rewrite Hsel, Hget.
      by destruct o as [[] ? ?]. }
  destruct (light o) as [cur|] eqn:Hl.
  2:{ left. intros partial. unfold updateSelectedLight. rewrite Hsel, Hget.
      destruct o as [[] ? [?|]]; done. }
  right. by exists sel, o, cur.
Qed.

Lemma withPartial_then cur p1 p2 :
  withPartial (withPartial cur p1) p2 = withPartial cur (thenPartial p1 p2).
Proof.
  unfold withPartial, thenPartial. simpl.
  destruct (p_color p2), (p_intensity p2), (p_distance p2), (p_decay p2); done.
Qed.

(** X20. The light editor stays in step with the board.  If the selected
    cell holds a light and the payload under edit is that light's, this is
    still so after any [applyPick], after a payload update, and after choosing
    an entry of the light list; while it holds the clean-up effect has nothing
    to do.  A reset leaves the selection behind and the effect then clears
    it.  The default session has the property. *)
Theorem light_editor_in_sync :
  editor_ok initialSession /\
  (forall s, editor_ok s ->
     (forall cfg pick, editor_ok (applyPick cfg s pick).2) /\
     (forall partial, editor_ok (updateSelectedLight partial s)) /\
     (forall e, e ∈ lights (board s) -> editor_ok (selectLight e s)) /\
     syncLightSelection s = s) /\
  (forall s, selectedLightCell (syncLightSelection (resetAll s)) = None /\
             editingLight (syncLightSelection (resetAll s)) =
               match selectedLightCell s with Some _ => None | None => editingLight s end /\
             (editor_ok s -> editor_ok (syncLightSelection (resetAll s)))).
Proof.
  split; [by apply editor_ok_none|]. split.
  - intros s Hok. split; [intros; by apply applyPick_editor|]. split; [|split].
    + intros partial. destruct (updateSelectedLight_cases s)
        as [E|(sel & o & cur & Hsel & Hget & Ht & Hl)]; [by rewrite E|].
      rewrite (updateSelectedLight_on partial s sel o cur) by done.
      intros i Hi. cbn in Hi. rewrite Hsel in Hi. injection Hi as <-. cbn.
      rewrite arr_get_imap by done. unfold arr_get in Hget.
      destruct (objects (board s) !! sel) as [[o'|]|]; simplify_eq/=.
      rewrite decide_True by done. by eexists _, _.
    + intros e (o & Hget & Ht & Hl & _)%lights_elem i Hi. cbn in Hi. injection Hi as <-.
      cbn. by exists o, (e_light e).
    + unfold syncLightSelection. destruct (selectedLightCell s) as [sel|] eqn:Hsel; [|done].
      destruct (Hok sel Hsel) as (o & l & Hget & Ht & Hl & _). rewrite Hget.
      destruct o as [t r lo]. simpl in *. by subst.
  - intros s.
    assert (selectedLightCell (syncLightSelection (resetAll s)) = None /\
            editingLight (syncLightSelection (resetAll s)) =
              match selectedLightCell s with Some _ => None | None => editingLight s end) as [H1 H2].
    { unfold syncLightSelection, resetAll.
      cbn [selectedLightCell editingLight board setStatus setBoard].
      destruct (selectedLightCell s) as [sel|] eqn:Hsel; [|done].
      destruct (arr_get (objects makeEmptyState) sel) as [o|] eqn:Hget; [|done].
      change (objects makeEmptyState) with (arr_fill (GRID_W * GRID_H) noObject) in Hget.
      apply arr_get_fill_inv in Hget as [-> _]. done. }
    split; [done|]. split; [done|]. intros _. by apply editor_ok_none.
Qed.

Lemma light_editor_in_sync_witness :
  selectedLightCell litSession = Some (idxCell 1 2) /\
  editingLight litSession = Some (lightBrush initialConfig) /\
  editor_ok (updateSelectedLight dimmer litSession) /\
  syncLightSelection litSession = litSession.
Proof.
  split; [reflexivity|]. split; [reflexivity|].
  destruct (proj1 (proj2 light_editor_in_sync) litSession
              (proj1 (proj1 (proj2 light_editor_in_sync) initialSession
                        (proj1 light_editor_in_sync))
                 lightTool (PickCell 1 2))) as (_ & H2 & _ & H4).
  exact (conj (H2 dimmer) H4).
Defined.

(** X21. A payload update changes the payload only.  [updateSelectedLight]
    leaves terrain, edges, assets and the selection alone and every cell other
    than the selected one as it is; at the selected cell type and rotation
    stay and the payload becomes the old one overlaid with the given fields,
    which is also the payload under edit.  When the selected cell holds no
    light with a payload, nothing happens.  Two updates in a row equal one with
    the fields combined, the later ones winning. *)
Theorem light_update_changes_payload_only partial s :
  (cells (board (updateSelectedLight partial s)) = cells (board s) /\
   hEdges (board (updateSelectedLight partial s)) = hEdges (board s) /\
   vEdges (board (updateSelectedLight partial s)) = vEdges (board s) /\
   customObjects (updateSelectedLight partial s) = customObjects s /\
   selectedLightCell (updateSelectedLight partial s) = selectedLightCell s /\
   length (objects (board (updateSelectedLight partial s))) = length (objects (board s))) /\
  (forall i, selectedLightCell s <> Some i ->
     arr_get (objects (board (updateSelectedLight partial s))) i
       = arr_get (objects (board s)) i) /\
  (forall sel o cur,
     selectedLightCell s = Some sel -> arr_get (objects (board s)) sel = Some o ->
     type o = Light -> light o = Some cur ->
     arr_get (objects (board (updateSelectedLight partial s))) sel =
       Some {| type := Light; rotation := rotation o;
               light := Some (withPartial cur partial) |} /\
     editingLight (updateSelectedLight partial s) = Some (withPartial cur partial)) /\
  ((forall sel o cur,
      selectedLightCell s = Some sel -> arr_get (objects (board s)) sel = Some o ->
      type o = Light -> light o = Some cur -> False) ->
   updateSelectedLight partial s = s) /\
  (forall p2, updateSelectedLight p2 (updateSelectedLight partial s)
              = updateSelectedLight (thenPartial partial p2) s).
Proof.
  split; [|split; [|split; [|split]]].
  - destruct (updateSelectedLight_cases s)
      as [E|(sel & o & cur & Hsel & Hget & Ht & Hl)]; [by rewrite E|].
    rewrite (updateSelectedLight_on partial s sel o cur) by done. cbn.
    by rewrite length_imap.
  - intros i Hi. destruct (updateSelectedLight_cases s)
      as [E|(sel & o & cur & Hsel & Hget & Ht & Hl)]; [by rewrite E|].
    rewrite (updateSelectedLight_on partial s sel o cur) by done. cbn.
    rewrite arr_get_imap by done. unfold arr_get.
    destruct (objects (board s) !! i) as [[o'|]|]; [|done..]. simpl.
    rewrite decide_False; [done|]. intros [-> _]. by rewrite Hsel in Hi.
  - intros sel o cur Hsel Hget Ht Hl.
    rewrite (updateSelectedLight_on partial s sel o cur) by done. cbn. split; [|done].
    rewrite arr_get_imap by done. unfold arr_get in Hget.
    destruct (objects (board s) !! sel) as [[o'|]|]; simplify_eq/=.
    rewrite decide_True by done. by rewrite Ht.
  - apply updateSelectedLight_off.
  - intros p2. destruct (updateSelectedLight_cases s)
      as [E|(sel & o & cur & Hsel & Hget & Ht & Hl)]; [by rewrite !E|].
    rewrite (updateSelectedLight_on (thenPartial partial p2) s sel o cur) by done.
    rewrite (updateSelectedLight_on partial s sel o cur) by done.
    match goal with |- updateSelectedLight p2 ?s1 = _ =>
      rewrite (updateSelectedLight_on p2 s1 sel
                 {| type := Light; rotation := rotation o;
                    light := Some (withPartial cur partial) |} (withPartial cur partial))
    end; [|done| |done..].
    2:{ cbn. rewrite arr_get_imap by done. unfold arr_get in Hget.
        destruct (objects (board s) !! sel) as [[o'|]|]; simplify_eq/=.
        rewrite decide_True by done. by rewrite Ht. }
    cbn. rewrite withPartial_then. unfold setBoard, set_objects. cbn. do 2 f_equal.
    apply list_eq. intros i. rewrite !list_lookup_imap.
    destruct (objects (board s) !! i) as [[o'|]|]; [|done..]. cbn.
    destruct (decide (i = sel /\ type o' = Light)) as [[-> Ht']|Hne]; cbn.
    + by rewrite decide_True.
    + by rewrite decide_False.
Qed.

Lemma light_update_changes_payload_only_witness :
  arr_get (objects (board (updateSelectedLight dimmer litSession))) (idxCell 1 2) =
    Some {| type := Light; rotation := 0;
            light := Some (withPartial (lightBrush initialConfig) dimmer) |} /\
  editingLight (updateSelectedLight dimmer litSession)
    = Some (withPartial (lightBrush initialConfig) dimmer).
Proof.
  apply (proj1 (proj2 (proj2 (light_update_changes_payload_only dimmer litSession)))
           (idxCell 1 2)
           {| type := Light; rotation := 0; light := Some (lightBrush initialConfig) |}
           (lightBrush initialConfig)); reflexivity.
Defined.

(** ** Codec: loading assets *)

Lemma importJson_session data s nb s' :
  importJson data s = ImportLoaded nb s' ->
  s' = setStatus loadDone
         (setSelectedCustomId None (setEditingLight None (setSelectedLightCell None
            match prop "customObjects" data with
            | Some (JArr entries) =>
              setCustomObjects
                (customs_of_entries (nextCustomId s) (filter custom_entry_ok entries)).1
                (setNextCustomId
                   (customs_of_entries (nextCustomId s) (filter custom_entry_ok entries)).2 s)
            | _ => s
            end))).
Proof.
  unfold importJson. destruct (_ || _); [done|]. destruct (_ || _); [done|].
  intros [= _ <-]. unfold loadDone. do 4 f_equal.
  destruct (prop "customObjects" data) as [[]|]; try done.
  by destruct (customs_of_entries _ _).
Qed.


Lemma customs_of_entries_cons next e es :
  customs_of_entries next (e :: es) =
    ((custom_of_entry next e).1 :: (customs_of_entries (custom_of_entry next e).2 es).1,
     (customs_of_entries (custom_of_entry next e).2 es).2).
Proof.
  cbn [customs_of_entries]. destruct (custom_of_entry next e) as [p n']. cbn [fst snd].
  fold customs_of_entries. by destruct (customs_of_entries n' es).
Qed.




Lemma crateSession_wf : session_wf crateSession.
Proof.
  apply (applyPick_wf (assetTool "crate") initialSession (PickCell 2 1)).
  - split; vm_compute; lia.
  - split; [apply makeEmptyState_wf|constructor].
Defined.


Lemma customs_of_entries_ids next es :
  (customs_of_entries next es).2 = (next + Z.of_nat (length (idless es)))%Z /\
  forall i e c,
    es !! i = Some e -> (customs_of_entries next es).1 !! i = Some c ->
    c_id c = match prop "id" e with
             | Some (JNum n) => n
             | _ => num (next + Z.of_nat (length (idless (take i es))))
             end.
Proof.
  revert next. induction es as [|e es IH]; intros next.
  { split; [simpl; f_equal; lia|]. by intros i e c. }
  rewrite customs_of_entries_cons. cbn [fst snd].
  assert ((custom_of_entry next e).2 = (next + (if has_id e then 0 else 1))%Z /\
          c_id (custom_of_entry next e).1 =
            match prop "id" e with Some (JNum n) => n | _ => num next end) as [Hn Hid].
  { unfold custom_of_entry, has_id, is_number.
    destruct (prop "id" e) as [[]|]; cbn; split; try done; lia. }
  destruct (IH (custom_of_entry next e).2) as [IH1 IH2]. split.
  - rewrite IH1, Hn. unfold idless. rewrite filter_cons.
    destruct (decide (has_id e = false)) as [E|E];
      [rewrite E|apply not_false_is_true in E; rewrite E]; simpl; lia.
  - intros [|i] e' c He Hc.
    + simpl in He, Hc. simplify_eq. rewrite Hid. simpl.
      destruct (prop "id" e') as [[]|]; try done; by rewrite Z.add_0_r.
    + simpl in He, Hc. rewrite (IH2 i e' c He Hc).
      destruct (prop "id" e') as [[]|] eqn:E; try done;
        f_equal; rewrite Hn; cbn [take]; unfold idless; rewrite filter_cons;
        (destruct (decide (has_id e = false)) as [E'|E'];
         [rewrite E'|apply not_false_is_true in E'; rewrite E']); simpl; lia.
Qed.

(** X23. How loading assigns ids.  An accepted entry with a numeric [id]
    keeps it as it is, whatever ids are in use and wherever the counter
    stands; an entry without one gets the counter's value at its turn, so such
    entries get consecutive ids.  The counter ends advanced by the number of
    accepted entries without a numeric id and by nothing else. *)
Theorem import_assigns_ids data s nb s' entries :
  importJson data s = ImportLoaded nb s' ->
  prop "customObjects" data = Some (JArr entries) ->
  nextCustomId s' =
    (nextCustomId s + Z.of_nat (length (idless (filter custom_entry_ok entries))))%Z /\
  forall i e c,
    filter custom_entry_ok entries !! i = Some e -> customObjects s' !! i = Some c ->
    c_id c = match prop "id" e with
             | Some (JNum n) => n
             | _ => num (nextCustomId s
                         + Z.of_nat (length (idless (take i (filter custom_entry_ok entries)))))
             end.
Proof.
  intros ->%importJson_session ->. cbn.
  apply customs_of_entries_ids.
Qed.

Lemma import_assigns_ids_witness :
  nextCustomId
    (setStatus loadDone
       (setSelectedCustomId None (setEditingLight None (setSelectedLightCell None
          (setCustomObjects (customObjects crateSession)
             (setNextCustomId (nextCustomId litSession) litSession))))))
  = (nextCustomId litSession
     + Z.of_nat (length (idless (filter custom_entry_ok
                                   (map custom_value (customObjects crateSession))))))%Z.
Proof.
  exact (proj1 (import_assigns_ids crateDoc litSession _ _
                  (map custom_value (customObjects crateSession))
                  (roundtrip_wf crateSession litSession crateSession_wf) eq_refl)).
Defined.

(** X24. What a rejected load does.  A rejected document changes the status
    line and nothing else, and the error is one of two: "Formato invalido" for
    exactly the documents that are [null], a boolean, a number or a string, and
    "Board mancante" otherwise, which includes every document that is an
    Array.  A document is loaded exactly when it is an object or an array
    whose [board] and whose [cells], [hEdges], [vEdges] and [objects] are all
    truthy. *)
Theorem import_rejects data s :
  (forall e s', importJson data s = ImportFailed e s' ->
     s' = setStatus loadError s /\ (e = "Formato invalido" \/ e = "Board mancante")) /\
  ((exists s', importJson data s = ImportFailed "Formato invalido" s') <-> ~ container data) /\
  ((exists nb s', importJson data s = ImportLoaded nb s') <->
     container data /\ truthy (prop "board" data) = true /\
     forall k, k ∈ ["cells"; "hEdges"; "vEdges"; "objects"] ->
       truthy (prop "board" data ≫= prop k) = true).
Proof.
  unfold importJson.
  destruct data as [|bv|n|str|entries|kvs];
    try (cbn; split; [intros e s' [= <- <-]; by split; [|left]|];
         split; [split; [intros _ []|intros _; by eexists]|];
         split; [by intros (? & ? & ?)|by intros []]).
  - destruct bv;
      (cbn; split; [intros e s' [= <- <-]; by split; [|left]|];
         split; [split; [intros _ []|intros _; by eexists]|];
         split; [by intros (? & ? & ?)|by intros []]).
  - cbn [truthy typeof_object negb orb].
    destruct (bool_decide (n <> num 0));
      (cbn; split; [intros e s' [= <- <-]; by split; [|left]|];
         split; [split; [intros _ []|intros _; by eexists]|];
         split; [by intros (? & ? & ?)|by intros []]).
  - cbn [truthy typeof_object negb orb].
    destruct (bool_decide (str <> ""));
      (cbn; split; [intros e s' [= <- <-]; by split; [|left]|];
         split; [split; [intros _ []|intros _; by eexists]|];
         split; [by intros (? & ? & ?)|by intros []]).
  - cbn. split; [intros e s' [= <- <-]; by split; [|right]|].
    split; [split; [by intros [? ?]|by intros []]|].
    split; [by intros (? & ? & ?)|by intros (_ & ? & _)].
  - cbn [truthy typeof_object negb orb].
    destruct (_ || _) eqn:Hbad.
    + split; [intros e s' [= <- <-]; by split; [|right]|].
      split; [split; [by intros [? ?]|by intros []]|].
      split; [by intros (? & ? & ?)|].
      intros (_ & Hb & Hk). exfalso.
      rewrite Hb in Hbad.
      rewrite (Hk "cells"), (Hk "hEdges"), (Hk "vEdges"), (Hk "objects") in Hbad;
        [done|set_solver..].
    + split; [done|]. split; [split; [by intros [? ?]|by intros []]|].
      split; [|by eexists _, _]. intros _. split; [done|].
      apply orb_false_iff in Hbad as [Hbad H4]. apply orb_false_iff in Hbad as [Hbad H3].
      apply orb_false_iff in Hbad as [Hbad H2]. apply orb_false_iff in Hbad as [H0 H1].
      apply negb_false_iff in H0, H1, H2, H3, H4. split; [done|].
      intros k Hk. repeat (apply elem_of_cons in Hk as [->|Hk]; [done|]).
      by apply elem_of_nil in Hk.
Qed.

Lemma import_rejects_witness :
  exists s', importJson (JStr "dungeon") crateSession = ImportFailed "Formato invalido" s'.
Proof. apply (proj1 (proj2 (import_rejects (JStr "dungeon") crateSession))). intros []. Defined.

(** ** Pit regions *)

Lemma cellIndex_inj x y x' y' :
  in_grid x y -> in_grid x' y' -> cellIndex x y = cellIndex x' y' -> x = x' /\ y = y'.
Proof. unfold in_grid, cellIndex, idxCell, GRID_W, GRID_H. lia. Qed.

Lemma cellIndex_lt x y : in_grid x y -> (cellIndex x y < GRID_W * GRID_H)%nat.
Proof. unfold in_grid, cellIndex, idxCell, GRID_W, GRID_H. lia. Qed.

Lemma marked_set v i j :
  marked (arr_set v i true) j = if decide (i = j) then true else marked v j.
Proof.
  unfold marked. destruct (decide (i = j)) as [->|Hne].
  - by rewrite arr_get_set_eq.
  - by rewrite arr_get_set_ne.
Qed.

Lemma in_grid_cells x y : in_grid x y <-> (x, y) ∈ gridCells.
Proof.
  unfold gridCells, in_grid. rewrite list_elem_of_bind. split.
  - intros [Hx Hy]. exists y. split; [|by apply elem_of_seqZ].
    apply list_elem_of_bind. exists x. split; [by apply list_elem_of_singleton|by apply elem_of_seqZ].
  - intros (y' & Hin & Hy'%elem_of_seqZ).
    apply list_elem_of_bind in Hin as (x' & Hin & Hx'%elem_of_seqZ).
    apply list_elem_of_singleton in Hin. simplify_eq. lia.
Qed.

Lemma visitNeighbor_cases b cx cy f d :
  visitNeighbor b cx cy f d = f \/
  exists nx ny,
    in_grid nx ny /\ isPit b nx ny = true /\ marked (visited f) (cellIndex nx ny) = false /\
    visitNeighbor b cx cy f d =
      {| queue := queue f ++ [(nx, ny)];
         visited := arr_set (visited f) (cellIndex nx ny) true;
         box := {| minX := Z.min (minX (box f)) nx; maxX := Z.max (maxX (box f)) nx;
                   minY := Z.min (minY (box f)) ny; maxY := Z.max (maxY (box f)) ny |} |}.
Proof.
  unfold visitNeighbor. cbv zeta. destruct (decide _) as [|Hin]; [by left|].
  destruct (marked _ _) eqn:Hm; [by left|]. destruct (isPit _ _ _) eqn:Hp; [|by left].
  right. exists (cx + d.1)%Z, (cy + d.2)%Z. split; [unfold in_grid; lia|]. done.
Qed.

Lemma foldl_visit_ind (P : Flood -> Prop) b cx cy ds :
  (forall f d, P f -> P (visitNeighbor b cx cy f d)) ->
  forall f, P f -> P (foldl (visitNeighbor b cx cy) f ds).
Proof. intros Hstep. induction ds as [|d ds IH]; intros f Hf; [done|]. apply IH. by apply Hstep. Qed.

Lemma flood_ind (P : Flood -> Prop) b :
  (forall f d cx cy, P f -> P (visitNeighbor b cx cy f d)) ->
  (forall f, P f -> forall q, P {| queue := q; visited := visited f; box := box f |}) ->
  forall fuel f f', flood fuel b f = Some f' -> P f -> P f'.
Proof.
  intros Hvisit Hpop. induction fuel as [|fuel IH]; intros f f'; cbn [flood];
    destruct (queue f) as [|[cx cy] rest] eqn:E; try by intros [= <-].
  intros Hflood Hf. apply (IH _ _ Hflood). apply foldl_visit_ind; [by intros; apply Hvisit|].
  by apply Hpop.
Qed.

Lemma tight_extend b r nx ny :
  tight b r -> in_grid nx ny -> isPit b nx ny = true ->
  tight b {| minX := Z.min (minX r) nx; maxX := Z.max (maxX r) nx;
             minY := Z.min (minY r) ny; maxY := Z.max (maxY r) ny |}.
Proof.
  intros (H1 & H2 & H3 & H4 & (ya & Ba & Pa) & (yb & Bb & Pb) & (xc & Bc & Pc) & (xd & Bd & Pd))
         [Hx Hy] Hp.
  unfold tight, in_box in *. cbn [minX maxX minY maxY] in *.
  split; [lia|]. split; [lia|]. split; [lia|]. split; [lia|].
  split; [|split; [|split]].
  - destruct (decide (nx < minX r)%Z).
    + rewrite (Z.min_r (minX r) nx) by lia. exists ny. split; [lia|done].
    + rewrite (Z.min_l (minX r) nx) by lia. exists ya. split; [lia|done].
  - destruct (decide (maxX r < nx)%Z).
    + rewrite (Z.max_r (maxX r) nx) by lia. exists ny. split; [lia|done].
    + rewrite (Z.max_l (maxX r) nx) by lia. exists yb. split; [lia|done].
  - destruct (decide (ny < minY r)%Z).
    + rewrite (Z.min_r (minY r) ny) by lia. exists nx. split; [lia|done].
    + rewrite (Z.min_l (minY r) ny) by lia. exists xc. split; [lia|done].
  - destruct (decide (maxY r < ny)%Z).
    + rewrite (Z.max_r (maxY r) ny) by lia. exists nx. split; [lia|done].
    + rewrite (Z.max_l (maxY r) ny) by lia. exists xd. split; [lia|done].
Qed.

Lemma visitNeighbor_inv b rs cx cy f d :
  flood_inv b rs f -> flood_inv b rs (visitNeighbor b cx cy f d).
Proof.
  intros [Hcov Htight].
  destruct (visitNeighbor_cases b cx cy f d) as [->|(nx & ny & Hin & Hp & Hm & ->)]; [done|].
  split; cbn [visited box]; [|by apply tight_extend].
  intros x y Hxy. rewrite marked_set. destruct (decide _) as [Heq|Hne].
  - intros _. left. apply cellIndex_inj in Heq as [-> ->]; [|done..].
    unfold in_box. cbn. lia.
  - intros Hmk. destruct (Hcov x y Hxy Hmk) as [Hb|Hr]; [|by right].
    left. unfold in_box in *. cbn. lia.
Qed.

Lemma visitNeighbor_marks b cx cy f d i :
  marked (visited f) i = true -> marked (visited (visitNeighbor b cx cy f d)) i = true.
Proof.
  intros Hi.
  destruct (visitNeighbor_cases b cx cy f d) as [->|(nx & ny & _ & _ & _ & ->)]; [done|].
  cbn. rewrite marked_set. by destruct (decide _).
Qed.

Lemma flood_inv_marks b rs fuel f f' :
  flood fuel b f = Some f' -> flood_inv b rs f ->
  flood_inv b rs f' /\ forall i, marked (visited f) i = true -> marked (visited f') i = true.
Proof.
  intros Hflood Hinv.
  apply (flood_ind (fun g => flood_inv b rs g /\
                             forall i, marked (visited f) i = true -> marked (visited g) i = true)
           b) with (fuel := fuel) (f := f); [| |done|done].
  - intros g d cx cy [Hg Hm]. split; [by apply visitNeighbor_inv|].
    intros i Hi. by apply visitNeighbor_marks, Hm.
  - intros g [Hg Hm] q. done.
Qed.

Lemma filter_length_strict {A} (P Q : A -> Prop) `{!forall x, Decision (P x)}
    `{!forall x, Decision (Q x)} (l : list A) (a : A) :
  a ∈ l -> P a -> ~ Q a -> (forall x, Q x -> P x) ->
  (length (filter Q l) < length (filter P l))%nat.
Proof.
  intros Hin Pa Qa HQP.
  assert (forall l', (length (filter Q l') <= length (filter P l'))%nat) as Hle.
  { intros l'. induction l' as [|x l' IH]; [done|]. rewrite !filter_cons.
    destruct (decide (Q x)) as [Hq|Hq].
    - rewrite decide_True by auto. simpl. lia.
    - destruct (decide (P x)); simpl; lia. }
  induction l as [|x l IH]; [by apply elem_of_nil in Hin|].
  rewrite !filter_cons. apply elem_of_cons in Hin as [<-|Hin].
  - rewrite (decide_True (P := P a)), (decide_False (P := Q a)) by done. simpl.
    specialize (Hle l). lia.
  - specialize (IH Hin). destruct (decide (Q x)) as [Hq|Hq].
    + rewrite decide_True by auto. simpl. lia.
    + destruct (decide (P x)); simpl; lia.
Qed.

Lemma unseen_set v i :
  (i < GRID_W * GRID_H)%nat -> marked v i = false ->
  (unseen (arr_set v i true) < unseen v)%nat.
Proof.
  intros Hi Hm. unfold unseen.
  apply (filter_length_strict _ _ _ i); [apply elem_of_seq; lia|done| |].
  - rewrite marked_set, decide_True by done. done.
  - intros j. rewrite marked_set. by destruct (decide _).
Qed.

Lemma unseen_le v : (unseen v <= GRID_W * GRID_H)%nat.
Proof.
  unfold unseen. etrans; [apply length_filter|]. by rewrite length_seq.
Qed.

Lemma visitNeighbor_measure b cx cy f d :
  (length (queue (visitNeighbor b cx cy f d)) + unseen (visited (visitNeighbor b cx cy f d))
   <= length (queue f) + unseen (visited f))%nat.
Proof.
  destruct (visitNeighbor_cases b cx cy f d) as [->|(nx & ny & Hin & _ & Hm & ->)]; [done|].
  cbn [queue visited]. rewrite length_app. cbn [length].
  pose proof (unseen_set (visited f) (cellIndex nx ny) (cellIndex_lt nx ny Hin) Hm). lia.
Qed.

Lemma flood_total b fuel f :
  (length (queue f) + unseen (visited f) <= fuel)%nat -> is_Some (flood fuel b f).
Proof.
  revert f. induction fuel as [|fuel IH]; intros f Hf; cbn [flood];
    destruct (queue f) as [|[cx cy] rest] eqn:E; try done; cbn [length] in Hf; [exfalso; lia|].
  apply IH.
  assert (forall ds g, (length (queue g) + unseen (visited g) <= fuel)%nat ->
            (length (queue (foldl (visitNeighbor b cx cy) g ds))
             + unseen (visited (foldl (visitNeighbor b cx cy) g ds)) <= fuel)%nat) as Hfold.
  { induction ds as [|d ds IHd]; intros g Hg; [done|]. simpl. apply IHd.
    etrans; [apply visitNeighbor_measure|done]. }
  apply Hfold. cbn [queue visited]. lia.
Qed.

Lemma scanCell_total b st c :
  in_grid c.1 c.2 -> is_Some (scanCell (GRID_W * GRID_H) b st c).
Proof.
  intros Hc. unfold scanCell.
  destruct (marked st.1 (cellIndex c.1 c.2)) eqn:Hm; [done|].
  destruct (isPit b c.1 c.2); [|done]. cbn [orb negb].
  destruct (flood_total b (GRID_W * GRID_H)
              {| queue := [c]; visited := arr_set st.1 (cellIndex c.1 c.2) true;
                 box := {| minX := c.1; maxX := c.1; minY := c.2; maxY := c.2 |} |})
    as [f Hf].
  - cbn [queue visited length].
    pose proof (unseen_set st.1 _ (cellIndex_lt _ _ Hc) Hm).
    pose proof (unseen_le st.1). lia.
  - rewrite Hf. done.
Qed.

Lemma scan_total b cs st :
  (forall c, c ∈ cs -> in_grid c.1 c.2) -> is_Some (scan (GRID_W * GRID_H) b st cs).
Proof.
  revert st. induction cs as [|c cs IH]; intros st Hcs; [done|]. cbn [scan].
  destruct (scanCell_total b st c) as [st' ->]; [apply Hcs; by left|].
  apply IH. intros c' Hc'. apply Hcs. by right.
Qed.

Lemma scanCell_inv b fuel seen st c st' :
  in_grid c.1 c.2 -> scanCell fuel b st c = Some st' ->
  scan_inv b seen st -> scan_inv b (c :: seen) st'.
Proof.
  intros Hc Hscan (J1 & J2 & J3). unfold scanCell in Hscan.
  destruct (marked st.1 (cellIndex c.1 c.2)) eqn:Hm.
  { cbn [orb] in Hscan. injection Hscan as <-. split; [done|]. split; [done|].
    intros c' [->|Hin]%elem_of_cons Hp; [done|by apply J3]. }
  destruct (isPit b c.1 c.2) eqn:Hp.
  2:{ cbn [orb negb] in Hscan. injection Hscan as <-. split; [done|]. split; [done|].
      intros c' [->|Hin]%elem_of_cons Hp'; [congruence|by apply J3]. }
  cbn [orb negb] in Hscan.
  destruct (flood fuel b _) as [f|] eqn:Hflood; [|done]. injection Hscan as <-.
  apply (flood_inv_marks b st.2) in Hflood as [[Hcov Htight] Hmarks].
  - cbn [visited] in Hmarks. split; [|split]; cbn [fst snd].
    + intros x y Hxy Hmk. destruct (Hcov x y Hxy Hmk) as [Hb|(r & Hr & Hb)].
      * exists (box f). split; [|done]. apply elem_of_app. right. by left.
      * exists r. split; [|done]. apply elem_of_app. by left.
    + intros r [Hr|Hr%list_elem_of_singleton]%elem_of_app; [by apply J2|by subst].
    + intros c' Hin Hp'. apply Hmarks. rewrite marked_set.
      destruct (decide _); [done|]. apply elem_of_cons in Hin as [->|Hin]; [done|].
      by apply J3.
  - split; cbn [visited box].
    + intros x y Hxy. rewrite marked_set. destruct (decide _) as [Heq|Hne].
      * intros _. left. apply cellIndex_inj in Heq as [<- <-]; [|done..].
        unfold in_box. cbn. lia.
      * intros Hmk. right. by apply J1.
    + destruct Hc as [Hx Hy]. unfold tight, in_box. cbn [minX maxX minY maxY].
      split; [lia|]. split; [lia|]. split; [lia|]. split; [lia|].
      split; [exists c.2; split; [lia|done]|]. split; [exists c.2; split; [lia|done]|].
      split; exists c.1; (split; [lia|done]).
Qed.

Lemma scan_inv_all b fuel cs :
  (forall c, c ∈ cs -> in_grid c.1 c.2) ->
  forall seen st st',
    scan fuel b st cs = Some st' -> scan_inv b seen st ->
    exists seen', scan_inv b seen' st' /\ forall c, c ∈ seen \/ c ∈ cs -> c ∈ seen'.
Proof.
  induction cs as [|c cs IH]; intros Hcs seen st st'; cbn [scan].
  { intros [= <-] Hinv. exists seen. split; [done|]. intros c [?|Hc]; [done|].
    by apply elem_of_nil in Hc. }
  destruct (scanCell fuel b st c) as [st1|] eqn:Hcell; [|done]. cbn [mbind option_bind].
  intros Hscan Hinv.
  apply (scanCell_inv b fuel seen) in Hcell; [|apply Hcs; by left|done].
  destruct (IH (fun c' Hc' => Hcs c' (list_elem_of_further _ _ _ Hc')) _ _ _ Hscan Hcell)
    as (seen' & Hinv' & Hsub).
  exists seen'. split; [done|]. intros c' [Hc'|Hc'].
  - apply Hsub. left. by right.
  - apply elem_of_cons in Hc' as [->|Hc']; apply Hsub; [left; by left|by right].
Qed.

Lemma pitRegions_inv b rs :
  pitRegions b = Some rs ->
  (forall x y, in_grid x y -> isPit b x y = true -> exists r, r ∈ rs /\ in_box r x y) /\
  (forall r, r ∈ rs -> tight b r).
Proof.
  unfold pitRegions.
  destruct (scan _ b _ gridCells) as [[v rs']|] eqn:Hscan; [|done]. intros [= <-].
  destruct (scan_inv_all b _ gridCells (fun c Hc => proj2 (in_grid_cells c.1 c.2)
              ltac:(by destruct c)) [] _ _ Hscan) as (seen & (J1 & J2 & J3) & Hsub).
  { split; [|split].
    - intros x y Hxy Hm. exfalso. unfold marked in Hm.
      apply bool_decide_eq_true_1 in Hm. by apply arr_get_fill_inv in Hm as [? _].
    - intros r Hr. by apply elem_of_nil in Hr.
    - intros c Hc. by apply elem_of_nil in Hc. }
  split; [|exact J2]. intros x y Hxy Hp. apply (J1 x y Hxy).
  apply (J3 (x, y)); [|done]. apply Hsub. right. by apply in_grid_cells.
Qed.

(** X25. The search for pit regions comes to an end.  On every board, each
    breadth-first search empties its queue within [W * H] rounds, one for each
    cell it can mark, so the list of regions is computed. *)
Theorem pit_search_terminates b : exists rs, pitRegions b = Some rs.
Proof.
  unfold pitRegions.
  destruct (scan_total b gridCells (arr_fill (GRID_W * GRID_H) false, [])) as [[v rs] ->].
  - intros [x y] Hc. by apply in_grid_cells.
  - by exists rs.
Qed.

(** X26. Every pit is in a region.  For each pit cell of the grid the list
    of regions the search builds has a region whose bounds contain the cell. *)
Theorem pit_regions_cover_the_pits b rs :
  pitRegions b = Some rs ->
  forall x y, in_grid x y -> isPit b x y = true ->
    exists r, r ∈ rs /\ in_box r x y.
Proof.
  intros [Hcov _]%pitRegions_inv x y Hxy Hp. by apply Hcov.
Qed.

Lemma pit_regions_cover_the_pits_witness :
  exists r, r ∈ [ {| minX := 1; maxX := 2; minY := 1; maxY := 1 |};
                  {| minX := 3; maxX := 3; minY := 3; maxY := 3 |} ] /\
            in_box r 2 1.
Proof.
  apply (pit_regions_cover_the_pits pitBoard); [reflexivity|unfold in_grid, GRID_W, GRID_H; lia|reflexivity].
Defined.

(** X27. The regions are tight.  Every region lies within the grid and each
    of its four sides holds a pit cell, so no box is wider or deeper than the
    pits it was grown from; on a board without pits there is no region. *)
Theorem pit_regions_are_tight b rs :
  pitRegions b = Some rs ->
  (forall r, r ∈ rs -> tight b r) /\
  ((forall x y, in_grid x y -> isPit b x y = false) -> rs = []).
Proof.
  intros [_ Htight]%pitRegions_inv. split; [done|].
  intros Hno. destruct rs as [|r rs]; [done|]. exfalso.
  destruct (Htight r) as (H1 & H2 & H3 & H4 & (y & [Bx By] & Hp) & _); [by left|].
  rewrite Hno in Hp; [done|]. unfold in_grid. lia.
Qed.

Lemma pit_regions_are_tight_witness :
  tight pitBoard {| minX := 1; maxX := 2; minY := 1; maxY := 1 |}.
Proof.
  apply (proj1 (pit_regions_are_tight pitBoard
                  [ {| minX := 1; maxX := 2; minY := 1; maxY := 1 |};
                    {| minX := 3; maxX := 3; minY := 3; maxY := 3 |} ] eq_refl)).
  by left.
Defined.

(** ** The orbit camera *)

Lemma orbitStep_ok iso o ev : orbit_ok o -> orbit_ok (orbitStep iso o ev).
Proof.
  intros [Hp Hd]. destruct ev as [x y|x y| |d]; cbn [orbitStep].
  - unfold onDown. by destruct iso.
  - unfold onMove. destruct iso; [|done]. destruct (isDown o); [|done]. cbn [negb].
    split; [|done]. apply clamp_bounds. by vm_compute.
  - done.
  - unfold onWheel. destruct iso; [|done]. cbn [negb]. split; [done|].
    apply clamp_bounds. by vm_compute.
Qed.

(** X28. The orbit camera stays within its limits.  Through any run of
    presses, moves, releases and wheel turns the pitch stays within
    [[-1.15, 1.15]] and the distance within [[4.5, 18]]; a move while the
    button is down and a wheel turn bring them there from anywhere.  A move
    without the button down changes nothing.  The yaw is not limited: a move
    with the button down adds to it 0.006 times the pointer's step to the
    right, the difference, the product and the sum each rounded as doubles
    are, and records the pointer; presses, releases and wheel turns leave the
    yaw alone.  The yaw after two moves need not be that of one move to the
    same place: from yaw 0 with the pointer at 0, a move to 1 and then to 6
    ends below the yaw a single move to 6 gives. *)
Theorem orbit_stays_in_range :
  (forall iso evs o, orbit_ok o -> orbit_ok (foldl (orbitStep iso) o evs)) /\
  (forall x y o, isDown o = true ->
     frac (-115) 100 <= pitch (onMove true x y o) /\ pitch (onMove true x y o) <= frac 115 100) /\
  (forall d o, frac 45 10 <= dist (onWheel true d o) /\ dist (onWheel true d o) <= num 18) /\
  (forall iso x y o, isDown o = false -> onMove iso x y o = o) /\
  (forall x y o, isDown o = true ->
     yaw (onMove true x y o) = yaw o ⊕ (x ⊖ lastX o) ⊗ frac 6 1000 /\
     lastX (onMove true x y o) = x /\ lastY (onMove true x y o) = y /\
     isDown (onMove true x y o) = true) /\
  (forall iso o, (forall x y, yaw (orbitStep iso o (MouseDown x y)) = yaw o) /\
                 yaw (orbitStep iso o MouseUp) = yaw o /\
                 (forall d, yaw (orbitStep iso o (MouseWheel d)) = yaw o)) /\
  (let o := orbitStep true levelOrbit (MouseDown (num 0) (num 0)) in
   yaw (foldl moveTo o [(num 1, num 0); (num 6, num 0)]) < yaw (moveTo o (num 6, num 0))).
Proof.
  split; [|split; [|split; [|split; [|split; [|split]]]]].
  - intros iso evs. induction evs as [|ev evs IH]; intros o Hok; [done|].
    cbn [foldl]. by apply IH, orbitStep_ok.
  - intros x y o Hd. unfold onMove. rewrite Hd. cbn [negb]. cbv zeta. cbn [pitch].
    apply clamp_bounds. by vm_compute.
  - intros d o. unfold onWheel. cbn [negb dist]. apply clamp_bounds. by vm_compute.
  - intros iso x y o Hd. unfold onMove. rewrite Hd. by destruct iso.
  - intros x y o Hd. unfold onMove. rewrite Hd. cbn [negb]. cbv zeta.
    cbn [yaw lastX lastY isDown]. by repeat split.
  - intros iso o. cbn [orbitStep]. unfold onDown, onUp, onWheel.
    destruct iso; cbn [negb yaw]; by repeat split.
  - by vm_compute.
Qed.

Lemma orbit_stays_in_range_witness :
  orbit_ok (foldl (orbitStep true) levelOrbit
              [MouseDown (num 10) (num 10); MouseMove (num 10) (num 900); MouseWheel (num 5000)]).
Proof.
  apply (proj1 orbit_stays_in_range).
  split; split; by vm_compute.
Defined.

(** ** The scene: assets *)

Lemma getCellFromMouse_tile x y :
  (x < GRID_W)%nat -> (y < GRID_H)%nat ->
  getCellFromMouse (tilePosition x y) = (num_of_nat x, num_of_nat y).
Proof.
  intros Hx Hy. apply cell_of_point; [done..| | | |];
    unfold GRID_W, GRID_H in *;
    destruct x as [|[|[|[|?]]]]; try lia; destruct y as [|[|[|[|?]]]]; try lia;
    by vm_compute.
Qed.

Lemma customPosition_on_cell x y c : on_cell x y c -> customPosition c = tilePosition x y.
Proof. intros [Hx Hy]. unfold customPosition, tilePosition. by rewrite Hx, Hy. Qed.

Lemma customUpdater_free brush s x y :
  Forall (fun c => ~ on_cell x y c) (customObjects s) ->
  customUpdater brush s (PickCell x y) =
    setCustomObjects (customObjects s ++ [newPlacement (nextCustomId s) brush x y])
      (setSelectedCustomId (Some (num (nextCustomId s)))
         (setNextCustomId (nextCustomId s + 1) s)).
Proof.
  intros Hfree. unfold customUpdater. cbn [pick_x pick_y].
  rewrite (proj2 (list_find_None _ _)); [done|].
  eapply Forall_impl; [exact Hfree|]. intros c Hc. exact Hc.
Qed.

(** X29. An asset is drawn where it was placed, and is picked there.  A
    placement made by a pick on a free cell [(x, y)] of the grid is drawn,
    its template being loaded, at the place of the tile of [(x, y)]; a click at
    that place picks the cell [(x, y)] again and so removes the placement, and
    a right-button press there grabs it. *)
Theorem asset_removed_where_drawn cfg brush s x y :
  assetPath cfg brush -> (x < GRID_W)%nat -> (y < GRID_H)%nat ->
  Forall (fun c => ~ on_cell x y c) (customObjects s) ->
  exists c,
    customObjects (applyPick cfg s (PickCell x y)).2 = customObjects s ++ [c] /\
    drawn cfg c /\
    customPosition c = tilePosition x y /\
    pickFromMouse (mode cfg) (customPosition c) = PickCell x y /\
    customObjects (applyPick cfg (applyPick cfg s (PickCell x y)).2
                     (pickFromMouse (mode cfg) (customPosition c))).2 = customObjects s /\
    forall ev d,
      button ev = 2%Z -> hit ev = Some (customPosition c) ->
      d_id (startCustomDrag ev d (applyPick cfg s (PickCell x y)).2).1 = Some (c_id c).
Proof.
  intros Hpath Hx Hy Hfree. exists (newPlacement (nextCustomId s) brush x y).
  assert (on_cell x y (newPlacement (nextCustomId s) brush x y)) as Hon by done.
  pose proof (customPosition_on_cell _ _ _ Hon) as Hpos.
  assert (pickFromMouse (mode cfg) (tilePosition x y) = PickCell x y) as Hpick.
  { rewrite pickFromMouse_not_edges by (destruct Hpath as [-> _]; done).
    rewrite getCellFromMouse_tile by done. cbn [fst snd]. by rewrite !to_nat_num_of_nat. }
  rewrite Hpos, Hpick, !(applyPick_asset cfg brush) by done. cbn [snd].
  rewrite customUpdater_free by done. cbn [customObjects setCustomObjects].
  split; [done|]. split; [by destruct Hpath as (_ & _ & _ & _ & ?)|].
  do 2 (split; [done|]). split.
  - unfold customUpdater. cbn [pick_x pick_y customObjects setCustomObjects].
    rewrite (list_find_snoc_new (fun c => c_x c = num_of_nat x /\ c_y c = num_of_nat y));
      [|exact Hfree|exact Hon].
    destruct (decide (_ = _)); cbn; by rewrite delete_snoc.
  - intros ev d Hb Hh. unfold startCustomDrag.
    rewrite decide_False by (intros H; by apply H). rewrite Hh.
    rewrite getCellFromMouse_tile by done. cbn [fst snd customObjects setCustomObjects].
    rewrite reverse_app. cbn [reverse rev_append app list_find].
    rewrite decide_True by done. done.
Qed.

Lemma asset_removed_where_drawn_witness :
  exists c,
    customObjects (applyPick (assetTool "crate") initialSession (PickCell 2 1)).2 = [] ++ [c] /\
    drawn (assetTool "crate") c /\
    customPosition c = tilePosition 2 1 /\
    pickFromMouse Objects (customPosition c) = PickCell 2 1 /\
    customObjects (applyPick (assetTool "crate")
                     (applyPick (assetTool "crate") initialSession (PickCell 2 1)).2
                     (pickFromMouse Objects (customPosition c))).2 = [] /\
    forall ev d,
      button ev = 2%Z -> hit ev = Some (customPosition c) ->
      d_id (startCustomDrag ev d
              (applyPick (assetTool "crate") initialSession (PickCell 2 1)).2).1
        = Some (c_id c).
Proof.
  apply (asset_removed_where_drawn (assetTool "crate") "crate" initialSession 2 1).
  - repeat split; discriminate.
  - vm_compute; lia.
  - vm_compute; lia.
  - constructor.
Defined.

(** ** The scene: objects *)

Lemma objectStep_itemAt b st c :
  objectStep b st c =
    match itemAt b c with
    | None => st
    | Some it => {| hasTorch := hasTorch st || is_torch it;
                    hasLight := hasLight st || is_pointLight it;
                    sceneItems := sceneItems st ++ [it] |}
    end.
Proof.
  unfold objectStep, itemAt. destruct (arr_get _ _) as [[[] r [l|]]|]; cbn;
    rewrite ?orb_false_r, ?orb_true_r; by destruct st.
Qed.

Lemma objects_fold b cs st :
  (forall it, it ∈ sceneItems (foldl (objectStep b) st cs) <->
     it ∈ sceneItems st \/ exists c, c ∈ cs /\ itemAt b c = Some it) /\
  (hasLight (foldl (objectStep b) st cs) = true <->
     hasLight st = true \/ exists c it, c ∈ cs /\ itemAt b c = Some it /\ is_pointLight it = true) /\
  (hasTorch (foldl (objectStep b) st cs) = true <->
     hasTorch st = true \/ exists c it, c ∈ cs /\ itemAt b c = Some it /\ is_torch it = true).
Proof.
  revert st. induction cs as [|c cs IH]; intros st.
  { cbn [foldl]. split; [|split]; (split; [by left|]).
    - intros [?|(c & Hc & _)]; [done|by apply elem_of_nil in Hc].
    - intros [?|(c & it & Hc & _)]; [done|by apply elem_of_nil in Hc].
    - intros [?|(c & it & Hc & _)]; [done|by apply elem_of_nil in Hc]. }
  cbn [foldl]. destruct (IH (objectStep b st c)) as (I1 & I2 & I3).
  rewrite objectStep_itemAt in *. split; [|split].
  - intros it. rewrite I1. destruct (itemAt b c) as [it0|] eqn:E; cbn [sceneItems].
    + rewrite elem_of_app, list_elem_of_singleton. split.
      * intros [[?| -> ]|(c' & Hc' & ?)]; [by left| |].
        -- right. exists c. split; [by left|done].
        -- right. exists c'. split; [by right|done].
      * intros [?|(c' & [ -> |Hc']%elem_of_cons & Hit)]; [by left; left| |].
        -- left. right. congruence.
        -- right. by exists c'.
    + split.
      * intros [?|(c' & Hc' & ?)]; [by left|]. right. exists c'. split; [by right|done].
      * intros [?|(c' & [ -> |Hc']%elem_of_cons & Hit)]; [by left|congruence|].
        right. by exists c'.
  - rewrite I2. destruct (itemAt b c) as [it0|] eqn:E; cbn [hasLight].
    + rewrite orb_true_iff. split.
      * intros [[?|Hl]|(c' & it & Hc' & ?)]; [by left| |].
        -- right. exists c, it0. split; [by left|done].
        -- right. exists c', it. split; [by right|done].
      * intros [?|(c' & it & [ -> |Hc']%elem_of_cons & Hit & Hl)]; [by left; left| |].
        -- left. right. congruence.
        -- right. by exists c', it.
    + split.
      * intros [?|(c' & it & Hc' & ?)]; [by left|]. right. exists c', it. split; [by right|done].
      * intros [?|(c' & it & [ -> |Hc']%elem_of_cons & Hit & Hl)]; [by left|congruence|].
        right. by exists c', it.
  - rewrite I3. destruct (itemAt b c) as [it0|] eqn:E; cbn [hasTorch].
    + rewrite orb_true_iff. split.
      * intros [[?|Hl]|(c' & it & Hc' & ?)]; [by left| |].
        -- right. exists c, it0. split; [by left|done].
        -- right. exists c', it. split; [by right|done].
      * intros [?|(c' & it & [ -> |Hc']%elem_of_cons & Hit & Hl)]; [by left; left| |].
        -- left. right. congruence.
        -- right. by exists c', it.
    + split.
      * intros [?|(c' & it & Hc' & ?)]; [by left|]. right. exists c', it. split; [by right|done].
      * intros [?|(c' & it & [ -> |Hc']%elem_of_cons & Hit & Hl)]; [by left|congruence|].
        right. by exists c', it.
Qed.

Lemma cellsInOrder_elem x y : (x, y) ∈ cellsInOrder <-> (x < GRID_W)%nat /\ (y < GRID_H)%nat.
Proof.
  unfold cellsInOrder. rewrite list_elem_of_bind. split.
  - intros (y' & Hin & Hy'%elem_of_seq).
    apply list_elem_of_bind in Hin as (x' & Hin & Hx'%elem_of_seq).
    apply list_elem_of_singleton in Hin. simplify_eq. lia.
  - intros [Hx Hy]. exists y. split; [|apply elem_of_seq; lia].
    apply list_elem_of_bind. exists x. split; [by apply list_elem_of_singleton|].
    apply elem_of_seq. lia.
Qed.

Lemma cell_of_index i :
  (i < GRID_W * GRID_H)%nat ->
  (i mod GRID_W < GRID_W)%nat /\ (i / GRID_W < GRID_H)%nat /\
  idxCell (i mod GRID_W) (i / GRID_W) = i.
Proof.
  unfold idxCell, GRID_W, GRID_H. intros Hi.
  pose proof (Nat.div_mod_eq i 4). pose proof (Nat.mod_upper_bound i 4).
  assert (i / 4 < 4)%nat by (apply Nat.Div0.div_lt_upper_bound; lia). lia.
Qed.

Lemma index_of_cell x y :
  (x < GRID_W)%nat -> (y < GRID_H)%nat ->
  (idxCell x y < GRID_W * GRID_H)%nat /\
  (idxCell x y mod GRID_W = x)%nat /\ (idxCell x y / GRID_W = y)%nat.
Proof.
  unfold idxCell, GRID_W, GRID_H. intros Hx Hy. split; [lia|].
  split.
  - rewrite Nat.add_comm, Nat.Div0.mod_add. by apply Nat.mod_small.
  - rewrite Nat.add_comm, Nat.div_add by lia. rewrite Nat.div_small by lia. lia.
Qed.


Lemma sceneObjects_spec b :
  (forall it, it ∈ sceneItems (sceneObjects b) <-> exists c, c ∈ cellsInOrder /\ itemAt b c = Some it) /\
  (hasLight (sceneObjects b) = true <->
     exists c it, c ∈ cellsInOrder /\ itemAt b c = Some it /\ is_pointLight it = true) /\
  (hasTorch (sceneObjects b) = true <->
     exists c it, c ∈ cellsInOrder /\ itemAt b c = Some it /\ is_torch it = true).
Proof.
  pose proof (objects_fold b cellsInOrder
                {| hasTorch := false; hasLight := false; sceneItems := [] |}) as (I1 & I2 & I3).
  split; [|split].
  - intros it. etrans; [apply I1|]. split; [|by right].
    intros [H|H]; [|done]. by apply elem_of_nil in H.
  - etrans; [apply I2|]. split; [|by right]. intros [H|H]; [|done]. discriminate H.
  - etrans; [apply I3|]. split; [|by right]. intros [H|H]; [|done]. discriminate H.
Qed.

(** X30. The scene and the panel show the same lights.  The scene has a
    point light with payload [l] at the place of the tile of a cell exactly
    when the light list has an entry with payload [l] for that cell, counting
    the entries whose index is a cell of the grid; the flag [hasLight] is set
    exactly when there is such an entry, and on a board of sixteen objects
    exactly when the list is not empty.  A light without a payload is in
    neither.  [hasTorch] is set exactly when some cell of the grid holds a
    torch. *)
Theorem scene_lights_are_listed_lights b :
  (forall p l,
     PointLight p l ∈ sceneItems (sceneObjects b) <->
     exists e, e ∈ lights b /\ (e_idx e < GRID_W * GRID_H)%nat /\
               p = tilePosition (e_x e) (e_y e) /\ l = e_light e) /\
  (hasLight (sceneObjects b) = true <->
     exists e, e ∈ lights b /\ (e_idx e < GRID_W * GRID_H)%nat) /\
  (board_wf b -> (hasLight (sceneObjects b) = true <-> lights b <> [])) /\
  (hasTorch (sceneObjects b) = true <->
     exists x y o, (x < GRID_W)%nat /\ (y < GRID_H)%nat /\
                   arr_get (objects b) (idxCell x y) = Some o /\ type o = Torch).
Proof.
  destruct (sceneObjects_spec b) as (I1 & I2 & I3).
  assert (forall x y p l,
            (x < GRID_W)%nat -> (y < GRID_H)%nat ->
            itemAt b (x, y) = Some (PointLight p l) <->
            p = tilePosition x y /\
            {| e_idx := idxCell x y; e_light := l; e_x := x; e_y := y |} ∈ lights b) as Hitem.
  { intros x y p l Hx Hy. rewrite lights_elem. cbn [e_idx e_light e_x e_y].
    destruct (index_of_cell x y Hx Hy) as (_ & Hm & Hd). unfold itemAt. cbn [fst snd]. split.
    - destruct (arr_get _ _) as [[[] r [l'|]]|]; try done. intros [= <- <-].
      split; [done|]. by eexists.
    - intros (-> & o & -> & Ht & Hl & _). destruct o as [t r lo]. cbn in Ht, Hl. by subst. }
  assert (forall p l,
            PointLight p l ∈ sceneItems (sceneObjects b) <->
            exists e, e ∈ lights b /\ (e_idx e < GRID_W * GRID_H)%nat /\
                      p = tilePosition (e_x e) (e_y e) /\ l = e_light e) as Hlights.
  { intros p l. rewrite I1. split.
    - intros ([x y] & [Hx Hy]%cellsInOrder_elem & Hit).
      apply Hitem in Hit as [-> He]; [|done..]. eexists. split; [exact He|].
      cbn. split; [by apply index_of_cell|done].
    - intros (e & He & Hlt & -> & ->).
      destruct (cell_of_index _ Hlt) as (Hx & Hy & Hidx).
      pose proof He as (o & Hget & Ht & Hl & Hex & Hey)%lights_elem.
      exists (e_x e, e_y e). rewrite Hex, Hey. split; [by apply cellsInOrder_elem|].
      apply Hitem; [done..|]. split; [done|]. rewrite Hidx, <- Hex, <- Hey. by destruct e. }
  assert (hasLight (sceneObjects b) = true <->
          exists e, e ∈ lights b /\ (e_idx e < GRID_W * GRID_H)%nat) as Hflag.
  { rewrite I2. split.
    - intros ([x y] & it & Hc & Hit & Hl). destruct it as [|p l]; [done|].
      assert (PointLight p l ∈ sceneItems (sceneObjects b)) as Hin
        by (apply I1; by exists (x, y)).
      apply Hlights in Hin as (e & He & Hlt & _). by exists e.
    - intros (e & He & Hlt).
      assert (PointLight (tilePosition (e_x e) (e_y e)) (e_light e) ∈ sceneItems (sceneObjects b))
        as Hin by (apply Hlights; by exists e).
      apply I1 in Hin as (c & Hc & Hit).
      by exists c, (PointLight (tilePosition (e_x e) (e_y e)) (e_light e)). }
  split; [exact Hlights|]. split; [exact Hflag|]. split.
  - intros (_ & _ & _ & [Hlen _]). rewrite Hflag. split.
    + intros (e & He & _) Hnil. rewrite Hnil in He. by apply elem_of_nil in He.
    + intros Hne. destruct (lights b) as [|e es] eqn:E; [done|]. exists e.
      assert (e ∈ lights b) as He by (rewrite E; by left). split; [by rewrite <- E|].
      apply lights_elem in He as (o & Hget & _). apply arr_get_Some_lt in Hget.
      by rewrite Hlen in Hget.
  - rewrite I3. split.
    + intros ([x y] & it & [Hx Hy]%cellsInOrder_elem & Hit & Ht).
      exists x, y. unfold itemAt in Hit. cbn [fst snd] in Hit.
      destruct (arr_get _ _) as [[[] r [l'|]]|] eqn:Hget; simplify_eq/=;
        by eexists.
    + intros (x & y & o & Hx & Hy & Hget & Ht).
      exists (x, y), (ObjectMesh Torch (tilePosition x y) (rotation o)).
      split; [by apply cellsInOrder_elem|]. split; [|done].
      unfold itemAt. cbn [fst snd]. rewrite Hget. destruct o as [t r [l|]]; cbn in Ht; by subst.
Qed.

Lemma scene_lights_are_listed_lights_witness :
  hasLight (sceneObjects (board litSession)) = true <-> lights (board litSession) <> [].
Proof.
  apply (proj1 (proj2 (proj2 (scene_lights_are_listed_lights (board litSession))))).
  apply (proj1 (applyPick_wf lightTool initialSession (PickCell 1 2)
                  ltac:(split; vm_compute; lia)
                  (conj makeEmptyState_wf (Forall_nil_2 _)))).
Defined.
